(** * OpenSankey: the layout engine and the journey analyzer

    A shallow embedding of [SankeyLayout] (packages/core/src/layout/sankey.ts)
    and of [JourneyAnalyzer] (packages/core/src/transforms/journey.ts).

    Modelling choices.
    - A JavaScript [number] that holds a pixel or a flow quantity is an exact
      rational ([Qc], canonical fractions, so that equality is Leibniz
      equality).  IEEE-754 rounding, NaN and the infinities are not modelled;
      the one place where the source starts from [Infinity]
      ([globalScale]) uses [option Qc] with [None] for [Infinity].
    - [depth] and the iteration count are natural numbers.
    - The object graph is an arena: [nodes] is the array [graph.nodes] and a
      node reference is an index into it; [links] is the store of link
      objects and a link reference is an index into it.  [sourceLinks] and
      [targetLinks] hold link references, [source] and [target] hold node
      references, so a link reached through two arrays is one shared object.
    - [Array.prototype.sort] is stable; it is modelled by a stable insertion
      sort driven by the sign of the source's comparator.
    - The only exception the source can raise on such a graph is the
      [TypeError] of [resolveCollisions] reading [last.y] on an empty column;
      functions that can raise return [option], [None] being the exception. *)

From Stdlib Require Import QArith Qcanon Lqa.
From stdpp Require Import numbers gmap strings list.

Open Scope Qc_scope.

(** ** Numbers *)

Definition Qc_of_nat (n : nat) : Qc := Qc_of_Z (Z.of_nat n).

(** [Math.max] on two numbers. *)
Definition Qc_max (a b : Qc) : Qc := if decide (a < b) then b else a.

(** ** Data model (types/index.ts) *)

Module Padding.
Record t := mk { top : Qc; right : Qc; bottom : Qc; left : Qc }.
End Padding.

Inductive NodeAlign := AlignLeft | AlignRight | AlignCenter | AlignJustify.

Global Instance NodeAlign_eq_dec : EqDecision NodeAlign.
Proof. solve_decision. Defined.

Module Config.
Record t := mk {
  width : Qc;
  height : Qc;
  padding : Padding.t;
  nodeWidth : Qc;
  nodePadding : Qc;
  nodeAlign : NodeAlign;
  iterations : nat
}.
End Config.

Module Node.
Record t := mk {
  id : string;
  label : string;
  value : Qc;
  depth : nat;
  x : Qc;
  y : Qc;
  width : Qc;
  height : Qc;
  sourceLinks : list nat;
  targetLinks : list nat
}.

Definition set_value (v : Qc) (n : t) : t :=
  mk (id n) (label n) v (depth n) (x n) (y n) (width n) (height n)
     (sourceLinks n) (targetLinks n).
Definition set_depth (d : nat) (n : t) : t :=
  mk (id n) (label n) (value n) d (x n) (y n) (width n) (height n)
     (sourceLinks n) (targetLinks n).
Definition set_x (v : Qc) (n : t) : t :=
  mk (id n) (label n) (value n) (depth n) v (y n) (width n) (height n)
     (sourceLinks n) (targetLinks n).
Definition set_y (v : Qc) (n : t) : t :=
  mk (id n) (label n) (value n) (depth n) (x n) v (width n) (height n)
     (sourceLinks n) (targetLinks n).
Definition set_width (v : Qc) (n : t) : t :=
  mk (id n) (label n) (value n) (depth n) (x n) (y n) v (height n)
     (sourceLinks n) (targetLinks n).
Definition set_height (v : Qc) (n : t) : t :=
  mk (id n) (label n) (value n) (depth n) (x n) (y n) (width n) v
     (sourceLinks n) (targetLinks n).
Definition set_sourceLinks (l : list nat) (n : t) : t :=
  mk (id n) (label n) (value n) (depth n) (x n) (y n) (width n) (height n)
     l (targetLinks n).
Definition set_targetLinks (l : list nat) (n : t) : t :=
  mk (id n) (label n) (value n) (depth n) (x n) (y n) (width n) (height n)
     (sourceLinks n) l.

(** What a read through a reference outside the arena yields; no such read
    happens on a graph whose references are valid. *)
Definition dummy : t := mk "" "" 0 0 0 0 0 0 [] [].
End Node.

Module Link.
Record t := mk {
  source : nat;
  target : nat;
  value : Qc;
  width : Qc;
  sy : Qc;
  ty : Qc
}.

Definition set_width (v : Qc) (l : t) : t :=
  mk (source l) (target l) (value l) v (sy l) (ty l).
Definition set_sy (v : Qc) (l : t) : t :=
  mk (source l) (target l) (value l) (width l) v (ty l).
Definition set_ty (v : Qc) (l : t) : t :=
  mk (source l) (target l) (value l) (width l) (sy l) v.

Definition dummy : t := mk 0 0 0 0 0 0.
End Link.

Abbreviation SankeyNode := Node.t.
Abbreviation SankeyLink := Link.t.
Abbreviation SankeyConfig := Config.t.

Global Instance SankeyNode_inhabited : Inhabited SankeyNode := populate Node.dummy.
Global Instance SankeyLink_inhabited : Inhabited SankeyLink := populate Link.dummy.

Record SankeyGraph := mkGraph {
  nodes : list SankeyNode;
  links : list SankeyLink
}.

(** ** Stable sort by a comparator

    [cmp a b > 0] is the comparator's verdict "a goes after b". *)

Fixpoint insert_by {A} (cmp : A → A → Qc) (a : A) (l : list A) : list A :=
  match l with
  | [] => [a]
  | b :: l' => if decide (0 < cmp a b) then b :: insert_by cmp a l' else a :: l
  end.

Definition sort_by {A} (cmp : A → A → Qc) (l : list A) : list A :=
  foldr (insert_by cmp) [] l.

(** ** SankeyLayout *)

Section Layout.
Variable config : SankeyConfig.

(** *** computeDepths *)

(** The inner [for (const link of node.sourceLinks)] of the BFS. *)
Definition pushTargets (ls : list SankeyLink) (ns : list SankeyNode)
    (visited : gset string) (next : list nat) (sl : list nat) : list nat :=
  fold_left
    (λ nx l,
       let t := Link.target (ls !!! l) in
       if decide (Node.id (ns !!! t) ∈ visited) then nx else nx ++ [t])
    sl next.

(** One turn of [for (const node of current)]. *)
Definition visitNode (ls : list SankeyLink) (d : nat)
    (acc : gset string * list SankeyNode * list nat) (i : nat)
    : gset string * list SankeyNode * list nat :=
  let '(visited, ns, next) := acc in
  let node := ns !!! i in
  if decide (Node.id node ∈ visited) then acc
  else
    let visited' := {[ Node.id node ]} ∪ visited in
    let ns' := alter (Node.set_depth d) i ns in
    (visited', ns', pushTargets ls ns' visited' next (Node.sourceLinks node)).

(** [while (current.length > 0)]; [None] when the fuel runs out before the
    frontier is empty. *)
Fixpoint bfsLoop (fuel : nat) (ls : list SankeyLink) (current : list nat)
    (d : nat) (visited : gset string) (ns : list SankeyNode)
    : option (gset string * list SankeyNode) :=
  match fuel with
  | O => None
  | S fuel' =>
      match current with
      | [] => Some (visited, ns)
      | _ =>
          let '(visited', ns', next) :=
            fold_left (visitNode ls d) current (visited, ns, []) in
          bfsLoop fuel' ls next (S d) visited' ns'
      end
  end.

Definition sourcesOf (ns : list SankeyNode) : list nat :=
  filter (λ i, Node.targetLinks (ns !!! i) = []) (seq 0 (length ns)).

Definition maxDepthOf (ns : list SankeyNode) : nat :=
  max_list (Node.depth <$> ns).

Definition markUnvisited (visited : gset string) (ns : list SankeyNode)
    : list SankeyNode :=
  (λ n, if decide (Node.id n ∈ visited) then n else Node.set_depth 0 n) <$> ns.

Definition justify (ns : list SankeyNode) : list SankeyNode :=
  if decide (Config.nodeAlign config = AlignJustify) then
    let maxDepth := maxDepthOf ns in
    (λ n, if decide (Node.sourceLinks n = [] ∧ Node.depth n < maxDepth)%nat
          then Node.set_depth maxDepth n else n) <$> ns
  else ns.

Definition bfsFuel (ns : list SankeyNode) : nat := length ns + 2.

Definition computeDepths (ls : list SankeyLink) (ns : list SankeyNode)
    : list SankeyNode :=
  let sources := sourcesOf ns in
  match sources with
  | [] => Node.set_depth 0 <$> ns
  | _ =>
      match bfsLoop (bfsFuel ns) ls sources 0 ∅ ns with
      | Some (visited, ns') => justify (markUnvisited visited ns')
      | None => ns
      end
  end.

(** *** computeNodeValues *)

Definition sumLinkValues (ls : list SankeyLink) (l : list nat) : Qc :=
  fold_left (λ s k, s + Link.value (ls !!! k)) l 0.

Definition computeNodeValues (ls : list SankeyLink) (ns : list SankeyNode)
    : list SankeyNode :=
  (λ n,
     let inSum := sumLinkValues ls (Node.targetLinks n) in
     let outSum := sumLinkValues ls (Node.sourceLinks n) in
     Node.set_value (Qc_max inSum outSum) n) <$> ns.

(** *** positionNodesX *)

Definition positionNodesX (ns : list SankeyNode) : list SankeyNode :=
  let padding := Config.padding config in
  let innerWidth :=
    Config.width config - Padding.left padding - Padding.right padding
    - Config.nodeWidth config in
  let maxDepth := maxDepthOf ns in
  let step := if decide (0 < maxDepth)%nat
              then innerWidth / Qc_of_nat maxDepth else 0 in
  (λ n,
     Node.set_width (Config.nodeWidth config)
       (Node.set_x (Padding.left padding + Qc_of_nat (Node.depth n) * step) n))
  <$> ns.

(** *** getColumns *)

Definition getColumns (ns : list SankeyNode) : list (list nat) :=
  fold_left
    (λ columns i, alter (λ c, c ++ [i]) (Node.depth (ns !!! i)) columns)
    (seq 0 (length ns))
    (replicate (S (maxDepthOf ns)) []).

(** *** initializeNodeY *)

Definition innerHeight : Qc :=
  Config.height config - Padding.top (Config.padding config)
  - Padding.bottom (Config.padding config).

Definition columnTotalValue (ns : list SankeyNode) (column : list nat) : Qc :=
  fold_left (λ s i, s + Node.value (ns !!! i)) column 0.

Definition columnScale (ns : list SankeyNode) (column : list nat) : Qc :=
  let totalPadding :=
    Qc_max 0 (Qc_of_Z (Z.of_nat (length column) - 1) * Config.nodePadding config) in
  let availableHeight := innerHeight - totalPadding in
  availableHeight / columnTotalValue ns column.

(** One turn of the loop that lowers [globalScale]; [None] is [Infinity]. *)
Definition scaleStep (ns : list SankeyNode) (globalScale : option Qc)
    (column : list nat) : option Qc :=
  if decide (0 < columnTotalValue ns column) then
    let scale := columnScale ns column in
    match globalScale with
    | None => Some scale
    | Some g => if decide (scale < g) then Some scale else Some g
    end
  else globalScale.

Definition globalScaleOf (ns : list SankeyNode) (columns : list (list nat)) : Qc :=
  default 0 (fold_left (scaleStep ns) columns None).

Definition placeNode (globalScale : Qc) (acc : list SankeyNode * Qc) (i : nat)
    : list SankeyNode * Qc :=
  let '(ns, y) := acc in
  let h := Qc_max 1 (Node.value (ns !!! i) * globalScale) in
  (alter (λ n, Node.set_height h (Node.set_y y n)) i ns,
   y + h + Config.nodePadding config).

Definition placeColumn (globalScale : Qc) (ns : list SankeyNode)
    (column : list nat) : list SankeyNode :=
  let sorted :=
    sort_by (λ a b, Node.value (ns !!! b) - Node.value (ns !!! a)) column in
  (fold_left (placeNode globalScale) sorted
     (ns, Padding.top (Config.padding config))).1.

Definition initializeNodeY (ns : list SankeyNode) : list SankeyNode :=
  let columns := getColumns ns in
  let globalScale := globalScaleOf ns columns in
  fold_left (placeColumn globalScale) columns ns.

(** *** weightedCenter, nodeCenter *)

Definition nodeCenter (n : SankeyNode) : Qc :=
  Node.y n + Node.height n / 2.

Inductive Direction := DirSource | DirTarget.

Definition weightedCenter (ls : list SankeyLink) (ns : list SankeyNode)
    (node : SankeyNode) (direction : Direction) : Qc :=
  let lks := match direction with
             | DirTarget => Node.targetLinks node
             | DirSource => Node.sourceLinks node
             end in
  let '(sumWeightedY, sumWeight) :=
    fold_left
      (λ '(swy, sw) l,
         let link := ls !!! l in
         let other := match direction with
                      | DirTarget => Link.source link
                      | DirSource => Link.target link
                      end in
         let center := nodeCenter (ns !!! other) in
         (swy + center * Link.value link, sw + Link.value link))
      lks (0, 0) in
  if decide (0 < sumWeight) then sumWeightedY / sumWeight else nodeCenter node.

(** *** resolveCollisions *)

Definition pushDown (acc : list SankeyNode * Qc) (i : nat)
    : list SankeyNode * Qc :=
  let '(ns, y) := acc in
  let node := ns !!! i in
  let dy := y - Node.y node in
  let ns' := if decide (0 < dy)
             then alter (λ n, Node.set_y (Node.y n + dy) n) i ns else ns in
  let node' := ns' !!! i in
  (ns', Node.y node' + Node.height node' + Config.nodePadding config).

Definition pushUp (column : list nat) (ns : list SankeyNode) (i : nat)
    : list SankeyNode :=
  let a := ns !!! (column !!! i) in
  let b := ns !!! (column !!! S i) in
  let overflow :=
    Node.y a + Node.height a + Config.nodePadding config - Node.y b in
  if decide (0 < overflow)
  then alter (λ n, Node.set_y (Node.y n - overflow) n) (column !!! i) ns
  else ns.

(** Returns the column as the in-place sort left it, and the nodes. *)
Definition resolveCollisions (column : list nat) (ns : list SankeyNode)
    : option (list nat * list SankeyNode) :=
  let innerBottom :=
    Config.height config - Padding.bottom (Config.padding config) in
  let column := sort_by (λ a b, Node.y (ns !!! a) - Node.y (ns !!! b)) column in
  let ns := (fold_left pushDown column
               (ns, Padding.top (Config.padding config))).1 in
  match column !! (length column - 1)%nat with
  | None => None
  | Some lasti =>
      let lastn := ns !!! lasti in
      let overflow := Node.y lastn + Node.height lastn - innerBottom in
      if decide (0 < overflow) then
        let ns := alter (λ n, Node.set_y (Node.y n - overflow) n) lasti ns in
        Some (column,
              fold_left (pushUp column) (rev (seq 0 (length column - 1))) ns)
      else Some (column, ns)
  end.

(** *** relaxNodePositions *)

Definition damping (i : nat) : Qc :=
  1 * (1 - Qc_of_nat i / Qc_of_nat (Config.iterations config)).

Definition moveNode (ls : list SankeyLink) (direction : Direction) (damp : Qc)
    (ns : list SankeyNode) (i : nat) : list SankeyNode :=
  let node := ns !!! i in
  let lks := match direction with
             | DirTarget => Node.targetLinks node
             | DirSource => Node.sourceLinks node
             end in
  match lks with
  | [] => ns
  | _ =>
      let wc := weightedCenter ls ns node direction in
      let delta := wc - nodeCenter node in
      alter (λ n, Node.set_y (Node.y n + delta * damp) n) i ns
  end.

(** The body of one [for (let c ...)] turn: move the nodes of column [c],
    then resolve its collisions. *)
Definition relaxColumn (ls : list SankeyLink) (direction : Direction)
    (damp : Qc) (acc : option (list (list nat) * list SankeyNode)) (c : nat)
    : option (list (list nat) * list SankeyNode) :=
  '(columns, ns) ← acc;
  let ns := fold_left (moveNode ls direction damp) (columns !!! c) ns in
  '(column, ns) ← resolveCollisions (columns !!! c) ns;
  Some (<[c := column]> columns, ns).

Definition relaxIteration (ls : list SankeyLink)
    (acc : option (list (list nat) * list SankeyNode)) (i : nat)
    : option (list (list nat) * list SankeyNode) :=
  '(columns, ns) ← acc;
  let damp := damping i in
  let forward :=
    fold_left (relaxColumn ls DirTarget damp)
      (seq 1 (length columns - 1)) (Some (columns, ns)) in
  '(columns, ns) ← forward;
  fold_left (relaxColumn ls DirSource damp)
    (rev (seq 0 (length columns - 1))) (Some (columns, ns)).

Definition relaxNodePositions (ls : list SankeyLink) (ns : list SankeyNode)
    : option (list SankeyNode) :=
  let columns := getColumns ns in
  snd <$> fold_left (relaxIteration ls)
            (seq 0 (Config.iterations config)) (Some (columns, ns)).

(** *** computeLinkOffsets *)

Definition sortNodeLinks (ls : list SankeyLink) (ns : list SankeyNode)
    (i : nat) : list SankeyNode :=
  let byTargetY a b :=
    Node.y (ns !!! Link.target (ls !!! a))
    - Node.y (ns !!! Link.target (ls !!! b)) in
  let bySourceY a b :=
    Node.y (ns !!! Link.source (ls !!! a))
    - Node.y (ns !!! Link.source (ls !!! b)) in
  alter
    (λ n,
       Node.set_targetLinks (sort_by bySourceY (Node.targetLinks n))
         (Node.set_sourceLinks (sort_by byTargetY (Node.sourceLinks n)) n))
    i ns.

Definition sourceSide (outTotal h : Qc) (acc : list SankeyLink * Qc) (l : nat)
    : list SankeyLink * Qc :=
  let '(ls, sy) := acc in
  let w := if decide (0 < outTotal)
           then Link.value (ls !!! l) / outTotal * h else 0 in
  let ls := alter (λ k, Link.set_sy sy (Link.set_width w k)) l ls in
  (ls, sy + Link.width (ls !!! l)).

Definition sourceSideNode (ls : list SankeyLink) (node : SankeyNode)
    : list SankeyLink :=
  let outTotal := sumLinkValues ls (Node.sourceLinks node) in
  (fold_left (sourceSide outTotal (Node.height node))
     (Node.sourceLinks node) (ls, 0)).1.

Definition targetSide (acc : list SankeyLink * Qc) (l : nat)
    : list SankeyLink * Qc :=
  let '(ls, ty) := acc in
  let ls := alter (Link.set_ty ty) l ls in
  (ls, ty + Link.width (ls !!! l)).

Definition targetSideNode (ls : list SankeyLink) (node : SankeyNode)
    : list SankeyLink :=
  (fold_left targetSide (Node.targetLinks node) (ls, 0)).1.

Definition computeLinkOffsets (g : SankeyGraph) : SankeyGraph :=
  let columns := getColumns (nodes g) in
  let ns :=
    fold_left (λ ns column, fold_left (sortNodeLinks (links g)) column ns)
      columns (nodes g) in
  let ls := fold_left sourceSideNode ns (links g) in
  let ls := fold_left targetSideNode ns ls in
  mkGraph ns ls.

(** *** compute *)

Definition compute (g : SankeyGraph) : option SankeyGraph :=
  match nodes g with
  | [] => Some g
  | _ =>
      let ns := computeDepths (links g) (nodes g) in
      let ns := computeNodeValues (links g) ns in
      let ns := positionNodesX ns in
      let ns := initializeNodeY ns in
      ns ← relaxNodePositions (links g) ns;
      Some (computeLinkOffsets (mkGraph ns (links g)))
  end.
End Layout.

(** ** JourneyAnalyzer *)

Record JourneyMetrics := mkMetrics {
  nodeId : string;
  jlabel : string;
  inflow : Qc;
  outflow : Qc;
  dropOff : Qc;
  dropOffRate : Qc;
  conversionRate : Qc;
  isSource : bool;
  isSink : bool
}.

Definition analyzeNode (ls : list SankeyLink) (node : SankeyNode) : JourneyMetrics :=
  let inflow := sumLinkValues ls (Node.targetLinks node) in
  let outflow := sumLinkValues ls (Node.sourceLinks node) in
  let isSource := bool_decide (Node.targetLinks node = []) in
  let isSink := bool_decide (Node.sourceLinks node = []) in
  let dropOff := if isSource || isSink then 0 else inflow - outflow in
  let dropOffRate :=
    if bool_decide (0 < inflow) && negb isSource then dropOff / inflow else 0 in
  let conversionRate :=
    if bool_decide (0 < inflow) && negb isSource then outflow / inflow
    else if isSource then 1 else 0 in
  mkMetrics (Node.id node) (Node.label node) inflow outflow dropOff
    dropOffRate conversionRate isSource isSink.

Definition analyze (g : SankeyGraph) : list JourneyMetrics :=
  analyzeNode (links g) <$> nodes g.

(** * Verification *)

(** ** Rational arithmetic: from [Qc] to [Q], where [lra] works *)

Lemma this_plus (a b : Qc) : (this (a + b) == this a + this b)%Q.
Proof. unfold Qcplus; simpl; apply Qred_correct. Qed.

Lemma this_opp (a : Qc) : (this (- a) == - this a)%Q.
Proof. unfold Qcopp; simpl; apply Qred_correct. Qed.

Lemma this_minus (a b : Qc) : (this (a - b) == this a - this b)%Q.
Proof. unfold Qcminus. rewrite this_plus, this_opp. reflexivity. Qed.

Lemma this_mult (a b : Qc) : (this (a * b) == this a * this b)%Q.
Proof. unfold Qcmult; simpl; apply Qred_correct. Qed.

Lemma Qc_eq_this (a b : Qc) : a = b ↔ (this a == this b)%Q.
Proof. split; [intros ->; reflexivity | apply Qc_is_canon]. Qed.

Ltac qc_prep :=
  repeat match goal with
  | H : @eq Qc _ _ |- _ => apply Qc_eq_this in H
  | H : ¬ @eq Qc _ _ |- _ => rewrite Qc_eq_this in H
  | |- @eq Qc _ _ => apply Qc_eq_this
  | |- ¬ @eq Qc _ _ => rewrite Qc_eq_this
  end;
  unfold Qclt, Qcle in *;
  simpl this in *;
  rewrite ?this_plus, ?this_minus, ?this_mult, ?this_opp, ?Qred_correct in *.

Ltac qc_lra := qc_prep; lra.

Lemma Qc_max_case (a b : Qc) :
  (a < b ∧ Qc_max a b = b) ∨ (b ≤ a ∧ Qc_max a b = a).
Proof.
  unfold Qc_max. destruct (decide (a < b)) as [H|H]; [left | right]; split; auto.
  apply Qcle_ngt, H.
Qed.


Lemma Qc_max_comm (a b : Qc) : Qc_max a b = Qc_max b a.
Proof.
  destruct (Qc_max_case a b) as [[H ->]|[H ->]];
    destruct (Qc_max_case b a) as [[H' ->]|[H' ->]]; qc_lra.
Qed.

(** ** Arrays: projections through [alter] and through loops *)

Lemma fmap_alter_pres {A B} (p : A → B) (g : A → A) (i : nat) (l : list A) :
  (∀ a, p (g a) = p a) → p <$> alter g i l = p <$> l.
Proof.
  intros Hp. apply list_eq; intros j. rewrite !list_lookup_fmap.
  destruct (decide (i = j)) as [->|Hij].
  - rewrite list_lookup_alter_eq. destruct (l !! j); simpl; [by rewrite Hp | done].
  - by rewrite list_lookup_alter_ne.
Qed.

Lemma fold_left_inv {A B} (P : A → Prop) (f : A → B → A) (l : list B) (a : A) :
  P a → (∀ a b, b ∈ l → P a → P (f a b)) → P (fold_left f l a).
Proof.
  revert a. induction l as [|b l IH]; intros a Ha Hf; simpl; auto.
  apply IH.
  - apply Hf; [left | done].
  - intros a' b' Hb'. apply Hf. by right.
Qed.

Lemma lookup_total_alter_eq {A} `{Inhabited A} (g : A → A) (i : nat) (l : list A) :
  (i < length l)%nat → alter g i l !!! i = g (l !!! i).
Proof.
  intros Hi. destruct (lookup_lt_is_Some_2 l i Hi) as [a Ha].
  rewrite !list_lookup_total_alt, list_lookup_alter_eq, Ha. done.
Qed.

Lemma lookup_total_alter_ne {A} `{Inhabited A} (g : A → A) (i j : nat) (l : list A) :
  i ≠ j → alter g i l !!! j = l !!! j.
Proof.
  intros Hij. by rewrite !list_lookup_total_alt, list_lookup_alter_ne.
Qed.

Lemma lookup_total_alter_pres {A B} `{Inhabited A} (p : A → B) (g : A → A)
    (i j : nat) (l : list A) :
  (∀ a, p (g a) = p a) → p (alter g i l !!! j) = p (l !!! j).
Proof.
  intros Hp. destruct (decide (i = j)) as [->|Hij].
  - destruct (decide (j < length l)%nat) as [Hj|Hj].
    + by rewrite lookup_total_alter_eq.
    + rewrite !list_lookup_total_alt, list_lookup_alter_eq.
      rewrite (lookup_ge_None_2 l j); [done | lia].
  - by rewrite lookup_total_alter_ne.
Qed.

Lemma lookup_total_fmap_pres {A B} `{Inhabited A} (p : A → B) (l l' : list A) (i : nat) :
  p <$> l = p <$> l' → p (l !!! i) = p (l' !!! i).
Proof.
  intros Heq. rewrite !list_lookup_total_alt.
  assert (Hi : (p <$> l) !! i = (p <$> l') !! i) by by rewrite Heq.
  rewrite !list_lookup_fmap in Hi.
  destruct (l !! i), (l' !! i); simpl in *; congruence.
Qed.

(** ** The stable sort *)

Lemma insert_by_perm {A} (cmp : A → A → Qc) (a : A) (l : list A) :
  insert_by cmp a l ≡ₚ a :: l.
Proof.
  induction l as [|b l IH]; simpl; [done|].
  destruct (decide (0 < cmp a b)); [|done].
  rewrite IH. apply Permutation_swap.
Qed.

Lemma sort_by_perm {A} (cmp : A → A → Qc) (l : list A) : sort_by cmp l ≡ₚ l.
Proof.
  induction l as [|a l IH]; simpl; [done|].
  unfold sort_by in *. simpl. by rewrite insert_by_perm, IH.
Qed.

Lemma sort_by_length {A} (cmp : A → A → Qc) (l : list A) :
  length (sort_by cmp l) = length l.
Proof. apply Permutation_length, sort_by_perm. Qed.

Lemma sort_by_elem_of {A} (cmp : A → A → Qc) (l : list A) (a : A) :
  a ∈ sort_by cmp l ↔ a ∈ l.
Proof. by rewrite sort_by_perm. Qed.

Lemma sort_by_NoDup {A} (cmp : A → A → Qc) (l : list A) :
  NoDup l → NoDup (sort_by cmp l).
Proof. by rewrite sort_by_perm. Qed.

Lemma sort_by_ext {A} (cmp cmp' : A → A → Qc) (l : list A) :
  (∀ a b, a ∈ l → b ∈ l → cmp a b = cmp' a b) → sort_by cmp l = sort_by cmp' l.
Proof.
  induction l as [|a l IH]; intros Hext; [done|].
  unfold sort_by in *. simpl. rewrite IH.
  2:{ intros; apply Hext; by right. }
  assert (Hsub : ∀ b, b ∈ foldr (insert_by cmp') [] l → b ∈ l).
  { intros b. apply (sort_by_elem_of cmp' l b). }
  revert Hsub. generalize (foldr (insert_by cmp') [] l) as s.
  induction s as [|b s IHs]; intros Hsub; simpl; [done|].
  rewrite (Hext a b); [| left | right; apply Hsub; left].
  destruct (decide (0 < cmp' a b)); [|done].
  f_equal. apply IHs. intros c Hc. apply Hsub. by right.
Qed.

(** ** Frame properties: what each stage leaves alone

    Each stage is characterised by an erasure of the fields it may write:
    the erased arrays before and after the stage are equal. *)

Definition erase_depth (n : SankeyNode) : SankeyNode := Node.set_depth 0 n.
Definition erase_value (n : SankeyNode) : SankeyNode := Node.set_value 0 n.
Definition erase_xw (n : SankeyNode) : SankeyNode :=
  Node.set_width 0 (Node.set_x 0 n).
Definition erase_y (n : SankeyNode) : SankeyNode := Node.set_y 0 n.
Definition erase_yh (n : SankeyNode) : SankeyNode :=
  Node.set_height 0 (Node.set_y 0 n).
Definition erase_links (n : SankeyNode) : SankeyNode :=
  Node.set_targetLinks [] (Node.set_sourceLinks [] n).
Definition erase_offsets (l : SankeyLink) : SankeyLink :=
  Link.set_ty 0 (Link.set_sy 0 (Link.set_width 0 l)).

Ltac erased := intros; repeat case_decide; reflexivity.

Section Frame.
Variable config : SankeyConfig.

Lemma visitNode_frame ls d acc i :
  erase_depth <$> (visitNode ls d acc i).1.2 = erase_depth <$> acc.1.2.
Proof.
  destruct acc as [[visited ns] next]. unfold visitNode.
  case_decide; simpl; [done|]. apply fmap_alter_pres. erased.
Qed.

Lemma bfsLoop_frame fuel ls current d visited ns visited' ns' :
  bfsLoop fuel ls current d visited ns = Some (visited', ns') →
  erase_depth <$> ns' = erase_depth <$> ns.
Proof.
  revert current d visited ns.
  induction fuel as [|fuel IH]; intros current d visited ns; simpl; [done|].
  destruct current as [|c current]; [by intros [= <- <-]|].
  destruct (fold_left _ (c :: current) _) as [[v1 ns1] next] eqn:Hfold.
  intros Hloop. rewrite (IH _ _ _ _ Hloop).
  change ns1 with (v1, ns1, next).1.2. rewrite <- Hfold.
  apply (fold_left_inv (λ acc, erase_depth <$> acc.1.2 = erase_depth <$> ns));
    [done|].
  intros acc i _ <-. apply visitNode_frame.
Qed.

Lemma markUnvisited_frame visited ns :
  erase_depth <$> markUnvisited visited ns = erase_depth <$> ns.
Proof.
  unfold markUnvisited. rewrite <- list_fmap_compose.
  apply list_fmap_ext. intros _ n _. simpl. erased.
Qed.

Lemma justify_frame ns : erase_depth <$> justify config ns = erase_depth <$> ns.
Proof.
  unfold justify. case_decide; [|done]. rewrite <- list_fmap_compose.
  apply list_fmap_ext. intros _ n _. simpl. erased.
Qed.

Lemma computeDepths_frame ls ns :
  erase_depth <$> computeDepths config ls ns = erase_depth <$> ns.
Proof.
  unfold computeDepths. destruct (sourcesOf ns) as [|s srcs].
  - rewrite <- list_fmap_compose. apply list_fmap_ext. erased.
  - destruct (bfsLoop _ _ _ _ _ _) as [[visited ns']|] eqn:Hbfs; [|done].
    rewrite justify_frame, markUnvisited_frame.
    eapply bfsLoop_frame, Hbfs.
Qed.

Lemma computeNodeValues_frame ls ns :
  erase_value <$> computeNodeValues ls ns = erase_value <$> ns.
Proof.
  unfold computeNodeValues. rewrite <- list_fmap_compose.
  apply list_fmap_ext. erased.
Qed.

Lemma positionNodesX_frame ns :
  erase_xw <$> positionNodesX config ns = erase_xw <$> ns.
Proof.
  unfold positionNodesX. rewrite <- list_fmap_compose.
  apply list_fmap_ext. erased.
Qed.

Lemma placeColumn_frame gs ns column :
  erase_yh <$> placeColumn config gs ns column = erase_yh <$> ns.
Proof.
  unfold placeColumn.
  apply (fold_left_inv (λ acc, erase_yh <$> acc.1 = erase_yh <$> ns)); [done|].
  intros [ns1 y1] i _ <-. simpl. apply fmap_alter_pres. erased.
Qed.

Lemma initializeNodeY_frame ns :
  erase_yh <$> initializeNodeY config ns = erase_yh <$> ns.
Proof.
  unfold initializeNodeY.
  apply (fold_left_inv (λ acc, erase_yh <$> acc = erase_yh <$> ns)); [done|].
  intros ns1 column _ <-. apply placeColumn_frame.
Qed.

Lemma moveNode_frame ls dir damp ns i :
  erase_y <$> moveNode ls dir damp ns i = erase_y <$> ns.
Proof.
  unfold moveNode. destruct dir; simpl.
  - destruct (Node.sourceLinks _); [done|]. apply fmap_alter_pres. erased.
  - destruct (Node.targetLinks _); [done|]. apply fmap_alter_pres. erased.
Qed.

Lemma pushDown_frame acc i :
  erase_y <$> (pushDown config acc i).1 = erase_y <$> acc.1.
Proof.
  destruct acc as [ns y]. unfold pushDown. simpl.
  case_decide; [|done]. apply fmap_alter_pres. erased.
Qed.

Lemma pushUp_frame column ns i :
  erase_y <$> pushUp config column ns i = erase_y <$> ns.
Proof.
  unfold pushUp. case_decide; [|done]. apply fmap_alter_pres. erased.
Qed.

Lemma resolveCollisions_frame column ns column' ns' :
  resolveCollisions config column ns = Some (column', ns') →
  erase_y <$> ns' = erase_y <$> ns.
Proof.
  unfold resolveCollisions.
  set (sorted := sort_by _ column).
  assert (Hdown : erase_y <$> (fold_left (pushDown config) sorted
      (ns, Padding.top (Config.padding config))).1 = erase_y <$> ns).
  { apply (fold_left_inv (λ acc, erase_y <$> acc.1 = erase_y <$> ns)); [done|].
    intros acc i _ <-. apply pushDown_frame. }
  destruct (sorted !! _) as [lasti|]; [|done].
  case_decide; intros [= <- <-]; [|done].
  rewrite <- Hdown.
  apply (fold_left_inv (λ acc, erase_y <$> acc = _)).
  - apply fmap_alter_pres. erased.
  - intros ns1 i _ <-. apply pushUp_frame.
Qed.

Lemma relaxColumn_frame ls dir damp acc c columns ns columns' ns' :
  acc = Some (columns, ns) →
  relaxColumn config ls dir damp acc c = Some (columns', ns') →
  erase_y <$> ns' = erase_y <$> ns.
Proof.
  intros ->. unfold relaxColumn. simpl.
  destruct (resolveCollisions _ _ _) as [[col ns1]|] eqn:Hres; [|done].
  simpl. intros [= <- <-].
  rewrite (resolveCollisions_frame _ _ _ _ Hres).
  apply (fold_left_inv (λ acc, erase_y <$> acc = erase_y <$> ns)); [done|].
  intros ns2 i _ <-. apply moveNode_frame.
Qed.

(** A loop in the exception monad that keeps a property of the nodes. *)
Lemma fold_option_inv {A B} (P : A → Prop) (f : option A → B → option A)
    (l : list B) (a a' : A) :
  (∀ b, f None b = None) →
  (∀ a b a', P a → f (Some a) b = Some a' → P a') →
  P a → fold_left f l (Some a) = Some a' → P a'.
Proof.
  intros Hnone Hstep. revert a.
  induction l as [|b l IH]; intros a Ha; simpl; [by intros [= <-]|].
  destruct (f (Some a) b) as [a1|] eqn:Hf.
  - apply IH. eapply Hstep; eauto.
  - assert (Hn : ∀ l, fold_left f l None = None).
    { clear -Hnone. induction l; simpl; [done|]. by rewrite Hnone. }
    by rewrite Hn.
Qed.

Lemma relaxPass_frame ls dir damp cs columns ns columns' ns' :
  fold_left (relaxColumn config ls dir damp) cs (Some (columns, ns))
    = Some (columns', ns') →
  erase_y <$> ns' = erase_y <$> ns.
Proof.
  apply (fold_option_inv (λ acc, erase_y <$> acc.2 = erase_y <$> ns)
           _ cs (columns, ns) (columns', ns')); [done | | done].
  intros [cols1 ns1] c [cols2 ns2] <- Hstep. simpl.
  eapply relaxColumn_frame; [done | apply Hstep].
Qed.

Lemma relaxIteration_frame ls i columns ns columns' ns' :
  relaxIteration config ls (Some (columns, ns)) i = Some (columns', ns') →
  erase_y <$> ns' = erase_y <$> ns.
Proof.
  unfold relaxIteration. simpl.
  destruct (fold_left _ (seq 1 _) _) as [[cols1 ns1]|] eqn:Hfwd; [|done].
  simpl. intros Hbwd.
  rewrite (relaxPass_frame _ _ _ _ _ _ _ _ Hbwd).
  apply (relaxPass_frame _ _ _ _ _ _ _ _ Hfwd).
Qed.

Lemma relaxNodePositions_frame ls ns ns' :
  relaxNodePositions config ls ns = Some ns' →
  erase_y <$> ns' = erase_y <$> ns.
Proof.
  unfold relaxNodePositions.
  destruct (fold_left _ _ _) as [[cols1 ns1]|] eqn:Hfold; [|done].
  simpl. intros [= <-].
  apply (fold_option_inv (λ acc, erase_y <$> acc.2 = erase_y <$> ns)
           _ _ _ (cols1, ns1)) in Hfold; [done | done | | done].
  intros [cols2 ns2] i [cols3 ns3] <- Hstep. simpl.
  apply (relaxIteration_frame _ _ _ _ _ _ Hstep).
Qed.
End Frame.

(** ** Columns *)

Lemma fold_left_ext_inv {A B} (P : A → Prop) (f g : A → B → A) (l : list B) (a : A) :
  P a → (∀ a b, b ∈ l → P a → f a b = g a b ∧ P (g a b)) →
  fold_left f l a = fold_left g l a ∧ P (fold_left g l a).
Proof.
  revert a. induction l as [|b l IH]; intros a Ha Hfg; simpl; [done|].
  destruct (Hfg a b) as [-> HP]; [left | done |].
  apply IH; [done|]. intros a' b' Hb'. apply Hfg. by right.
Qed.

Lemma fold_left_concat {A B} (f : A → B → A) (ls : list (list B)) (a : A) :
  fold_left (λ a l, fold_left f l a) ls a = fold_left f (mjoin ls) a.
Proof.
  revert a. induction ls as [|l ls IH]; intros a; simpl; [done|].
  by rewrite IH, fold_left_app.
Qed.

Lemma depth_le_maxDepthOf (ns : list SankeyNode) (i : nat) :
  (i < length ns)%nat → (Node.depth (ns !!! i) ≤ maxDepthOf ns)%nat.
Proof.
  intros Hi. unfold maxDepthOf. apply max_list_elem_of_le.
  apply list_elem_of_fmap. exists (ns !!! i). split; [done|].
  apply list_elem_of_lookup_total_2, Hi.
Qed.

Definition columnOf (ns : list SankeyNode) (d : nat) : list nat :=
  filter (λ i, Node.depth (ns !!! i) = d) (seq 0 (length ns)).

Lemma getColumns_prefix (ns : list SankeyNode) (k : nat) :
  (k ≤ length ns)%nat →
  fold_left
    (λ columns i, alter (λ c, c ++ [i]) (Node.depth (ns !!! i)) columns)
    (seq 0 k) (replicate (S (maxDepthOf ns)) [])
  = (λ d, filter (λ i, Node.depth (ns !!! i) = d) (seq 0 k))
      <$> seq 0 (S (maxDepthOf ns)).
Proof.
  induction k as [|k IH]; intros Hk.
  - change (seq 0 0) with (@nil nat). cbn [fold_left]. apply list_eq; intros d.
    rewrite list_lookup_fmap.
    destruct (decide (d < S (maxDepthOf ns))%nat) as [Hd|Hd].
    + rewrite lookup_replicate_2 by done. by rewrite lookup_seq_lt.
    + rewrite (proj1 (lookup_replicate_None _ _ _)) by lia.
      by rewrite (lookup_seq_ge 0 (S (maxDepthOf ns)) d) by lia.
  - rewrite seq_S, fold_left_app, IH by lia. cbn [fold_left Nat.add].
    apply list_eq; intros d. rewrite list_lookup_fmap.
    destruct (decide (Node.depth (ns !!! k) = d)) as [<-|Hne].
    + rewrite list_lookup_alter_eq, list_lookup_fmap.
      destruct (seq 0 (S (maxDepthOf ns)) !! _) as [d'|] eqn:Hd; simpl; [|done].
      apply lookup_seq in Hd as [-> _]. simpl.
      rewrite filter_app, filter_cons_True, filter_nil; done.
    + rewrite list_lookup_alter_ne, list_lookup_fmap by done.
      destruct (seq 0 (S (maxDepthOf ns)) !! d) as [d'|] eqn:Hd; simpl; [|done].
      apply lookup_seq in Hd as [-> _]. simpl.
      rewrite filter_app, filter_cons_False, filter_nil, app_nil_r; done.
Qed.

Lemma getColumns_spec (ns : list SankeyNode) :
  getColumns ns = columnOf ns <$> seq 0 (S (maxDepthOf ns)).
Proof. unfold getColumns. by rewrite getColumns_prefix. Qed.


Lemma getColumns_lookup (ns : list SankeyNode) (d : nat) (column : list nat) :
  getColumns ns !! d = Some column ↔
  (d ≤ maxDepthOf ns)%nat ∧ column = columnOf ns d.
Proof.
  rewrite getColumns_spec, list_lookup_fmap. split.
  - destruct (seq _ _ !! d) as [d'|] eqn:Hd; simpl; [|done].
    apply lookup_seq in Hd as [-> ?]. intros [= <-]. split; [lia | done].
  - intros [Hd ->]. rewrite lookup_seq_lt by lia. done.
Qed.

Lemma elem_of_columnOf (ns : list SankeyNode) (d i : nat) :
  i ∈ columnOf ns d ↔ (i < length ns)%nat ∧ Node.depth (ns !!! i) = d.
Proof.
  unfold columnOf. rewrite list_elem_of_filter, elem_of_seq. intuition lia.
Qed.

Lemma NoDup_columnOf (ns : list SankeyNode) (d : nat) : NoDup (columnOf ns d).
Proof. apply NoDup_filter, NoDup_seq. Qed.

Lemma columnOf_ext (ns ns' : list SankeyNode) (d : nat) :
  Node.depth <$> ns = Node.depth <$> ns' → columnOf ns d = columnOf ns' d.
Proof.
  intros Heq. unfold columnOf.
  assert (Hlen : length ns = length ns').
  { by rewrite <- (length_fmap Node.depth ns), Heq, length_fmap. }
  rewrite Hlen. apply list_filter_iff. intros i.
  by rewrite (lookup_total_fmap_pres Node.depth ns ns' i Heq).
Qed.

Lemma getColumns_ext (ns ns' : list SankeyNode) :
  Node.depth <$> ns = Node.depth <$> ns' → getColumns ns = getColumns ns'.
Proof.
  intros Heq. rewrite !getColumns_spec. unfold maxDepthOf. rewrite Heq.
  apply list_fmap_ext. intros _ d _. by apply columnOf_ext.
Qed.

Lemma elem_of_concat_getColumns (ns : list SankeyNode) (i : nat) :
  i ∈ mjoin (getColumns ns) ↔ (i < length ns)%nat.
Proof.
  rewrite list_elem_of_join. split.
  - intros (column & Hi & Hc). apply list_elem_of_lookup_1 in Hc as [d Hd].
    apply getColumns_lookup in Hd as [_ ->]. by apply elem_of_columnOf in Hi as [? _].
  - intros Hi. exists (columnOf ns (Node.depth (ns !!! i))). split.
    + by apply elem_of_columnOf.
    + apply list_elem_of_lookup. exists (Node.depth (ns !!! i)).
      apply getColumns_lookup. split; [by apply depth_le_maxDepthOf | done].
Qed.

Lemma NoDup_concat_getColumns (ns : list SankeyNode) :
  NoDup (mjoin (getColumns ns)).
Proof.
  rewrite getColumns_spec. generalize (S (maxDepthOf ns)) as m.
  intros m. induction m as [|m IH]; [constructor|].
  rewrite seq_S, fmap_app, join_app. simpl. rewrite app_nil_r.
  apply NoDup_app. split; [done|]. split; [|apply NoDup_columnOf].
  intros i Hi Hi'. apply elem_of_columnOf in Hi' as [_ Hd].
  apply list_elem_of_join in Hi as (column & Hi & Hc).
  apply list_elem_of_fmap in Hc as (d & -> & Hd').
  apply elem_of_seq in Hd'. apply elem_of_columnOf in Hi as [_ Hd'']. lia.
Qed.

(** ** computeLinkOffsets: the sorting pass and the two offset passes *)

Lemma fold_alter_lookup {A} (g : A → A) (idx : list nat) (l : list A) (j : nat) :
  NoDup idx →
  fold_left (λ l i, alter g i l) idx l !! j
  = if decide (j ∈ idx) then g <$> l !! j else l !! j.
Proof.
  intros Hnd. revert l. induction Hnd as [|i idx Hi Hnd IH]; intros l; simpl.
  - done.
  - rewrite IH. destruct (decide (j = i)) as [->|Hji].
    + rewrite decide_False by done. rewrite decide_True by left.
      apply list_lookup_alter_eq.
    + rewrite list_lookup_alter_ne by done.
      destruct (decide (j ∈ idx)) as [Hj|Hj].
      * rewrite decide_True by by right. done.
      * rewrite decide_False; [done|]. by intros [?|?]%elem_of_cons.
Qed.

Lemma fold_alter_all {A} (g : A → A) (idx : list nat) (l : list A) :
  NoDup idx → (∀ i, i ∈ idx ↔ (i < length l)%nat) →
  fold_left (λ l i, alter g i l) idx l = g <$> l.
Proof.
  intros Hnd Hall. apply list_eq; intros j.
  rewrite fold_alter_lookup, list_lookup_fmap by done.
  case_decide as Hj; [done|].
  rewrite lookup_ge_None_2; [done|]. rewrite Hall in Hj. lia.
Qed.

(** What the sorting pass does to one node; the keys are read in [ns]. *)
Definition sortLinksOf (ls : list SankeyLink) (ns : list SankeyNode)
    (n : SankeyNode) : SankeyNode :=
  Node.set_targetLinks
    (sort_by (λ a b, Node.y (ns !!! Link.source (ls !!! a))
                     - Node.y (ns !!! Link.source (ls !!! b)))
       (Node.targetLinks n))
    (Node.set_sourceLinks
       (sort_by (λ a b, Node.y (ns !!! Link.target (ls !!! a))
                        - Node.y (ns !!! Link.target (ls !!! b)))
          (Node.sourceLinks n))
       n).

Lemma sortLinksOf_ext ls ns ns' n :
  Node.y <$> ns = Node.y <$> ns' → sortLinksOf ls ns n = sortLinksOf ls ns' n.
Proof.
  intros Heq. unfold sortLinksOf. f_equal; [|f_equal]; apply sort_by_ext;
    intros a b _ _;
    by rewrite !(lookup_total_fmap_pres Node.y ns ns' _ Heq).
Qed.

Lemma sortLinksOf_y ls ns n : Node.y (sortLinksOf ls ns n) = Node.y n.
Proof. done. Qed.

Lemma sortPass_spec ls ns :
  fold_left (λ ns column, fold_left (sortNodeLinks ls) column ns)
    (getColumns ns) ns
  = sortLinksOf ls ns <$> ns.
Proof.
  rewrite (fold_left_concat (sortNodeLinks ls)).
  destruct (fold_left_ext_inv (λ ns', Node.y <$> ns' = Node.y <$> ns)
              (sortNodeLinks ls) (λ l i, alter (sortLinksOf ls ns) i l)
              (mjoin (getColumns ns)) ns) as [-> _]; [done | |].
  - intros ns' i _ Hy. split.
    + unfold sortNodeLinks. apply list_alter_ext; [|done].
      intros n _. symmetry. by apply sortLinksOf_ext.
    + rewrite <- Hy. apply fmap_alter_pres. done.
  - apply fold_alter_all; [apply NoDup_concat_getColumns|].
    apply elem_of_concat_getColumns.
Qed.

Lemma sourceSide_frame outTotal h acc l :
  erase_offsets <$> (sourceSide outTotal h acc l).1 = erase_offsets <$> acc.1.
Proof. destruct acc as [ls sy]. simpl. apply fmap_alter_pres. done. Qed.

Lemma sourceSideNode_frame ls node :
  erase_offsets <$> sourceSideNode ls node = erase_offsets <$> ls.
Proof.
  unfold sourceSideNode.
  apply (fold_left_inv (λ acc, erase_offsets <$> acc.1 = erase_offsets <$> ls));
    [done|].
  intros acc l _ <-. apply sourceSide_frame.
Qed.

Lemma targetSide_frame acc l :
  erase_offsets <$> (targetSide acc l).1 = erase_offsets <$> acc.1.
Proof. destruct acc as [ls ty]. simpl. apply fmap_alter_pres. done. Qed.

Lemma targetSideNode_frame ls node :
  erase_offsets <$> targetSideNode ls node = erase_offsets <$> ls.
Proof.
  unfold targetSideNode.
  apply (fold_left_inv (λ acc, erase_offsets <$> acc.1 = erase_offsets <$> ls));
    [done|].
  intros acc l _ <-. apply targetSide_frame.
Qed.

Lemma computeLinkOffsets_nodes g :
  nodes (computeLinkOffsets g) = sortLinksOf (links g) (nodes g) <$> nodes g.
Proof. unfold computeLinkOffsets. simpl. apply sortPass_spec. Qed.

Lemma computeLinkOffsets_links g :
  links (computeLinkOffsets g)
  = fold_left targetSideNode (nodes (computeLinkOffsets g))
      (fold_left sourceSideNode (nodes (computeLinkOffsets g)) (links g)).
Proof. done. Qed.

Lemma computeLinkOffsets_frame_nodes g :
  erase_links <$> nodes (computeLinkOffsets g) = erase_links <$> nodes g.
Proof.
  rewrite computeLinkOffsets_nodes, <- list_fmap_compose.
  apply list_fmap_ext. done.
Qed.

Lemma computeLinkOffsets_frame_links g :
  erase_offsets <$> links (computeLinkOffsets g) = erase_offsets <$> links g.
Proof.
  rewrite computeLinkOffsets_links.
  generalize (nodes (computeLinkOffsets g)) as ns. intros ns.
  transitivity (erase_offsets <$> fold_left sourceSideNode ns (links g)).
  - apply (fold_left_inv (λ acc, erase_offsets <$> acc = _)); [done|].
    intros ls n _ <-. apply targetSideNode_frame.
  - apply (fold_left_inv (λ acc, erase_offsets <$> acc = _)); [done|].
    intros ls n _ <-. apply sourceSideNode_frame.
Qed.

(** The stages before the link offsets, and [compute] as their composition. *)
Definition placed (config : SankeyConfig) (g : SankeyGraph) : list SankeyNode :=
  initializeNodeY config
    (positionNodesX config
       (computeNodeValues (links g) (computeDepths config (links g) (nodes g)))).

Lemma compute_stages config g g' :
  nodes g ≠ [] →
  compute config g = Some g' ↔
  ∃ ns, relaxNodePositions config (links g) (placed config g) = Some ns
        ∧ g' = computeLinkOffsets (mkGraph ns (links g)).
Proof.
  intros Hne. unfold compute, placed. destruct (nodes g) as [|n0 ns0] eqn:Hns; [done|].
  destruct (relaxNodePositions _ _ _) as [ns|]; simpl.
  - split; [intros [= <-]; eauto | intros (ns' & [= <-] & ->); done].
  - split; [done | intros (ns' & [=] & _)].
Qed.

Lemma erased_proj {A B} (e : A → A) (p : A → B) (l l' : list A) :
  (∀ a, p (e a) = p a) → e <$> l = e <$> l' → p <$> l = p <$> l'.
Proof.
  intros Hp Heq.
  rewrite <- (list_fmap_ext (p ∘ e) p l), <- (list_fmap_ext (p ∘ e) p l');
    [|intros; apply Hp..].
  by rewrite !list_fmap_compose, Heq.
Qed.

Lemma fmap_eq_length {A B} (p : A → B) (l l' : list A) :
  p <$> l = p <$> l' → length l = length l'.
Proof. intros Heq. by rewrite <- (length_fmap p l), Heq, length_fmap. Qed.

(** ** Test graphs (tests/layout.test.ts: [makeNode], [makeLink], [makeConfig]) *)

Definition makeNode (i : string) (sourceLinks targetLinks : list nat) : SankeyNode :=
  Node.mk i i 0 0 0 0 0 0 sourceLinks targetLinks.

Definition makeLink (source target : nat) (value : Z) : SankeyLink :=
  Link.mk source target (Qc_of_Z value) 0 0 0.

Definition DEFAULT_CONFIG : SankeyConfig :=
  Config.mk (Qc_of_Z 800) (Qc_of_Z 500)
    (Padding.mk (Qc_of_Z 20) (Qc_of_Z 120) (Qc_of_Z 20) (Qc_of_Z 20))
    (Qc_of_Z 18) (Qc_of_Z 14) AlignJustify 32.

(** The chain A -10-> B -7-> C of the test "computes node values". *)
Definition chainGraph : SankeyGraph :=
  mkGraph
    [makeNode "A" [0%nat] []; makeNode "B" [1%nat] [0%nat]; makeNode "C" [] [1%nat]]
    [makeLink 0 1 10; makeLink 1 2 7].

(** ** JourneyAnalyzer: drop-off (C9) *)

(** C9, as stated, fails on the chain A -10-> B -7-> C: the sink C has inflow
    7 and outflow 0, and its [dropOff] is 0, not 7. *)
Lemma C9_dropOff_counterexample :
  ¬ Forall (λ m, dropOff m = inflow m - outflow m) (analyze chainGraph).
Proof.
  intros H. rewrite Forall_forall in H.
  assert (Hin : analyzeNode (links chainGraph) (makeNode "C" [] [1%nat])
                ∈ analyze chainGraph).
  { unfold analyze. apply list_elem_of_fmap. eexists. split; [done|].
    simpl. do 2 right. left. }
  specialize (H _ Hin). vm_compute in H. discriminate H.
Qed.

(** C9, amended: every entry of [analyze] carries the node's inflow and
    outflow (the sums of its incoming and outgoing link values); its
    [dropOff] is [inflow - outflow] when the node is neither a source nor a
    sink, and 0 when it is a source or a sink. *)
Theorem C9_dropOff_amended (g : SankeyGraph) :
  Forall2
    (λ n m,
       inflow m = sumLinkValues (links g) (Node.targetLinks n)
       ∧ outflow m = sumLinkValues (links g) (Node.sourceLinks n)
       ∧ (Node.targetLinks n ≠ [] ∧ Node.sourceLinks n ≠ [] →
          dropOff m = inflow m - outflow m)
       ∧ (Node.targetLinks n = [] ∨ Node.sourceLinks n = [] → dropOff m = 0))
    (nodes g) (analyze g).
Proof.
  unfold analyze. apply Forall2_fmap_r, Forall_Forall2_diag, Forall_forall.
  intros n _. unfold analyzeNode. simpl. repeat split.
  - intros [Ht Hs]. by rewrite !bool_decide_eq_false_2.
  - intros [Ht|Hs].
    + by rewrite (bool_decide_eq_true_2 _ Ht).
    + rewrite (bool_decide_eq_true_2 _ Hs). by rewrite orb_true_r.
Qed.

(** ** Relaxation: iterations and damping (C6) *)

Lemma this_inv (a : Qc) : (this (/ a) == / this a)%Q.
Proof. unfold Qcinv; simpl; apply Qred_correct. Qed.







(** ** What the later stages preserve, field by field *)

Section Preserved.
Variable config : SankeyConfig.

Lemma placed_depth g :
  Node.depth <$> placed config g
  = Node.depth <$> computeDepths config (links g) (nodes g).
Proof.
  unfold placed.
  rewrite (erased_proj erase_yh Node.depth _ _ ltac:(done)
             (initializeNodeY_frame config _)).
  rewrite (erased_proj erase_xw Node.depth _ _ ltac:(done)
             (positionNodesX_frame config _)).
  apply (erased_proj erase_value Node.depth _ _ ltac:(done)
           (computeNodeValues_frame _ _)).
Qed.


(** After [relaxNodePositions] and [computeLinkOffsets], a field [p] that
    neither the [y] erasure nor the link-array erasure touches is as it was. *)
Lemma late_stages_proj {B} (p : SankeyNode → B) ls ns ns1 :
  (∀ n, p (erase_y n) = p n) → (∀ n, p (erase_links n) = p n) →
  relaxNodePositions config ls ns = Some ns1 →
  p <$> nodes (computeLinkOffsets (mkGraph ns1 ls)) = p <$> ns.
Proof.
  intros Hy Hl Hrelax.
  rewrite (erased_proj erase_links p _ _ Hl
             (computeLinkOffsets_frame_nodes (mkGraph ns1 ls))).
  apply (erased_proj erase_y p _ _ Hy (relaxNodePositions_frame _ _ _ _ Hrelax)).
Qed.
End Preserved.

(** ** The cyclic fallback (C8) *)





Lemma maxDepthOf_zero (ns : list SankeyNode) :
  (∀ n, n ∈ ns → Node.depth n = 0%nat) → maxDepthOf ns = 0%nat.
Proof.
  intros Hall. unfold maxDepthOf. induction ns as [|n ns IH]; [done|].
  simpl. rewrite (Hall n) by left. apply IH. intros m Hm. apply Hall. by right.
Qed.





(** ** The frame of the late stages (C10) *)

Lemma fmap_eq_Forall2 {A B} (p : A → B) (l l' : list A) :
  p <$> l = p <$> l' → Forall2 (λ a a', p a' = p a) l l'.
Proof.
  revert l'. induction l as [|a l IH]; intros [|a' l']; simpl; try done.
  intros [= Ha Hl]. constructor; [done | by apply IH].
Qed.

(** [n'] is [n] up to its [y] and the order of its two link arrays. *)
Definition same_but_y_and_link_order (n n' : SankeyNode) : Prop :=
  Node.id n' = Node.id n ∧ Node.label n' = Node.label n
  ∧ Node.depth n' = Node.depth n ∧ Node.value n' = Node.value n
  ∧ Node.x n' = Node.x n ∧ Node.width n' = Node.width n
  ∧ Node.height n' = Node.height n
  ∧ Node.sourceLinks n' ≡ₚ Node.sourceLinks n
  ∧ Node.targetLinks n' ≡ₚ Node.targetLinks n.

(** [l'] is [l] up to [width], [sy] and [ty]. *)
Definition same_but_offsets (l l' : SankeyLink) : Prop :=
  Link.source l' = Link.source l ∧ Link.target l' = Link.target l
  ∧ Link.value l' = Link.value l.

Lemma late_stages_frame (config : SankeyConfig) ls ns ns1 :
  relaxNodePositions config ls ns = Some ns1 →
  Forall2 same_but_y_and_link_order ns
    (nodes (computeLinkOffsets (mkGraph ns1 ls)))
  ∧ Forall2 same_but_offsets ls (links (computeLinkOffsets (mkGraph ns1 ls))).
Proof.
  intros Hrelax. split.
  - rewrite computeLinkOffsets_nodes. simpl. apply Forall2_fmap_r.
    eapply Forall2_impl;
      [apply (fmap_eq_Forall2 erase_y); symmetry;
       apply (relaxNodePositions_frame _ _ _ _ Hrelax)|].
    intros n n1 He. simpl in He.
    assert (Hf : ∀ {B} (p : SankeyNode → B),
               (∀ m, p (erase_y m) = p m) → p n1 = p n).
    { intros B p Hp. by rewrite <- (Hp n1), He, Hp. }
    unfold same_but_y_and_link_order. simpl.
    rewrite !sort_by_perm.
    rewrite (Hf _ Node.id), (Hf _ Node.label), (Hf _ Node.depth),
      (Hf _ Node.value), (Hf _ Node.x), (Hf _ Node.width), (Hf _ Node.height),
      (Hf _ Node.sourceLinks), (Hf _ Node.targetLinks) by done.
    done.
  - eapply Forall2_impl;
      [apply (fmap_eq_Forall2 erase_offsets); symmetry;
       apply (computeLinkOffsets_frame_links (mkGraph ns1 ls))|].
    intros l l' He. simpl in He.
    assert (Hf : ∀ {B} (p : SankeyLink → B),
               (∀ m, p (erase_offsets m) = p m) → p l' = p l).
    { intros B p Hp. by rewrite <- (Hp l'), He, Hp. }
    unfold same_but_offsets.
    by rewrite (Hf _ Link.source), (Hf _ Link.target), (Hf _ Link.value).
Qed.

(** The late stages, stated on [compute] itself; shared by the results
    below. *)
Lemma compute_late_frame (config : SankeyConfig) (g g' : SankeyGraph) :
  nodes g ≠ [] →
  compute config g = Some g' →
  Forall2 same_but_y_and_link_order (placed config g) (nodes g')
  ∧ Forall2 same_but_offsets (links g) (links g').
Proof.
  intros Hne (ns1 & Hrelax & ->)%compute_stages; [|done].
  exact (late_stages_frame config _ _ _ Hrelax).
Qed.

(** C10: once the initial vertical placement has run ([placed]), the
    remaining stages of [compute] change, in a node, only [y] and the order of
    [sourceLinks] and [targetLinks], and in a link only [width], [sy] and
    [ty]: id, depth, value, x, width and height are those of [placed]. *)
Theorem C10_late_stages_frame (config : SankeyConfig) (g g' : SankeyGraph) :
  nodes g ≠ [] →
  compute config g = Some g' →
  Forall2 same_but_y_and_link_order (placed config g) (nodes g')
  ∧ Forall2 same_but_offsets (links g) (links g').
Proof.
  intros Hne (ns1 & Hrelax & ->)%compute_stages; [|done].
  exact (late_stages_frame config _ _ _ Hrelax).
Qed.

Lemma compute_chainGraph_Some :
  ∃ g', compute DEFAULT_CONFIG chainGraph = Some g'.
Proof.
  destruct (compute DEFAULT_CONFIG chainGraph) as [g'|] eqn:H; [eauto|].
  vm_compute in H. discriminate H.
Qed.

Lemma C10_late_stages_frame_witness :
  ∃ g', Forall2 same_but_y_and_link_order (placed DEFAULT_CONFIG chainGraph) (nodes g')
        ∧ Forall2 same_but_offsets (links chainGraph) (links g').
Proof.
  destruct compute_chainGraph_Some as [g' Hg']. exists g'.
  apply (C10_late_stages_frame DEFAULT_CONFIG chainGraph g'); done.
Defined.

(** ** Sums *)

Definition Qc_sum (l : list Qc) : Qc := foldr Qcplus 0 l.

Lemma fold_left_Qc_sum {A} (f : A → Qc) (l : list A) (s : Qc) :
  fold_left (λ s a, s + f a) l s = s + Qc_sum (f <$> l).
Proof.
  revert s. induction l as [|a l IH]; intros s; simpl.
  - by rewrite Qcplus_0_r.
  - rewrite IH. by rewrite Qcplus_assoc.
Qed.


Lemma Qc_sum_app (l l' : list Qc) : Qc_sum (l ++ l') = Qc_sum l + Qc_sum l'.
Proof.
  induction l as [|a l IH]; simpl; [by rewrite Qcplus_0_l|].
  by rewrite IH, Qcplus_assoc.
Qed.

Lemma sumLinkValues_sum ls l :
  sumLinkValues ls l = Qc_sum ((λ k, Link.value (ls !!! k)) <$> l).
Proof. unfold sumLinkValues. by rewrite fold_left_Qc_sum, Qcplus_0_l. Qed.

Lemma columnTotalValue_sum ns column :
  columnTotalValue ns column = Qc_sum ((λ i, Node.value (ns !!! i)) <$> column).
Proof. unfold columnTotalValue. by rewrite fold_left_Qc_sum, Qcplus_0_l. Qed.

(** ** A loop invariant that records what each turn establishes *)

Lemma fold_left_inv_elems {A B} (P : A → Prop) (Q : B → A → Prop)
    (f : A → B → A) (l : list B) (a : A) :
  P a →
  (∀ a b, b ∈ l → P a → P (f a b) ∧ Q b (f a b)) →
  (∀ a b b', b ∈ l → b' ∈ l → P a → Q b' a → Q b' (f a b)) →
  P (fold_left f l a) ∧ ∀ b, b ∈ l → Q b (fold_left f l a).
Proof.
  intros Ha. induction l as [|x l IH] using rev_ind; intros Hstep Hstable.
  - split; [done|]. by intros b ?%elem_of_nil.
  - rewrite fold_left_app. simpl.
    destruct IH as [HP HQ].
    { intros a' b Hb. apply Hstep, elem_of_app. by left. }
    { intros a' b b' Hb Hb'. apply Hstable; apply elem_of_app; by left. }
    assert (Hx : x ∈ l ++ [x]) by (apply elem_of_app; right; left).
    destruct (Hstep _ x Hx HP) as [HP' HQ']. split; [done|].
    intros b [Hb|Hb%list_elem_of_singleton]%elem_of_app.
    + apply Hstable; auto. apply elem_of_app. by left.
    + by subst.
Qed.

(** ** initializeNodeY: heights *)

Section Heights.
Variable config : SankeyConfig.
Variable gs : Qc.
Variable ns0 : list SankeyNode.

Let height_set (i : nat) (ns : list SankeyNode) : Prop :=
  (i < length ns0)%nat →
  Node.height (ns !!! i) = Qc_max 1 (Node.value (ns0 !!! i) * gs).

Lemma placeColumn_heights ns column :
  erase_yh <$> ns = erase_yh <$> ns0 →
  (∀ i, i ∈ column → height_set i (placeColumn config gs ns column))
  ∧ (∀ i, height_set i ns → height_set i (placeColumn config gs ns column)).
Proof.
  intros Hns. unfold placeColumn.
  set (sorted := sort_by _ column).
  set (a0 := (ns, Padding.top (Config.padding config))).
  assert (Hlen : ∀ a : list SankeyNode * Qc,
             erase_yh <$> a.1 = erase_yh <$> ns0 → length a.1 = length ns0).
  { intros a Ha. apply (fmap_eq_length _ _ _ Ha). }
  assert (Hstep : ∀ (a : list SankeyNode * Qc) i,
             erase_yh <$> a.1 = erase_yh <$> ns0 →
             erase_yh <$> (placeNode config gs a i).1 = erase_yh <$> ns0
             ∧ height_set i (placeNode config gs a i).1).
  { intros [ns1 y1] i Ha. simpl in *. split.
    - rewrite <- Ha. apply fmap_alter_pres. done.
    - intros Hi. rewrite lookup_total_alter_eq by (pose proof (Hlen (ns1, y1) Ha) as Hl; simpl in Hl; lia).
      simpl. f_equal. f_equal.
      apply (lookup_total_fmap_pres Node.value).
      by apply (erased_proj erase_yh Node.value). }
  assert (Hstable : ∀ (a : list SankeyNode * Qc) i j,
             erase_yh <$> a.1 = erase_yh <$> ns0 →
             height_set j a.1 → height_set j (placeNode config gs a i).1).
  { intros a i j Ha Hj. destruct (decide (i = j)) as [->|Hij].
    - by apply Hstep.
    - destruct a as [ns1 y1]. simpl in *. intros Hlt.
      rewrite lookup_total_alter_ne by done. by apply Hj. }
  split.
  - intros i Hi.
    destruct (fold_left_inv_elems
                (λ a, erase_yh <$> a.1 = erase_yh <$> ns0)
                (λ i a, height_set i a.1)
                (placeNode config gs) sorted a0) as [_ HQ]; auto.
    apply HQ. by apply sort_by_elem_of.
  - intros i Hi.
    apply (fold_left_inv
             (λ a, erase_yh <$> a.1 = erase_yh <$> ns0 ∧ height_set i a.1));
      [done|].
    intros a j _ [Ha Hj]. split; [by apply Hstep | by apply Hstable].
Qed.

Lemma placeColumns_heights columns i :
  i ∈ mjoin columns →
  height_set i (fold_left (placeColumn config gs) columns ns0).
Proof.
  intros (column & Hi & Hc)%list_elem_of_join.
  destruct (fold_left_inv_elems
              (λ ns, erase_yh <$> ns = erase_yh <$> ns0)
              (λ column ns, ∀ i, i ∈ column → height_set i ns)
              (placeColumn config gs) columns ns0) as [_ HQ]; [done | | |].
  - intros ns column' _ Hns. split.
    + rewrite <- Hns. apply placeColumn_frame.
    + by apply placeColumn_heights.
  - intros ns column' column'' _ _ Hns Hq j Hj.
    apply placeColumn_heights; auto.
  - by apply (HQ column).
Qed.
End Heights.

Lemma initializeNodeY_height config ns i :
  (i < length ns)%nat →
  Node.height (initializeNodeY config ns !!! i)
  = Qc_max 1 (Node.value (ns !!! i) * globalScaleOf config ns (getColumns ns)).
Proof.
  intros Hi. unfold initializeNodeY.
  apply placeColumns_heights; [|done]. by apply elem_of_concat_getColumns.
Qed.



(** The global scale only reads [depth] and [value]. *)
Lemma globalScaleOf_ext config ns ns' :
  Node.depth <$> ns = Node.depth <$> ns' →
  Node.value <$> ns = Node.value <$> ns' →
  globalScaleOf config ns (getColumns ns)
  = globalScaleOf config ns' (getColumns ns').
Proof.
  intros Hd Hv. rewrite (getColumns_ext ns ns' Hd). unfold globalScaleOf.
  f_equal. generalize (@None Qc) as acc.
  induction (getColumns ns') as [|column columns IH]; intros acc; [done|].
  simpl. rewrite IH. f_equal.
  assert (Ht : columnTotalValue ns column = columnTotalValue ns' column).
  { rewrite !columnTotalValue_sum. f_equal. apply list_fmap_ext.
    intros _ i _. by apply (lookup_total_fmap_pres Node.value). }
  unfold scaleStep, columnScale. by rewrite Ht.
Qed.

(** ** The global scale as the minimum over the depth columns (C5) *)

Definition Qc_min (a b : Qc) : Qc := if decide (b < a) then b else a.

Definition Qc_min_list (l : list Qc) : option Qc :=
  match l with
  | [] => None
  | a :: l' => Some (fold_left Qc_min l' a)
  end.

(** The nodes of depth [d], for [d] from 0 to the largest depth. *)
Definition depthColumns (ns : list SankeyNode) : list (list SankeyNode) :=
  (λ d, filter (λ n, Node.depth n = d) ns) <$> seq 0 (S (maxDepthOf ns)).

Definition totalValueOf (column : list SankeyNode) : Qc :=
  Qc_sum (Node.value <$> column).

(** The scale candidate of a column, for a given inter-node spacing as a
    function of the column's node count. *)
Definition scaleCandidate (config : SankeyConfig) (spacing : nat → Qc)
    (column : list SankeyNode) : Qc :=
  (innerHeight config - spacing (length column)) / totalValueOf column.

(** The minimum candidate over the columns of positive total value, 0 if
    there is none. *)
Definition scaleWith (config : SankeyConfig) (spacing : nat → Qc)
    (ns : list SankeyNode) : Qc :=
  default 0
    (Qc_min_list
       (scaleCandidate config spacing
          <$> filter (λ column, 0 < totalValueOf column) (depthColumns ns))).

(** The spacing in the words of the claim: [(count - 1) * nodePadding]. *)
Definition claimSpacing (config : SankeyConfig) (count : nat) : Qc :=
  Qc_of_Z (Z.of_nat count - 1) * Config.nodePadding config.

(** The spacing of the source: [Math.max(0, (count - 1) * nodePadding)]. *)
Definition codeSpacing (config : SankeyConfig) (count : nat) : Qc :=
  Qc_max 0 (claimSpacing config count).

Lemma Qc_min_case (a b : Qc) :
  (b < a ∧ Qc_min a b = b) ∨ (a ≤ b ∧ Qc_min a b = a).
Proof.
  unfold Qc_min. destruct (decide (b < a)) as [H|H]; [left | right]; split; auto.
  apply Qcle_ngt, H.
Qed.

Lemma fold_left_Qc_min_spec (l : list Qc) (a : Qc) :
  let m := fold_left Qc_min l a in
  m ∈ a :: l ∧ ∀ b, b ∈ a :: l → m ≤ b.
Proof.
  revert a. induction l as [|c l IH]; intros a; simpl.
  - split; [left|]. intros b ->%list_elem_of_singleton. apply Qcle_refl.
  - destruct (IH (Qc_min a c)) as [Hin Hle]. split.
    + apply elem_of_cons in Hin as [Hin|Hin]; [|by do 2 right].
      rewrite Hin. destruct (Qc_min_case a c) as [[_ ->]|[_ ->]];
        [right; left | left].
    + assert (Hm : fold_left Qc_min l (Qc_min a c) ≤ Qc_min a c)
        by (apply Hle; left).
      intros b [->|[->|Hb]%elem_of_cons]%elem_of_cons.
      * eapply Qcle_trans; [exact Hm|].
        destruct (Qc_min_case a c) as [[? ->]|[? ->]]; qc_lra.
      * eapply Qcle_trans; [exact Hm|].
        destruct (Qc_min_case a c) as [[? ->]|[? ->]]; qc_lra.
      * apply Hle. by right.
Qed.

(** [Qc_min_list] is the minimum: an element below all the others. *)
Lemma Qc_min_list_spec (l : list Qc) (m : Qc) :
  Qc_min_list l = Some m → m ∈ l ∧ ∀ b, b ∈ l → m ≤ b.
Proof.
  destruct l as [|a l]; [done|]. intros [= <-]. apply fold_left_Qc_min_spec.
Qed.

Lemma filter_ext_in {A} (P Q : A → Prop) `{∀ a, Decision (P a)}
    `{∀ a, Decision (Q a)} (l : list A) :
  (∀ a, a ∈ l → P a ↔ Q a) → filter P l = filter Q l.
Proof.
  induction l as [|a l IH]; intros Hext; [done|].
  rewrite !filter_cons.
  rewrite IH by (intros b Hb; apply Hext; by right).
  destruct (decide (P a)) as [Hp|Hp], (decide (Q a)) as [Hq|Hq]; try done;
    exfalso; apply (Hext a) in Hp || apply (Hext a) in Hq; try done; left.
Qed.

Lemma fmap_lookup_filter_seq {A} `{Inhabited A} (P : A → Prop)
    `{HP : ∀ a, Decision (P a)} (l : list A) :
  (λ i, l !!! i) <$> filter (λ i, P (l !!! i)) (seq 0 (length l)) = filter P l.
Proof.
  induction l as [|x l IH] using rev_ind; [done|].
  rewrite length_app. simpl. rewrite Nat.add_1_r, seq_S. simpl.
  rewrite !filter_app, fmap_app.
  assert (Hpre : ∀ i, i ∈ seq 0 (length l) → (l ++ [x]) !!! i = l !!! i).
  { intros i Hi%elem_of_seq. apply lookup_total_app_l. lia. }
  rewrite (filter_ext_in _ (λ i, P (l !!! i)))
    by (intros i Hi; by rewrite Hpre).
  rewrite <- IH. f_equal.
  - apply list_fmap_ext. intros _ i Hi%list_elem_of_lookup_2.
    apply list_elem_of_filter in Hi as [_ Hi]. by apply Hpre.
  - assert (Hx : (l ++ [x]) !!! length l = x).
    { rewrite lookup_total_app_r by lia. by rewrite Nat.sub_diag. }
    rewrite !filter_cons, !filter_nil, Hx.
    destruct (decide (P x)); simpl; [by rewrite Hx | done].
Qed.

Lemma columnOf_nodes ns d :
  (λ i, ns !!! i) <$> columnOf ns d = filter (λ n, Node.depth n = d) ns.
Proof.
  unfold columnOf.
  exact (fmap_lookup_filter_seq (λ n, Node.depth n = d) ns).
Qed.

Lemma columnTotalValue_columnOf ns d :
  columnTotalValue ns (columnOf ns d)
  = totalValueOf (filter (λ n, Node.depth n = d) ns).
Proof.
  rewrite columnTotalValue_sum. unfold totalValueOf.
  by rewrite <- columnOf_nodes, <- list_fmap_compose.
Qed.

Lemma columnScale_columnOf config ns d :
  columnScale config ns (columnOf ns d)
  = scaleCandidate config (codeSpacing config)
      (filter (λ n, Node.depth n = d) ns).
Proof.
  unfold columnScale, scaleCandidate, codeSpacing, claimSpacing.
  rewrite columnTotalValue_columnOf.
  by rewrite <- (columnOf_nodes ns d), length_fmap.
Qed.

Lemma fold_scaleStep config ns ds acc :
  fold_left (scaleStep config ns) (columnOf ns <$> ds) acc
  = let cands :=
      scaleCandidate config (codeSpacing config)
        <$> filter (λ column, 0 < totalValueOf column)
              ((λ d, filter (λ n, Node.depth n = d) ns) <$> ds) in
    match acc with
    | None => Qc_min_list cands
    | Some g => Some (fold_left Qc_min cands g)
    end.
Proof.
  revert acc. induction ds as [|d ds IH]; intros acc.
  - by destruct acc.
  - rewrite !fmap_cons. cbn [fold_left]. rewrite IH. unfold scaleStep.
    rewrite columnTotalValue_columnOf, columnScale_columnOf, filter_cons.
    cbv zeta.
    destruct (decide (0 < totalValueOf _)) as [Hpos|Hpos]; [|done].
    rewrite fmap_cons. cbn [Qc_min_list fold_left].
    destruct acc as [g|]; [|done].
    unfold Qc_min. by destruct (decide (_ < g)).
Qed.

Lemma globalScaleOf_spec config ns :
  globalScaleOf config ns (getColumns ns)
  = scaleWith config (codeSpacing config) ns.
Proof.
  unfold globalScaleOf, scaleWith, depthColumns.
  by rewrite getColumns_spec, fold_scaleStep.
Qed.

(** Two sources and two sinks: A -5-> C, B -5-> D; both columns hold two
    nodes. *)
Definition twoPairsGraph : SankeyGraph :=
  mkGraph
    [makeNode "A" [0%nat] []; makeNode "B" [1%nat] [];
     makeNode "C" [] [0%nat]; makeNode "D" [] [1%nat]]
    [makeLink 0 2 5; makeLink 1 3 5].

(** The default configuration with [nodePadding = -10]. *)
Definition negativePaddingConfig : SankeyConfig :=
  Config.mk (Qc_of_Z 800) (Qc_of_Z 500)
    (Padding.mk (Qc_of_Z 20) (Qc_of_Z 120) (Qc_of_Z 20) (Qc_of_Z 20))
    (Qc_of_Z 18) (Qc_of_Z (-10)) AlignJustify 32.

(** Evaluates [compute] on a closed graph: the hypothesis [H] that names the
    result is replaced by the result itself. *)
Ltac run_compute H g' :=
  match type of H with
  | compute ?c ?g = Some g' =>
      assert (g' = default g (compute c g)) as -> by (by rewrite H); clear H
  end.

(** C5, as stated, fails when [nodePadding] is negative: with
    [nodePadding = -10] and two nodes per column the claim's spacing is -10,
    its scale is 470/10 = 47 and it predicts heights of 235; the source clamps
    the spacing at 0, the scale is 46 and the heights are 230. *)
Lemma C5_global_scale_counterexample :
  ∃ g', compute negativePaddingConfig twoPairsGraph = Some g'
        ∧ ¬ Forall
              (λ n, Node.height n
                    = Qc_max 1 (Node.value n
                                * scaleWith negativePaddingConfig
                                    (claimSpacing negativePaddingConfig) (nodes g')))
              (nodes g').
Proof.
  destruct (compute negativePaddingConfig twoPairsGraph) as [g'|] eqn:H.
  2:{ vm_compute in H. discriminate H. }
  exists g'. split; [done|]. run_compute H g'.
  intros HF. apply (bool_decide_eq_true_2 _) in HF.
  vm_compute in HF. discriminate HF.
Qed.

(** C5, amended: after [compute] every node's height is
    [max(1, value * S)] for one global [S]: the minimum, over the depth
    columns of positive total value, of
    [(innerHeight - max(0, (count - 1) * nodePadding)) / totalValue], and 0 if
    no column has positive total value. *)
Theorem C5_global_scale_amended (config : SankeyConfig) (g g' : SankeyGraph) :
  nodes g ≠ [] →
  compute config g = Some g' →
  Forall
    (λ n, Node.height n
          = Qc_max 1 (Node.value n
                      * scaleWith config (codeSpacing config) (nodes g')))
    (nodes g').
Proof.
  intros Hne Hc.
  destruct (compute_late_frame config g g' Hne Hc) as [Hframe _].
  set (p0 := positionNodesX config
               (computeNodeValues (links g)
                  (computeDepths config (links g) (nodes g)))).
  assert (Hplaced : placed config g = initializeNodeY config p0) by done.
  assert (Hd0 : Node.depth <$> p0 = Node.depth <$> placed config g).
  { symmetry. rewrite Hplaced.
    apply (erased_proj erase_yh Node.depth _ _ ltac:(done)
             (initializeNodeY_frame config p0)). }
  assert (Hv0 : Node.value <$> p0 = Node.value <$> placed config g).
  { symmetry. rewrite Hplaced.
    apply (erased_proj erase_yh Node.value _ _ ltac:(done)
             (initializeNodeY_frame config p0)). }
  assert (Hd1 : Node.depth <$> placed config g = Node.depth <$> nodes g').
  { apply list_eq_Forall2, Forall2_fmap.
    eapply Forall2_impl; [exact Hframe|]. by intros n n' (_&_&->&_). }
  assert (Hv1 : Node.value <$> placed config g = Node.value <$> nodes g').
  { apply list_eq_Forall2, Forall2_fmap.
    eapply Forall2_impl; [exact Hframe|]. by intros n n' (_&_&_&->&_). }
  rewrite <- globalScaleOf_spec.
  rewrite <- (globalScaleOf_ext config p0 (nodes g')) by congruence.
  apply Forall_lookup. intros i n' Hi.
  destruct (Forall2_lookup_r _ _ _ _ _ Hframe Hi) as (n & Hn & Hnn').
  destruct Hnn' as (_&_&_&->&_&_&->&_).
  assert (Hlt : (i < length p0)%nat).
  { rewrite (fmap_eq_length _ _ _ Hd0). by apply lookup_lt_Some in Hn. }
  rewrite <- (list_lookup_total_correct _ _ _ Hn), Hplaced.
  rewrite initializeNodeY_height by done. do 2 f_equal.
  rewrite <- Hplaced. apply (lookup_total_fmap_pres Node.value). done.
Qed.

Lemma C5_global_scale_amended_witness :
  ∃ g', compute negativePaddingConfig twoPairsGraph = Some g'
        ∧ Forall
            (λ n, Node.height n
                  = Qc_max 1 (Node.value n
                              * scaleWith negativePaddingConfig
                                  (codeSpacing negativePaddingConfig) (nodes g')))
            (nodes g').
Proof.
  destruct (compute negativePaddingConfig twoPairsGraph) as [g'|] eqn:H.
  - exists g'. split; [done|].
    by apply (C5_global_scale_amended negativePaddingConfig twoPairsGraph g').
  - vm_compute in H. discriminate H.
Defined.

(** ** Well-formed graphs

    The graphs that [makeLink] (tests) and [TabularTransform] build: node ids
    are unique; a link sits exactly once in the [sourceLinks] of its source
    and once in the [targetLinks] of its target, and nowhere else. *)

Definition wf_node (ls : list SankeyLink) (i : nat) (n : SankeyNode) : Prop :=
  NoDup (Node.sourceLinks n) ∧ NoDup (Node.targetLinks n)
  ∧ Forall (λ l, Link.source <$> ls !! l = Some i) (Node.sourceLinks n)
  ∧ Forall (λ l, Link.target <$> ls !! l = Some i) (Node.targetLinks n).

Definition wf_link (ns : list SankeyNode) (l : nat) (k : SankeyLink) : Prop :=
  l ∈ from_option Node.sourceLinks [] (ns !! Link.source k)
  ∧ l ∈ from_option Node.targetLinks [] (ns !! Link.target k).

Definition wf_graph (g : SankeyGraph) : Prop :=
  NoDup (Node.id <$> nodes g)
  ∧ Forall (λ i, wf_node (links g) i (nodes g !!! i)) (seq 0 (length (nodes g)))
  ∧ Forall (λ l, wf_link (nodes g) l (links g !!! l)) (seq 0 (length (links g))).

Global Instance wf_node_dec ls i n : Decision (wf_node ls i n).
Proof. unfold wf_node. apply _. Defined.

Global Instance wf_link_dec ns l k : Decision (wf_link ns l k).
Proof. unfold wf_link. apply _. Defined.

Global Instance wf_graph_dec g : Decision (wf_graph g).
Proof. unfold wf_graph. apply _. Defined.

(** Offsets that start at [start] and advance by each entry's width: the
    entries are (offset, width) pairs. *)
Fixpoint tiles_from (start : Qc) (l : list (Qc * Qc)) : Prop :=
  match l with
  | [] => True
  | (o, w) :: l' => o = start ∧ tiles_from (start + w) l'
  end.

Definition offsetsOf (proj : SankeyLink → Qc) (ls : list SankeyLink)
    (sl : list nat) : list (Qc * Qc) :=
  (λ l, (proj (ls !!! l), Link.width (ls !!! l))) <$> sl.

Definition widthsOf (ls : list SankeyLink) (sl : list nat) : list Qc :=
  (λ l, Link.width (ls !!! l)) <$> sl.

Lemma wf_graph_chainGraph : wf_graph chainGraph.
Proof. apply (bool_decide_unpack _). vm_compute. exact I. Qed.

(** ** The two offset passes as one loop scheme *)

Lemma fold_left_ext {A B} (f g : A → B → A) (l : list B) (a : A) :
  (∀ a b, f a b = g a b) → fold_left f l a = fold_left g l a.
Proof.
  intros Hfg. revert a. induction l as [|b l IH]; intros a; simpl; [done|].
  by rewrite Hfg, IH.
Qed.

Lemma offsetsOf_ext proj ls ls' sl :
  (∀ l, l ∈ sl → ls' !! l = ls !! l) → offsetsOf proj ls' sl = offsetsOf proj ls sl.
Proof.
  intros Hext. unfold offsetsOf. apply list_fmap_ext.
  intros _ l Hl%list_elem_of_lookup_2.
  by rewrite !list_lookup_total_alt, (Hext l Hl).
Qed.

Section OffsetLoop.
Variable upd : Qc → SankeyLink → SankeyLink.
Variables proj W : SankeyLink → Qc.
Hypothesis upd_proj : ∀ o k, proj (upd o k) = o.
Hypothesis upd_width : ∀ o k, Link.width (upd o k) = W k.

(** Write the running offset into link [l], then advance by its width. *)
Definition offsetStep (acc : list SankeyLink * Qc) (l : nat)
    : list SankeyLink * Qc :=
  let '(ls, o) := acc in
  let ls' := alter (upd o) l ls in
  (ls', o + Link.width (ls' !!! l)).

Lemma offsetLoop_length sl ls o :
  length (fold_left offsetStep sl (ls, o)).1 = length ls.
Proof.
  apply (fold_left_inv (λ acc, length acc.1 = length ls)); [done|].
  intros [ls1 o1] l _ <-. simpl. apply length_alter.
Qed.

Lemma offsetLoop_other sl ls o l :
  l ∉ sl → (fold_left offsetStep sl (ls, o)).1 !! l = ls !! l.
Proof.
  intros Hl.
  apply (fold_left_inv (λ acc, acc.1 !! l = ls !! l)); [done|].
  intros [ls1 o1] l' Hl' <-. simpl. apply list_lookup_alter_ne.
  by intros ->.
Qed.

Lemma offsetLoop_spec sl ls o :
  NoDup sl → (∀ l, l ∈ sl → (l < length ls)%nat) →
  let ls' := (fold_left offsetStep sl (ls, o)).1 in
  (∀ l, l ∈ sl → Link.width (ls' !!! l) = W (ls !!! l))
  ∧ tiles_from o (offsetsOf proj ls' sl).
Proof.
  intros Hnd. revert ls o.
  induction Hnd as [|l sl Hl Hnd IH]; intros ls o Hrange; simpl.
  - split; [|done]. by intros l ?%elem_of_nil.
  - set (ls1 := alter (upd o) l ls).
    assert (Hlt : (l < length ls)%nat) by (apply Hrange; left).
    assert (H1 : ls1 !!! l = upd o (ls !!! l)).
    { by apply lookup_total_alter_eq. }
    destruct (IH ls1 (o + Link.width (ls1 !!! l))) as [Hw Ht].
    { intros l' Hl'. unfold ls1. rewrite length_alter. apply Hrange. by right. }
    set (ls' := (fold_left offsetStep sl (ls1, o + Link.width (ls1 !!! l))).1) in *.
    assert (Hsame : ls' !!! l = ls1 !!! l).
    { rewrite !list_lookup_total_alt. unfold ls'. by rewrite offsetLoop_other. }
    split; [|split].
    + intros l' [->|Hl']%elem_of_cons.
      * by rewrite Hsame, H1, upd_width.
      * rewrite Hw by done. unfold ls1.
        rewrite lookup_total_alter_ne; [done|]. by intros ->.
    + by rewrite Hsame, H1, upd_proj.
    + by rewrite Hsame.
Qed.
End OffsetLoop.

(** The source-side pass is the scheme with [sy] and the proportional width. *)
Definition sourceUpd (outTotal h : Qc) (o : Qc) (k : SankeyLink) : SankeyLink :=
  Link.set_sy o
    (Link.set_width
       (if decide (0 < outTotal) then Link.value k / outTotal * h else 0) k).

Definition sourceWidth (outTotal h : Qc) (k : SankeyLink) : Qc :=
  if decide (0 < outTotal) then Link.value k / outTotal * h else 0.

Lemma sourceSide_offsetStep outTotal h acc l :
  sourceSide outTotal h acc l = offsetStep (sourceUpd outTotal h) acc l.
Proof.
  destruct acc as [ls sy]. unfold sourceSide, offsetStep.
  assert (Heq : alter (λ k, Link.set_sy sy (Link.set_width
                   (if decide (0 < outTotal)
                    then Link.value (ls !!! l) / outTotal * h else 0) k)) l ls
                = alter (sourceUpd outTotal h sy) l ls).
  { apply list_alter_ext; [|done]. intros k Hk.
    by rewrite (list_lookup_total_correct _ _ _ Hk). }
  by rewrite Heq.
Qed.

Lemma targetSide_offsetStep acc l :
  targetSide acc l = offsetStep Link.set_ty acc l.
Proof. by destruct acc. Qed.

Lemma sourceSideNode_scheme ls node :
  sourceSideNode ls node
  = (fold_left
       (offsetStep (sourceUpd (sumLinkValues ls (Node.sourceLinks node))
                      (Node.height node)))
       (Node.sourceLinks node) (ls, 0)).1.
Proof.
  unfold sourceSideNode.
  by rewrite (fold_left_ext (sourceSide _ _) (offsetStep (sourceUpd _ _)))
    by apply sourceSide_offsetStep.
Qed.

Lemma targetSideNode_scheme ls node :
  targetSideNode ls node
  = (fold_left (offsetStep Link.set_ty) (Node.targetLinks node) (ls, 0)).1.
Proof.
  unfold targetSideNode.
  by rewrite (fold_left_ext targetSide (offsetStep Link.set_ty))
    by apply targetSide_offsetStep.
Qed.

(** The source pass writes no [ty]; the target pass writes neither [width]
    nor [sy]. *)
Lemma sourceSideNode_ty ls node :
  Link.set_sy 0 ∘ Link.set_width 0 <$> sourceSideNode ls node
  = Link.set_sy 0 ∘ Link.set_width 0 <$> ls.
Proof.
  unfold sourceSideNode.
  apply (fold_left_inv (λ acc, _ <$> acc.1 = _ <$> ls)); [done|].
  intros [ls1 o1] l _ <-. simpl. apply fmap_alter_pres. done.
Qed.

Lemma targetSideNode_width_sy ls node :
  Link.set_ty 0 <$> targetSideNode ls node = Link.set_ty 0 <$> ls.
Proof.
  unfold targetSideNode.
  apply (fold_left_inv (λ acc, _ <$> acc.1 = _ <$> ls)); [done|].
  intros [ls1 o1] l _ <-. simpl. apply fmap_alter_pres. done.
Qed.

Lemma targetPass_width_sy ns ls :
  Link.set_ty 0 <$> fold_left targetSideNode ns ls = Link.set_ty 0 <$> ls.
Proof.
  apply (fold_left_inv (λ acc, _ <$> acc = _ <$> ls)); [done|].
  intros ls1 n _ <-. apply targetSideNode_width_sy.
Qed.

Lemma sourcePass_ty ns ls :
  Link.set_sy 0 ∘ Link.set_width 0 <$> fold_left sourceSideNode ns ls
  = Link.set_sy 0 ∘ Link.set_width 0 <$> ls.
Proof.
  apply (fold_left_inv (λ acc, _ <$> acc = _ <$> ls)); [done|].
  intros ls1 n _ <-. apply sourceSideNode_ty.
Qed.

Section OffsetPass.
Variable lst : SankeyNode → list nat.
Variable upd : SankeyNode → Qc → SankeyLink → SankeyLink.
Variable proj : SankeyLink → Qc.
Variable W : SankeyNode → SankeyLink → Qc.
Hypothesis upd_proj : ∀ n o k, proj (upd n o k) = o.
Hypothesis upd_width : ∀ n o k, Link.width (upd n o k) = W n k.
Hypothesis upd_W : ∀ n n' o k, W n' (upd n o k) = W n' k.

(** One pass over the nodes: each node's links get their offsets from 0. *)
Definition offsetPass (ns : list SankeyNode) (ls : list SankeyLink)
    : list SankeyLink :=
  fold_left (λ ls n, (fold_left (offsetStep (upd n)) (lst n) (ls, 0)).1) ns ls.

Lemma offsetLoop_W n n' sl ls o l :
  W n' ((fold_left (offsetStep (upd n)) sl (ls, o)).1 !!! l) = W n' (ls !!! l).
Proof.
  apply (fold_left_inv (λ acc, W n' (acc.1 !!! l) = W n' (ls !!! l))); [done|].
  intros [ls1 o1] l' _ <-. simpl. by apply lookup_total_alter_pres.
Qed.

Lemma offsetPass_length ns ls : length (offsetPass ns ls) = length ls.
Proof.
  apply (fold_left_inv (λ acc, length acc = length ls)); [done|].
  intros ls1 n _ <-. apply offsetLoop_length.
Qed.

Lemma offsetPass_other ns ls l :
  l ∉ mjoin (lst <$> ns) → offsetPass ns ls !! l = ls !! l.
Proof.
  revert ls. induction ns as [|n ns IH]; intros ls Hl; [done|].
  simpl in Hl. apply not_elem_of_app in Hl as [Hl1 Hl2].
  unfold offsetPass. simpl. fold (offsetPass ns).
  rewrite IH by done. by apply offsetLoop_other.
Qed.

Lemma offsetPass_spec ns ls n :
  NoDup (mjoin (lst <$> ns)) →
  (∀ l, l ∈ mjoin (lst <$> ns) → (l < length ls)%nat) →
  n ∈ ns →
  (∀ l, l ∈ lst n → Link.width (offsetPass ns ls !!! l) = W n (ls !!! l))
  ∧ tiles_from 0 (offsetsOf proj (offsetPass ns ls) (lst n)).
Proof.
  revert ls. induction ns as [|m ns IH]; intros ls Hnd Hrange Hn.
  { by apply elem_of_nil in Hn. }
  simpl in Hnd, Hrange. apply NoDup_app in Hnd as (Hnd1 & Hdisj & Hnd2).
  unfold offsetPass. simpl. fold (offsetPass ns).
  set (ls1 := (fold_left (offsetStep (upd m)) (lst m) (ls, 0)).1).
  apply elem_of_cons in Hn as [->|Hn].
  - destruct (offsetLoop_spec (upd m) proj (W m) (upd_proj m) (upd_width m)
                (lst m) ls 0 Hnd1) as [Hw Ht].
    { intros l Hl. apply Hrange, elem_of_app. by left. }
    fold ls1 in Hw, Ht.
    assert (Hsame : ∀ l, l ∈ lst m → offsetPass ns ls1 !! l = ls1 !! l).
    { intros l Hl. apply offsetPass_other. by apply Hdisj. }
    split.
    + intros l Hl. rewrite <- Hw by done.
      by rewrite !list_lookup_total_alt, Hsame.
    + by rewrite (offsetsOf_ext proj ls1).
  - destruct (IH ls1 Hnd2) as [Hw Ht]; [|done|].
    { intros l Hl. unfold ls1. rewrite offsetLoop_length.
      apply Hrange, elem_of_app. by right. }
    split; [|done].
    intros l Hl. rewrite Hw by done. apply offsetLoop_W.
Qed.
End OffsetPass.

Lemma sumLinkValues_ext ls ls' l :
  Link.value <$> ls = Link.value <$> ls' → sumLinkValues ls l = sumLinkValues ls' l.
Proof.
  intros Heq. rewrite !sumLinkValues_sum. f_equal. apply list_fmap_ext.
  intros _ k _. by apply (lookup_total_fmap_pres Link.value).
Qed.

Lemma sourcePass_scheme ns ls :
  fold_left sourceSideNode ns ls
  = offsetPass Node.sourceLinks
      (λ n, sourceUpd (sumLinkValues ls (Node.sourceLinks n)) (Node.height n))
      ns ls.
Proof.
  unfold offsetPass.
  apply (fold_left_ext_inv (λ acc, Link.value <$> acc = Link.value <$> ls));
    [done|].
  intros ls1 n _ Hv. split.
  - rewrite sourceSideNode_scheme.
    by rewrite (sumLinkValues_ext ls1 ls).
  - rewrite <- Hv.
    apply (fold_left_inv (λ acc, Link.value <$> acc.1 = Link.value <$> ls1));
      [done|].
    intros [ls2 o2] l _ <-. simpl. apply fmap_alter_pres. done.
Qed.

Lemma targetPass_scheme ns ls :
  fold_left targetSideNode ns ls
  = offsetPass Node.targetLinks (λ _, Link.set_ty) ns ls.
Proof.
  unfold offsetPass. apply fold_left_ext. intros. apply targetSideNode_scheme.
Qed.

Lemma NoDup_join {A} (L : list (list A)) :
  (∀ i l, L !! i = Some l → NoDup l) →
  (∀ i j l l' a, L !! i = Some l → L !! j = Some l' → a ∈ l → a ∈ l' → i = j) →
  NoDup (mjoin L).
Proof.
  induction L as [|l L IH]; intros Hnd Hdisj; [constructor|].
  simpl. apply NoDup_app. split; [by apply (Hnd 0%nat)|]. split.
  - intros a Ha (l' & Ha' & Hl')%list_elem_of_join.
    apply list_elem_of_lookup in Hl' as [j Hj].
    by specialize (Hdisj 0%nat (S j) l l' a eq_refl Hj Ha Ha').
  - apply IH.
    + intros i l' Hi. by apply (Hnd (S i)).
    + intros i j l1 l2 a Hi Hj H1 H2.
      by specialize (Hdisj (S i) (S j) l1 l2 a Hi Hj H1 H2) as [= ->].
Qed.

(** ** Well-formedness through [compute] *)

Lemma wf_graph_alt g :
  wf_graph g ↔
  NoDup (Node.id <$> nodes g)
  ∧ (∀ i n, nodes g !! i = Some n → wf_node (links g) i n)
  ∧ (∀ l k, links g !! l = Some k → wf_link (nodes g) l k).
Proof.
  unfold wf_graph. rewrite !Forall_forall. split.
  - intros (Hid & Hn & Hl). split; [done|]. split.
    + intros i n Hi. rewrite <- (list_lookup_total_correct _ _ _ Hi).
      apply Hn, elem_of_seq. apply lookup_lt_Some in Hi. lia.
    + intros l k Hk. rewrite <- (list_lookup_total_correct _ _ _ Hk).
      apply Hl, elem_of_seq. apply lookup_lt_Some in Hk. lia.
  - intros (Hid & Hn & Hl). split; [done|]. split.
    + intros i Hi%elem_of_seq. apply Hn, list_lookup_lookup_total_lt. lia.
    + intros l Hi%elem_of_seq. apply Hl, list_lookup_lookup_total_lt. lia.
Qed.

(** [g'] has the nodes and links of [g], with the link arrays of each node
    possibly reordered. *)
Definition same_structure (g g' : SankeyGraph) : Prop :=
  Node.id <$> nodes g' = Node.id <$> nodes g
  ∧ Forall2 (λ n n', Node.sourceLinks n' ≡ₚ Node.sourceLinks n
                     ∧ Node.targetLinks n' ≡ₚ Node.targetLinks n)
      (nodes g) (nodes g')
  ∧ Link.source <$> links g' = Link.source <$> links g
  ∧ Link.target <$> links g' = Link.target <$> links g
  ∧ Link.value <$> links g' = Link.value <$> links g.

Lemma wf_graph_same_structure g g' :
  same_structure g g' → wf_graph g → wf_graph g'.
Proof.
  intros (Hid & Hnodes & Hsrc & Htgt & _). rewrite !wf_graph_alt.
  intros (Hnd & Hn & Hl). split; [by rewrite Hid|]. split.
  - intros i n' Hi.
    destruct (Forall2_lookup_r _ _ _ _ _ Hnodes Hi) as (n & Hin & Hs & Ht).
    destruct (Hn i n Hin) as (H1 & H2 & H3 & H4).
    unfold wf_node. rewrite Hs, Ht. repeat split; [done..| |].
    + eapply Forall_impl; [exact H3|]. intros l Hl'. simpl in *.
      by rewrite <- list_lookup_fmap, Hsrc, list_lookup_fmap.
    + eapply Forall_impl; [exact H4|]. intros l Hl'. simpl in *.
      by rewrite <- list_lookup_fmap, Htgt, list_lookup_fmap.
  - intros l k' Hk'.
    assert (Hk : ∃ k, links g !! l = Some k ∧ Link.source k = Link.source k'
                      ∧ Link.target k = Link.target k').
    { assert (H1 : (Link.source <$> links g') !! l = Some (Link.source k'))
        by by rewrite list_lookup_fmap, Hk'.
      assert (H2 : (Link.target <$> links g') !! l = Some (Link.target k'))
        by by rewrite list_lookup_fmap, Hk'.
      rewrite Hsrc, list_lookup_fmap in H1.
      rewrite Htgt, list_lookup_fmap in H2.
      destruct (links g !! l) as [k|]; simpl in *; [|done].
      exists k. split; [done|]. split; congruence. }
    destruct Hk as (k & Hk & Hs & Ht).
    destruct (Hl l k Hk) as [H1 H2]. unfold wf_link. rewrite <- Hs, <- Ht.
    assert (Hperm : ∀ j,
      from_option Node.sourceLinks [] (nodes g' !! j)
        ≡ₚ from_option Node.sourceLinks [] (nodes g !! j)
      ∧ from_option Node.targetLinks [] (nodes g' !! j)
        ≡ₚ from_option Node.targetLinks [] (nodes g !! j)).
    { intros j. destruct (nodes g !! j) as [n|] eqn:Hj.
      - destruct (Forall2_lookup_l _ _ _ _ _ Hnodes Hj) as (n' & -> & ? & ?).
        done.
      - assert (Hlen : length (nodes g) = length (nodes g'))
          by apply (Forall2_length _ _ _ Hnodes).
        apply lookup_ge_None in Hj.
        rewrite (lookup_ge_None_2 (nodes g') j) by lia. done. }
    destruct (Hperm (Link.source k)) as [-> _].
    destruct (Hperm (Link.target k)) as [_ ->]. done.
Qed.

Lemma placed_structure {B} (p : SankeyNode → B) config g :
  (∀ n, p (erase_depth n) = p n) → (∀ n, p (erase_value n) = p n) →
  (∀ n, p (erase_xw n) = p n) → (∀ n, p (erase_yh n) = p n) →
  p <$> placed config g = p <$> nodes g.
Proof.
  intros H1 H2 H3 H4. unfold placed.
  rewrite (erased_proj erase_yh p _ _ H4 (initializeNodeY_frame config _)).
  rewrite (erased_proj erase_xw p _ _ H3 (positionNodesX_frame config _)).
  rewrite (erased_proj erase_value p _ _ H2 (computeNodeValues_frame _ _)).
  apply (erased_proj erase_depth p _ _ H1 (computeDepths_frame config _ _)).
Qed.

Lemma compute_same_structure config g g' :
  compute config g = Some g' → same_structure g g'.
Proof.
  destruct (nodes g) as [|n0 ns0] eqn:Hns.
  { unfold compute. rewrite Hns. intros [= <-]. unfold same_structure.
    repeat split; try done. apply Forall_Forall2_diag, Forall_forall. done. }
  assert (Hne : nodes g ≠ []) by by rewrite Hns.
  clear Hns. intros Hc.
  destruct (compute_late_frame config g g' Hne Hc) as [Hn Hl].
  pose proof (placed_structure Node.id config g) as Hid.
  pose proof (placed_structure Node.sourceLinks config g) as Hsl.
  pose proof (placed_structure Node.targetLinks config g) as Htl.
  split; [|split; [|split; [|split]]].
  - rewrite <- Hid by done. apply list_eq_Forall2, Forall2_fmap, Forall2_flip.
    eapply Forall2_impl; [exact Hn|]. by intros n n' (->&_).
  - apply Forall2_same_length_lookup. split.
    { rewrite <- (Forall2_length _ _ _ Hn). symmetry.
      apply (fmap_eq_length _ _ _ (Hid ltac:(done) ltac:(done) ltac:(done) ltac:(done))). }
    intros i n n' Hi Hi'.
    destruct (Forall2_lookup_r _ _ _ _ _ Hn Hi') as (m & Hm & Hmn).
    destruct Hmn as (_&_&_&_&_&_&_&Hs&Ht).
    assert (H1 : Node.sourceLinks m = Node.sourceLinks n).
    { assert (H : (Node.sourceLinks <$> placed config g) !! i
                  = (Node.sourceLinks <$> nodes g) !! i) by by rewrite Hsl.
      rewrite !list_lookup_fmap, Hm, Hi in H. by injection H. }
    assert (H2 : Node.targetLinks m = Node.targetLinks n).
    { assert (H : (Node.targetLinks <$> placed config g) !! i
                  = (Node.targetLinks <$> nodes g) !! i) by by rewrite Htl.
      rewrite !list_lookup_fmap, Hm, Hi in H. by injection H. }
    by rewrite <- H1, <- H2.
  - apply list_eq_Forall2, Forall2_fmap, Forall2_flip.
    eapply Forall2_impl; [exact Hl|]. by intros k k' (->&_).
  - apply list_eq_Forall2, Forall2_fmap, Forall2_flip.
    eapply Forall2_impl; [exact Hl|]. by intros k k' (_&->&_).
  - apply list_eq_Forall2, Forall2_fmap, Forall2_flip.
    eapply Forall2_impl; [exact Hl|]. by intros k k' (_&_&->).
Qed.

Lemma wf_graph_compute config g g' :
  wf_graph g → compute config g = Some g' → wf_graph g'.
Proof.
  intros Hwf Hc. eapply wf_graph_same_structure; [|exact Hwf].
  by eapply compute_same_structure.
Qed.

(** In a well-formed graph the [sourceLinks] arrays of the nodes are disjoint
    and without repetition, and so are the [targetLinks] arrays; every
    reference is valid. *)
Lemma wf_graph_NoDup_sourceLinks g :
  wf_graph g →
  NoDup (mjoin (Node.sourceLinks <$> nodes g))
  ∧ ∀ l, l ∈ mjoin (Node.sourceLinks <$> nodes g) → (l < length (links g))%nat.
Proof.
  rewrite wf_graph_alt. intros (_ & Hn & _). split.
  - apply NoDup_join.
    + intros i l. rewrite list_lookup_fmap.
      destruct (nodes g !! i) as [n|] eqn:Hi; [|done]. intros [= <-].
      by destruct (Hn i n Hi) as (? & _).
    + intros i j l l' a. rewrite !list_lookup_fmap.
      destruct (nodes g !! i) as [n|] eqn:Hi; [|done]. intros [= <-].
      destruct (nodes g !! j) as [n'|] eqn:Hj; [|done]. intros [= <-].
      destruct (Hn i n Hi) as (_ & _ & H3 & _).
      destruct (Hn j n' Hj) as (_ & _ & H3' & _).
      rewrite Forall_forall in H3, H3'. intros Ha Ha'.
      specialize (H3 a Ha). specialize (H3' a Ha'). congruence.
  - intros l (sl & Hl & Hsl)%list_elem_of_join.
    apply list_elem_of_fmap in Hsl as (n & -> & Hn').
    apply list_elem_of_lookup in Hn' as [i Hi].
    destruct (Hn i n Hi) as (_ & _ & H3 & _).
    rewrite Forall_forall in H3. specialize (H3 l Hl).
    destruct (links g !! l) as [k|] eqn:Hk; [|done].
    by apply lookup_lt_Some in Hk.
Qed.

Lemma wf_graph_NoDup_targetLinks g :
  wf_graph g →
  NoDup (mjoin (Node.targetLinks <$> nodes g))
  ∧ ∀ l, l ∈ mjoin (Node.targetLinks <$> nodes g) → (l < length (links g))%nat.
Proof.
  rewrite wf_graph_alt. intros (_ & Hn & _). split.
  - apply NoDup_join.
    + intros i l. rewrite list_lookup_fmap.
      destruct (nodes g !! i) as [n|] eqn:Hi; [|done]. intros [= <-].
      by destruct (Hn i n Hi) as (_ & ? & _).
    + intros i j l l' a. rewrite !list_lookup_fmap.
      destruct (nodes g !! i) as [n|] eqn:Hi; [|done]. intros [= <-].
      destruct (nodes g !! j) as [n'|] eqn:Hj; [|done]. intros [= <-].
      destruct (Hn i n Hi) as (_ & _ & _ & H4).
      destruct (Hn j n' Hj) as (_ & _ & _ & H4').
      rewrite Forall_forall in H4, H4'. intros Ha Ha'.
      specialize (H4 a Ha). specialize (H4' a Ha'). congruence.
  - intros l (sl & Hl & Hsl)%list_elem_of_join.
    apply list_elem_of_fmap in Hsl as (n & -> & Hn').
    apply list_elem_of_lookup in Hn' as [i Hi].
    destruct (Hn i n Hi) as (_ & _ & _ & H4).
    rewrite Forall_forall in H4. specialize (H4 l Hl).
    destruct (links g !! l) as [k|] eqn:Hk; [|done].
    by apply lookup_lt_Some in Hk.
Qed.

(** ** Link widths and offsets after [compute] (C1, C2) *)


(** What [computeLinkOffsets] leaves in the links of a well-formed graph. *)
Lemma computeLinkOffsets_offsets g :
  let g' := computeLinkOffsets g in
  wf_graph g' →
  ∀ n, n ∈ nodes g' →
    (∀ l, l ∈ Node.sourceLinks n →
       Link.width (links g' !!! l)
       = sourceWidth (sumLinkValues (links g') (Node.sourceLinks n))
           (Node.height n) (links g' !!! l))
    ∧ tiles_from 0 (offsetsOf Link.sy (links g') (Node.sourceLinks n))
    ∧ tiles_from 0 (offsetsOf Link.ty (links g') (Node.targetLinks n)).
Proof.
  intros g' Hwf n Hn.
  destruct (wf_graph_NoDup_sourceLinks g' Hwf) as [Hnds Hrs].
  destruct (wf_graph_NoDup_targetLinks g' Hwf) as [Hndt Hrt].
  set (ls := links g) in *.
  set (ls_s := fold_left sourceSideNode (nodes g') ls).
  assert (Hlinks : links g' = fold_left targetSideNode (nodes g') ls_s)
    by apply computeLinkOffsets_links.
  assert (Hty : Link.set_ty 0 <$> links g' = Link.set_ty 0 <$> ls_s).
  { rewrite Hlinks. apply targetPass_width_sy. }
  assert (Hval : Link.value <$> links g' = Link.value <$> ls).
  { apply (erased_proj erase_offsets Link.value _ _ ltac:(done)
             (computeLinkOffsets_frame_links g)). }
  assert (Hlen_s : length ls_s = length ls).
  { unfold ls_s. rewrite sourcePass_scheme. apply offsetPass_length. }
  assert (Hlen : length (links g') = length ls).
  { apply (fmap_eq_length _ _ _ Hval). }
  (* the source pass *)
  destruct (offsetPass_spec Node.sourceLinks
              (λ n, sourceUpd (sumLinkValues ls (Node.sourceLinks n)) (Node.height n))
              Link.sy
              (λ n, sourceWidth (sumLinkValues ls (Node.sourceLinks n)) (Node.height n))
              ltac:(done) ltac:(done) ltac:(done)
              (nodes g') ls n Hnds) as [Hw Hsy]; [|done|].
  { intros l Hl. rewrite <- Hlen. by apply Hrs. }
  rewrite <- sourcePass_scheme in Hw, Hsy. fold ls_s in Hw, Hsy.
  (* the target pass *)
  destruct (offsetPass_spec Node.targetLinks (λ _, Link.set_ty) Link.ty
              (λ _, Link.width) ltac:(done) ltac:(done) ltac:(done)
              (nodes g') ls_s n Hndt) as [_ Hty']; [|done|].
  { intros l Hl. rewrite Hlen_s, <- Hlen. by apply Hrt. }
  rewrite <- targetPass_scheme, <- Hlinks in Hty'.
  split; [|split; [|done]].
  - intros l Hl.
    rewrite (lookup_total_fmap_pres Link.width (links g') ls_s l)
      by by apply (erased_proj (Link.set_ty 0) Link.width).
    rewrite Hw by done. unfold sourceWidth.
    rewrite (sumLinkValues_ext (links g') ls) by done.
    by rewrite (lookup_total_fmap_pres Link.value (links g') ls l).
  - replace (offsetsOf Link.sy (links g') (Node.sourceLinks n))
      with (offsetsOf Link.sy ls_s (Node.sourceLinks n)); [done|].
    unfold offsetsOf. apply list_fmap_ext. intros _ l _. f_equal; symmetry.
    + apply (lookup_total_fmap_pres Link.sy).
      by apply (erased_proj (Link.set_ty 0) Link.sy).
    + apply (lookup_total_fmap_pres Link.width).
      by apply (erased_proj (Link.set_ty 0) Link.width).
Qed.

Lemma compute_offsets config g g' :
  wf_graph g → compute config g = Some g' →
  ∀ n, n ∈ nodes g' →
    (∀ l, l ∈ Node.sourceLinks n →
       Link.width (links g' !!! l)
       = sourceWidth (sumLinkValues (links g') (Node.sourceLinks n))
           (Node.height n) (links g' !!! l))
    ∧ tiles_from 0 (offsetsOf Link.sy (links g') (Node.sourceLinks n))
    ∧ tiles_from 0 (offsetsOf Link.ty (links g') (Node.targetLinks n)).
Proof.
  intros Hwf Hc. pose proof (wf_graph_compute _ _ _ Hwf Hc) as Hwf'.
  destruct (nodes g) as [|n0 ns0] eqn:Hns.
  { unfold compute in Hc. rewrite Hns in Hc. injection Hc as <-.
    rewrite Hns. by intros n ?%elem_of_nil. }
  apply compute_stages in Hc as (ns1 & _ & ->); [|by rewrite Hns].
  by apply computeLinkOffsets_offsets.
Qed.



(** C1, as stated, fails on the chain A -10-> B -7-> C: the link B -> C gets
    the whole height of B (460) as its width, while C, of value 7, has height
    322; the incoming widths of C exceed its height by 138. *)
Lemma C1_incoming_widths_counterexample :
  ∃ g', compute DEFAULT_CONFIG chainGraph = Some g'
    ∧ ∃ n, n ∈ nodes g' ∧ Node.targetLinks n ≠ []
           ∧ Qc_sum (widthsOf (links g') (Node.targetLinks n)) - Node.height n
             = Qc_of_Z 138.
Proof.
  destruct (compute DEFAULT_CONFIG chainGraph) as [g'|] eqn:H.
  2:{ vm_compute in H. discriminate H. }
  exists g'. split; [done|]. run_compute H g'.
  eexists. split; [|split].
  - apply (list_elem_of_lookup_total_2 _ 2). vm_compute. lia.
  - vm_compute. discriminate.
  - apply Qc_eq_this. vm_compute. reflexivity.
Qed.

(** C1, amended: in a well-formed graph, after [compute], along the sorted
    [targetLinks] of every node the [ty] start at 0 and advance by the
    preceding link's width, and the width of each incoming link is the one
    fixed at its source node [s]: [value / outTotal(s) * height(s)] when the
    outgoing total of [s] is positive, 0 otherwise.  Nothing makes these
    widths sum to the target's own height. *)
Theorem C1_incoming_offsets_amended (config : SankeyConfig) (g g' : SankeyGraph) :
  wf_graph g →
  compute config g = Some g' →
  Forall
    (λ n,
       tiles_from 0 (offsetsOf Link.ty (links g') (Node.targetLinks n))
       ∧ ∀ l, l ∈ Node.targetLinks n →
           let k := links g' !!! l in
           let s := nodes g' !!! Link.source k in
           let outTotal := sumLinkValues (links g') (Node.sourceLinks s) in
           Link.width k
           = if decide (0 < outTotal)
             then Link.value k / outTotal * Node.height s else 0)
    (nodes g').
Proof.
  intros Hwf Hc. apply Forall_forall. intros n Hn.
  destruct (compute_offsets config g g' Hwf Hc n Hn) as (_ & _ & Hty).
  split; [done|]. intros l Hl k s outTotal.
  pose proof (wf_graph_compute _ _ _ Hwf Hc) as Hwf'.
  destruct (wf_graph_NoDup_targetLinks g' Hwf') as [_ Hrt].
  assert (Hlt : (l < length (links g'))%nat).
  { apply Hrt, list_elem_of_join. exists (Node.targetLinks n). split; [done|].
    apply list_elem_of_fmap. eauto. }
  apply wf_graph_alt in Hwf' as (_ & _ & Hlk).
  destruct (Hlk l k (list_lookup_lookup_total_lt _ _ Hlt)) as [Hsrc _].
  destruct (nodes g' !! Link.source k) as [s'|] eqn:Hs;
    [|by apply elem_of_nil in Hsrc].
  simpl in Hsrc.
  assert (Hs' : s = s') by (by apply list_lookup_total_correct).
  destruct (compute_offsets config g g' Hwf Hc s) as (Hw & _ & _).
  { rewrite Hs'. by apply list_elem_of_lookup_2 in Hs. }
  rewrite <- Hs' in Hsrc. by apply Hw.
Qed.

Lemma C1_incoming_offsets_amended_witness :
  ∃ g', compute DEFAULT_CONFIG chainGraph = Some g'
    ∧ Forall
        (λ n,
           tiles_from 0 (offsetsOf Link.ty (links g') (Node.targetLinks n))
           ∧ ∀ l, l ∈ Node.targetLinks n →
               let k := links g' !!! l in
               let s := nodes g' !!! Link.source k in
               let outTotal := sumLinkValues (links g') (Node.sourceLinks s) in
               Link.width k
               = if decide (0 < outTotal)
                 then Link.value k / outTotal * Node.height s else 0)
        (nodes g').
Proof.
  destruct compute_chainGraph_Some as [g' Hg']. exists g'. split; [done|].
  apply (C1_incoming_offsets_amended DEFAULT_CONFIG chainGraph g');
    [apply wf_graph_chainGraph | done].
Defined.

(** ** Vertical separation within a column (C4) *)

(** Node [a] ends, padding included, before node [b] starts. *)
Definition gap (config : SankeyConfig) (ns : list SankeyNode) (a b : nat) : Prop :=
  Node.y (ns !!! a) + Node.height (ns !!! a) + Config.nodePadding config
  ≤ Node.y (ns !!! b).

(** Each node of the list ends before the next one starts. *)
Definition chain (config : SankeyConfig) (ns : list SankeyNode)
    (column : list nat) : Prop :=
  ∀ k a b, column !! k = Some a → column !! S k = Some b → gap config ns a b.


Section Chain.
Variable config : SankeyConfig.



Lemma gap_ext ns ns' a b :
  ns' !! a = ns !! a → ns' !! b = ns !! b → gap config ns a b → gap config ns' a b.
Proof. unfold gap. rewrite !list_lookup_total_alt. by intros -> ->. Qed.

Lemma chain_ext ns ns' column :
  (∀ a, a ∈ column → ns' !! a = ns !! a) →
  chain config ns column → chain config ns' column.
Proof.
  intros Hext Hc k a b Hk Hk'.
  apply (gap_ext ns); [apply Hext | apply Hext | by apply (Hc k)];
    by eapply list_elem_of_lookup_2.
Qed.



(** A sweep that visits the nodes of a column in order, leaves each at or
    below the running [y], and advances [y] past it. *)
Section Stack.
Variable step : list SankeyNode * Qc → nat → list SankeyNode * Qc.
Hypothesis step_other :
  ∀ ns y a b, b ≠ a → (step (ns, y) a).1 !! b = ns !! b.
Hypothesis step_length : ∀ ns y a, length (step (ns, y) a).1 = length ns.
Hypothesis step_at :
  ∀ ns y a, (a < length ns)%nat →
    y ≤ Node.y ((step (ns, y) a).1 !!! a)
    ∧ (step (ns, y) a).2
      = Node.y ((step (ns, y) a).1 !!! a)
        + Node.height ((step (ns, y) a).1 !!! a) + Config.nodePadding config.



End Stack.
End Chain.

Lemma elem_of_rev {A} (a : A) (l : list A) : a ∈ rev l ↔ a ∈ l.
Proof. rewrite !list_elem_of_In. symmetry. apply in_rev. Qed.

Section Collisions.
Variable config : SankeyConfig.







(** The bottom-up sweep. *)
Lemma pushUp_length column ns i : length (pushUp config column ns i) = length ns.
Proof. unfold pushUp. case_decide; [apply length_alter | done]. Qed.



Lemma pushUp_sweep_length column m ns :
  length (fold_left (pushUp config column) (rev (seq 0 m)) ns) = length ns.
Proof.
  apply (fold_left_inv (λ acc, length acc = length ns)); [done|].
  intros ns1 i _ <-. apply pushUp_length.
Qed.


End Collisions.






Section Relax.
Variable config : SankeyConfig.
Hypothesis pad_nonneg : 0 ≤ Config.nodePadding config.









End Relax.




(** ** The breadth-first layering of [computeDepths] *)

Definition targetsOf (ls : list SankeyLink) (n : SankeyNode) : list nat :=
  (λ l, Link.target (ls !!! l)) <$> Node.sourceLinks n.

Lemma pushTargets_spec ls ns visited next sl :
  pushTargets ls ns visited next sl
  = next ++ filter (λ t, Node.id (ns !!! t) ∉ visited)
              ((λ l, Link.target (ls !!! l)) <$> sl).
Proof.
  unfold pushTargets. revert next.
  induction sl as [|l sl IH]; intros next.
  - simpl. by rewrite app_nil_r.
  - rewrite fmap_cons, filter_cons. cbn [fold_left]. rewrite IH.
    destruct (decide (Node.id (ns !!! Link.target (ls !!! l)) ∈ visited));
      destruct (decide (Node.id (ns !!! Link.target (ls !!! l)) ∉ visited));
      try done.
    by rewrite <- app_assoc.
Qed.

Lemma NoDup_fmap_lookup {A B} (f : A → B) (l : list A) i j a b :
  NoDup (f <$> l) → l !! i = Some a → l !! j = Some b → f a = f b → i = j.
Proof.
  intros Hnd Hi Hj Hab.
  apply (NoDup_lookup (f <$> l) i j (f a)); [done | |].
  - by rewrite list_lookup_fmap, Hi.
  - by rewrite list_lookup_fmap, Hj, Hab.
Qed.

Section BFS.
Variable ls : list SankeyLink.
Variable ns0 : list SankeyNode.
Hypothesis ids_unique : NoDup (Node.id <$> ns0).
Hypothesis targets_valid :
  ∀ i t, (i < length ns0)%nat → t ∈ targetsOf ls (ns0 !!! i) →
         (t < length ns0)%nat.

Definition idOf (i : nat) : string := Node.id (ns0 !!! i).

(** [ns] is [ns0] up to the depths. *)
Definition same_graph (ns : list SankeyNode) : Prop :=
  erase_depth <$> ns = erase_depth <$> ns0.

Lemma same_graph_length ns : same_graph ns → length ns = length ns0.
Proof. apply fmap_eq_length. Qed.

Lemma same_graph_id ns i : same_graph ns → Node.id (ns !!! i) = idOf i.
Proof.
  intros Hs. apply (lookup_total_fmap_pres Node.id).
  by apply (erased_proj erase_depth Node.id).
Qed.

Lemma same_graph_sourceLinks ns i :
  same_graph ns → Node.sourceLinks (ns !!! i) = Node.sourceLinks (ns0 !!! i).
Proof.
  intros Hs. apply (lookup_total_fmap_pres Node.sourceLinks).
  by apply (erased_proj erase_depth Node.sourceLinks).
Qed.

Lemma idOf_inj i j :
  (i < length ns0)%nat → (j < length ns0)%nat → idOf i = idOf j → i = j.
Proof.
  intros Hi Hj. unfold idOf.
  apply (NoDup_fmap_lookup Node.id ns0); [done | |];
    by apply list_lookup_lookup_total_lt.
Qed.

(** The state of the inner loop at level [d], started from the visited set
    [V0] and the nodes [nsA], after some turns. *)
Definition level_inv (d : nat) (V0 : gset string) (nsA : list SankeyNode)
    (acc : gset string * list SankeyNode * list nat) : Prop :=
  V0 ⊆ acc.1.1
  ∧ same_graph acc.1.2
  ∧ (∀ i, (i < length ns0)%nat →
          Node.depth (acc.1.2 !!! i)
          = if decide (idOf i ∈ acc.1.1 ∖ V0) then d else Node.depth (nsA !!! i))
  ∧ (∀ t, t ∈ acc.2 →
          (t < length ns0)%nat
          ∧ ∃ i, (i < length ns0)%nat ∧ idOf i ∈ acc.1.1 ∖ V0
                 ∧ t ∈ targetsOf ls (ns0 !!! i))
  ∧ (∀ i t, (i < length ns0)%nat → idOf i ∈ acc.1.1 ∖ V0 →
            t ∈ targetsOf ls (ns0 !!! i) → idOf t ∉ acc.1.1 → t ∈ acc.2).

Lemma visitNode_level_inv d V0 nsA acc j :
  (j < length ns0)%nat →
  level_inv d V0 nsA acc → level_inv d V0 nsA (visitNode ls d acc j).
Proof.
  destruct acc as [[Vc nsc] next]. intros Hj (H1 & H2 & H3 & H4 & H5).
  simpl in *. unfold visitNode.
  rewrite (same_graph_id nsc j H2).
  destruct (decide (idOf j ∈ Vc)) as [Hin|Hnin]; [done|].
  assert (H2' : same_graph (alter (Node.set_depth d) j nsc)).
  { unfold same_graph. rewrite <- H2. apply fmap_alter_pres. done. }
  rewrite pushTargets_spec, (same_graph_sourceLinks nsc j H2).
  assert (Hfilter : ∀ t,
    t ∈ filter (λ t, Node.id (alter (Node.set_depth d) j nsc !!! t)
                     ∉ {[idOf j]} ∪ Vc)
          ((λ l, Link.target (ls !!! l)) <$> Node.sourceLinks (ns0 !!! j))
    ↔ t ∈ targetsOf ls (ns0 !!! j) ∧ idOf t ∉ {[idOf j]} ∪ Vc).
  { intros t. rewrite list_elem_of_filter, (same_graph_id _ t H2'). tauto. }
  split; [|split; [|split; [|split]]]; simpl.
  - set_solver.
  - done.
  - intros i Hi. destruct (decide (i = j)) as [->|Hij].
    + rewrite lookup_total_alter_eq by by rewrite (same_graph_length nsc).
      simpl. rewrite decide_True; [done|].
      apply elem_of_difference. split; [set_solver|]. set_solver.
    + rewrite lookup_total_alter_ne by done. rewrite H3 by done.
      assert (Hne : idOf i ≠ idOf j) by (intros ?; by apply Hij, idOf_inj).
      destruct (decide (idOf i ∈ Vc ∖ V0)) as [Hv|Hv].
      * rewrite decide_True; [done | set_solver].
      * rewrite decide_False; [done | set_solver].
  - intros t [Ht|Ht]%elem_of_app.
    + destruct (H4 t Ht) as (Hlt & i & Hi & Hv & Hti). split; [done|].
      exists i. split; [done|]. split; [set_solver | done].
    + apply Hfilter in Ht as [Ht _]. split; [by apply (targets_valid j)|].
      exists j. split; [done|]. split; [set_solver | done].
  - intros i t Hi Hv Ht Hnt. apply elem_of_app.
    destruct (decide (i = j)) as [->|Hij].
    + right. by apply Hfilter.
    + left. apply (H5 i); [done | | done | set_solver].
      assert (Hne : idOf i ≠ idOf j) by (intros ?; by apply Hij, idOf_inj).
      set_solver.
Qed.

Lemma visitNode_visits d acc j :
  same_graph acc.1.2 → idOf j ∈ (visitNode ls d acc j).1.1.
Proof.
  destruct acc as [[Vc nsc] next]. simpl. intros H2. unfold visitNode.
  rewrite (same_graph_id nsc j H2).
  destruct (decide (idOf j ∈ Vc)); simpl; [done | set_solver].
Qed.

Lemma visitNode_visited_bound d acc j :
  same_graph acc.1.2 → (visitNode ls d acc j).1.1 ⊆ {[idOf j]} ∪ acc.1.1.
Proof.
  destruct acc as [[Vc nsc] next]. simpl. intros H2. unfold visitNode.
  rewrite (same_graph_id nsc j H2).
  destruct (decide (idOf j ∈ Vc)); simpl; set_solver.
Qed.

(** One level of the traversal. *)
Lemma level_spec d V nsA current :
  same_graph nsA → (∀ i, i ∈ current → (i < length ns0)%nat) →
  let r := fold_left (visitNode ls d) current (V, nsA, []) in
  level_inv d V nsA r
  ∧ r.1.1 = V ∪ list_to_set (idOf <$> current).
Proof.
  intros HA Hcur r.
  destruct (fold_left_inv_elems
              (λ acc, level_inv d V nsA acc
                      ∧ acc.1.1 ⊆ V ∪ list_to_set (idOf <$> current))
              (λ i acc, idOf i ∈ acc.1.1)
              (visitNode ls d) current (V, nsA, [])) as [[HP Hsub] HQ].
  - split; [|simpl; set_solver].
    split; [done|]. split; [done|]. split; [|split].
    + intros i Hi. simpl. rewrite decide_False; [done | set_solver].
    + by intros t ?%elem_of_nil.
    + simpl. intros i t _ Hv. set_solver.
  - intros acc i Hi [Hinv Hsub]. split; [split|].
    + apply visitNode_level_inv; [by apply Hcur | done].
    + destruct Hinv as (_ & H2 & _).
      pose proof (visitNode_visited_bound d acc i H2) as Hb.
      assert (idOf i ∈ (list_to_set (idOf <$> current) : gset string)).
      { apply elem_of_list_to_set, list_elem_of_fmap. eauto. }
      set_solver.
    + destruct Hinv as (_ & H2 & _). by apply visitNode_visits.
  - intros acc i i' Hi Hi' [Hinv _] Hq.
    pose proof (visitNode_level_inv d V nsA acc i (Hcur i Hi) Hinv) as (H1' & _).
    destruct acc as [[Vc nsc] next]. unfold visitNode in *. simpl in *.
    destruct (decide (_ ∈ Vc)); simpl in *; set_solver.
  - split; [done|]. apply set_eq. intros s. split.
    + intros Hs. by apply Hsub.
    + intros [Hs|Hs]%elem_of_union.
      * destruct HP as (H1 & _). by apply H1.
      * apply elem_of_list_to_set, list_elem_of_fmap in Hs as (i & -> & Hi).
        by apply HQ.
Qed.
End BFS.

Section BFSLoop.
Variable ls : list SankeyLink.
Variable ns0 : list SankeyNode.
Hypothesis ids_unique : NoDup (Node.id <$> ns0).
Hypothesis targets_valid :
  ∀ i t, (i < length ns0)%nat → t ∈ targetsOf ls (ns0 !!! i) →
         (t < length ns0)%nat.

Notation idOf := (idOf ns0).
Notation same_graph := (same_graph ns0).

Definition idSet : gset string := list_to_set (Node.id <$> ns0).

Lemma idOf_idSet i : (i < length ns0)%nat → idOf i ∈ idSet.
Proof.
  intros Hi. apply elem_of_list_to_set, list_elem_of_fmap.
  exists (ns0 !!! i). split; [done|]. by apply list_elem_of_lookup_total_2.
Qed.

Lemma level_visited_idSet current V :
  (∀ i, i ∈ current → (i < length ns0)%nat) → V ⊆ idSet →
  V ∪ list_to_set (idOf <$> current) ⊆ idSet.
Proof.
  intros Hcur HV s [Hs|Hs]%elem_of_union; [by apply HV|].
  apply elem_of_list_to_set, list_elem_of_fmap in Hs as (i & -> & Hi).
  by apply idOf_idSet, Hcur.
Qed.

(** Enough fuel: the loop ends with an empty frontier. *)
Lemma bfsLoop_Some fuel current d V nsA :
  same_graph nsA → (∀ i, i ∈ current → (i < length ns0)%nat) →
  V ⊆ idSet → (size (idSet ∖ V) + 2 ≤ fuel)%nat →
  ∃ r, bfsLoop fuel ls current d V nsA = Some r.
Proof.
  revert current d V nsA.
  induction fuel as [|fuel IH]; intros current d V nsA HA Hcur HV Hfuel; [lia|].
  simpl. destruct current as [|c current]; [eauto|].
  pose proof (level_spec ls ns0 ids_unique targets_valid d V nsA (c :: current)
                HA Hcur) as [Hinv HV'].
  destruct (fold_left _ (c :: current) _) as [[V' ns'] next] eqn:Hfold.
  destruct Hinv as (H1 & H2 & H3 & H4 & H5). simpl in H1, H2, H3, H4, H5. cbn [fst snd] in HV'.
  assert (HV'sub : V' ⊆ idSet).
  { rewrite HV'. by apply level_visited_idSet. }
  destruct (decide (V' ⊆ V)) as [Hsub|Hsub].
  - assert (Hnext : next = []).
    { destruct next as [|t next]; [done|].
      destruct (H4 t) as (_ & i & _ & Hi & _); [left|]. set_solver. }
    subst next. destruct fuel as [|fuel]; [lia|]. simpl. eauto.
  - apply IH; [done | | done |].
    + intros t Ht. by apply H4.
    + assert (Hlt : idSet ∖ V' ⊂ idSet ∖ V).
      { split; [set_solver|]. intros Hback. apply Hsub. intros s Hs.
        destruct (decide (s ∈ V)) as [|Hn]; [done|].
        assert (s ∈ idSet ∖ V) by set_solver.
        apply Hback in H. set_solver. }
      apply subset_size in Hlt. lia.
Qed.

(** Among the visited nodes, one of depth [k] has an outgoing link. *)
Definition nonsink (V : gset string) (ns : list SankeyNode) (k : nat) : Prop :=
  ∃ i, (i < length ns0)%nat ∧ idOf i ∈ V ∧ Node.depth (ns !!! i) = k
       ∧ Node.sourceLinks (ns0 !!! i) ≠ [].

Definition bfs_inv (d : nat) (V : gset string) (ns : list SankeyNode)
    (current : list nat) : Prop :=
  same_graph ns
  ∧ (∀ i, i ∈ current → (i < length ns0)%nat)
  ∧ (∀ i, (i < length ns0)%nat → idOf i ∈ V → (Node.depth (ns !!! i) < d)%nat)
  ∧ (∀ i k, (i < length ns0)%nat → idOf i ∈ V →
            (k < Node.depth (ns !!! i))%nat → nonsink V ns k)
  ∧ (current ≠ [] → ∀ k, d = S k → nonsink V ns k).

Lemma bfsLoop_layers fuel current d V nsA Vf nsf :
  bfs_inv d V nsA current →
  bfsLoop fuel ls current d V nsA = Some (Vf, nsf) →
  same_graph nsf
  ∧ V ∪ list_to_set (idOf <$> current) ⊆ Vf
  ∧ (∀ i k, (i < length ns0)%nat → idOf i ∈ Vf →
            (k < Node.depth (nsf !!! i))%nat → nonsink Vf nsf k).
Proof.
  revert current d V nsA.
  induction fuel as [|fuel IH]; intros current d V nsA Hinv; [done|].
  destruct Hinv as (HA & Hcur & I1 & I3 & I4).
  simpl. destruct current as [|c current].
  { intros [= <- <-]. split; [done|]. split; [set_solver | done]. }
  pose proof (level_spec ls ns0 ids_unique targets_valid d V nsA (c :: current)
                HA Hcur) as [Hlevel HV'].
  destruct (fold_left _ (c :: current) _) as [[V' ns'] next] eqn:Hfold.
  destruct Hlevel as (H1 & H2 & H3 & H4 & H5). simpl in H1, H2, H3, H4, H5. cbn [fst snd] in HV'.
  intros Hloop.
  assert (Hkeep : ∀ k, nonsink V nsA k → nonsink V' ns' k).
  { intros k (i & Hi & Hv & Hd & Hs). exists i. split; [done|].
    split; [set_solver|]. split; [|done].
    rewrite H3 by done. rewrite decide_False; [done | set_solver]. }
  destruct (IH next (S d) V' ns') as (Hf1 & Hf2 & Hf3); [|done|].
  - split; [done|]. split; [intros t Ht; by apply H4|]. split; [|split].
    + intros i Hi Hv. rewrite H3 by done. case_decide; [lia|].
      assert (idOf i ∈ V) by set_solver. specialize (I1 i Hi H0). lia.
    + intros i k Hi Hv. rewrite H3 by done.
      destruct (decide (idOf i ∈ V' ∖ V)) as [Hnew|Hold]; intros Hk.
      * destruct d as [|d']; [lia|].
        destruct (I4 ltac:(done) d' eq_refl) as (w & Hw & Hwv & Hwd & Hws).
        destruct (decide (k = d')) as [->|Hne].
        -- apply Hkeep. by exists w.
        -- apply Hkeep, (I3 w); [done..|lia].
      * apply Hkeep, (I3 i); [done | set_solver | done].
    + intros Hnext k [= <-].
      destruct next as [|t next']; [done|].
      destruct (H4 t) as (_ & i & Hi & Hv & Ht); [left|].
      exists i. split; [done|]. split; [set_solver|]. split.
      * rewrite H3 by done. by rewrite decide_True.
      * unfold targetsOf in Ht. intros Hnil. rewrite Hnil in Ht.
        by apply elem_of_nil in Ht.
  - split; [done|]. split; [|done]. rewrite <- HV'. set_solver.
Qed.
End BFSLoop.

(** ** No empty column after [computeDepths] *)

(** Every depth below the largest holds a node with an outgoing link. *)
Definition layered (ns : list SankeyNode) : Prop :=
  ∀ k, (k < maxDepthOf ns)%nat →
    ∃ i, (i < length ns)%nat ∧ Node.depth (ns !!! i) = k
         ∧ Node.sourceLinks (ns !!! i) ≠ [].

Definition columns_inhabited (ns : list SankeyNode) : Prop :=
  ∀ d, (d ≤ maxDepthOf ns)%nat →
    ∃ i, (i < length ns)%nat ∧ Node.depth (ns !!! i) = d.

Lemma maxDepthOf_attained ns :
  ns ≠ [] → ∃ i, (i < length ns)%nat ∧ Node.depth (ns !!! i) = maxDepthOf ns.
Proof.
  intros Hne. unfold maxDepthOf.
  assert (Hin : max_list (Node.depth <$> ns) ∈ Node.depth <$> ns).
  { apply max_list_elem_of. by destruct ns. }
  apply list_elem_of_fmap in Hin as (n & Hn & Hin).
  apply list_elem_of_lookup in Hin as [i Hi]. exists i. split.
  - by eapply lookup_lt_Some.
  - by rewrite (list_lookup_total_correct _ _ _ Hi).
Qed.

Lemma maxDepthOf_le ns L :
  (∀ i, (i < length ns)%nat → (Node.depth (ns !!! i) ≤ L)%nat) →
  (maxDepthOf ns ≤ L)%nat.
Proof.
  intros Hall. destruct ns as [|n ns]; [unfold maxDepthOf; simpl; lia|].
  destruct (maxDepthOf_attained (n :: ns)) as (i & Hi & <-); [done|].
  by apply Hall.
Qed.

Lemma layered_columns_inhabited ns :
  ns ≠ [] → layered ns → columns_inhabited ns.
Proof.
  intros Hne Hl d Hd. destruct (decide (d = maxDepthOf ns)) as [->|Hlt].
  - by apply maxDepthOf_attained.
  - destruct (Hl d) as (i & Hi & Hdi & _); [lia|]. eauto.
Qed.

Lemma lookup_total_fmap_lt {A B} `{Inhabited A} `{Inhabited B}
    (f : A → B) (l : list A) (i : nat) :
  (i < length l)%nat → (f <$> l) !!! i = f (l !!! i).
Proof. intros Hi. by apply list_lookup_total_fmap. Qed.

Lemma justify_layered config ns :
  ns ≠ [] → layered ns → layered (justify config ns).
Proof.
  intros Hne Hl. unfold justify. case_decide as Hal; [|done].
  set (L := maxDepthOf ns).
  set (f := λ n, if decide (Node.sourceLinks n = [] ∧ (Node.depth n < L)%nat)
                 then Node.set_depth L n else n).
  assert (Hlook : ∀ i, (i < length ns)%nat → (f <$> ns) !!! i = f (ns !!! i)).
  { intros i Hi. by apply lookup_total_fmap_lt. }
  assert (Hmax : maxDepthOf (f <$> ns) = L).
  { apply Nat.le_antisymm.
    - apply maxDepthOf_le. intros i Hi. rewrite length_fmap in Hi.
      rewrite Hlook by done. unfold f. case_decide; simpl; [done|].
      by apply depth_le_maxDepthOf.
    - destruct (maxDepthOf_attained ns Hne) as (i & Hi & Hd). fold L in Hd.
      rewrite <- Hd at 1.
      replace (Node.depth (ns !!! i)) with (Node.depth ((f <$> ns) !!! i)).
      { apply depth_le_maxDepthOf. by rewrite length_fmap. }
      rewrite Hlook by done. unfold f. case_decide as Hc; [|done]. lia. }
  intros k Hk. rewrite Hmax in Hk.
  destruct (Hl k Hk) as (i & Hi & Hd & Hs). exists i.
  rewrite length_fmap, Hlook by done. unfold f.
  rewrite decide_False by tauto. done.
Qed.

Section Depths.
Variable config : SankeyConfig.
Variable ls : list SankeyLink.
Variable ns0 : list SankeyNode.
Hypothesis nodes_nonempty : ns0 ≠ [].
Hypothesis ids_unique : NoDup (Node.id <$> ns0).
Hypothesis targets_valid :
  ∀ i t, (i < length ns0)%nat → t ∈ targetsOf ls (ns0 !!! i) →
         (t < length ns0)%nat.

Lemma sourcesOf_valid i : i ∈ sourcesOf ns0 → (i < length ns0)%nat.
Proof.
  unfold sourcesOf. intros [_ Hi%elem_of_seq]%list_elem_of_filter. lia.
Qed.

(** The traversal of [computeDepths] ends within its fuel. *)
Lemma computeDepths_bfs_terminates :
  ∃ r, bfsLoop (bfsFuel ns0) ls (sourcesOf ns0) 0 ∅ ns0 = Some r.
Proof.
  apply (bfsLoop_Some ls ns0 ids_unique targets_valid);
    [done | apply sourcesOf_valid | set_solver |].
  unfold bfsFuel, idSet.
  assert (size (list_to_set (Node.id <$> ns0) ∖ ∅ : gset string)
          ≤ length ns0)%nat; [|lia].
  rewrite difference_empty_L, size_list_to_set by done.
  by rewrite length_fmap.
Qed.

Lemma markUnvisited_lookup V ns i :
  (i < length ns)%nat →
  markUnvisited V ns !!! i
  = if decide (Node.id (ns !!! i) ∈ V) then ns !!! i
    else Node.set_depth 0 (ns !!! i).
Proof. intros Hi. unfold markUnvisited. by rewrite lookup_total_fmap_lt. Qed.

Lemma computeDepths_layered : layered (computeDepths config ls ns0).
Proof.
  unfold computeDepths.
  destruct (sourcesOf ns0) as [|s srcs] eqn:Hsrc.
  { intros k Hk. rewrite maxDepthOf_zero in Hk; [lia|].
    by intros n (m & -> & _)%list_elem_of_fmap. }
  destruct computeDepths_bfs_terminates as [[Vf nsf] Hloop].
  rewrite Hsrc in Hloop. rewrite Hloop.
  assert (Hinv : bfs_inv ns0 0 ∅ ns0 (s :: srcs)).
  { split; [done|]. split.
    - intros i Hi. apply sourcesOf_valid. by rewrite Hsrc.
    - split; [set_solver|]. split; [set_solver|]. done. }
  destruct (bfsLoop_layers ls ns0 ids_unique targets_valid _ _ _ _ _ _ _
              Hinv Hloop) as (Hsame & Hvis & Hlay).
  assert (Hlen : length nsf = length ns0) by by apply same_graph_length.
  set (nsm := markUnvisited Vf nsf).
  assert (Hlenm : length nsm = length ns0).
  { unfold nsm, markUnvisited. by rewrite length_fmap. }
  assert (Hne : nsm ≠ []).
  { intros Heq. rewrite Heq in Hlenm. by destruct ns0. }
  apply justify_layered; [done|].
  assert (Hm : ∀ i, (i < length ns0)%nat →
             nsm !!! i = if decide (idOf ns0 i ∈ Vf) then nsf !!! i
                         else Node.set_depth 0 (nsf !!! i)).
  { intros i Hi. unfold nsm. rewrite markUnvisited_lookup by lia.
    by rewrite (same_graph_id ns0 nsf i Hsame). }
  intros k Hk.
  destruct (maxDepthOf_attained nsm Hne) as (i & Hi & Hd).
  rewrite Hlenm in Hi. rewrite Hm in Hd by done.
  destruct (decide (idOf ns0 i ∈ Vf)) as [Hv|Hv]; [|simpl in Hd; lia].
  destruct (Hlay i k Hi Hv ltac:(lia)) as (w & Hw & Hwv & Hwd & Hws).
  exists w. split; [lia|]. rewrite Hm by done. rewrite decide_True by done.
  split; [done|]. by rewrite (same_graph_sourceLinks ns0 nsf w Hsame).
Qed.

Lemma computeDepths_columns_inhabited :
  columns_inhabited (computeDepths config ls ns0).
Proof.
  apply layered_columns_inhabited; [|apply computeDepths_layered].
  intros Heq.
  pose proof (fmap_eq_length _ _ _ (computeDepths_frame config ls ns0)) as Hl.
  rewrite Heq in Hl. by destruct ns0.
Qed.
End Depths.

(** ** Relaxation raises nothing when no column is empty *)

Lemma fold_option_Some {A B} (P : A → Prop) (f : option A → B → option A)
    (l : list B) (a : A) :
  P a →
  (∀ a b, b ∈ l → P a → ∃ a', f (Some a) b = Some a' ∧ P a') →
  ∃ a', fold_left f l (Some a) = Some a' ∧ P a'.
Proof.
  revert a. induction l as [|b l IH]; intros a Ha Hstep; simpl; [eauto|].
  destruct (Hstep a b) as (a1 & -> & Ha1); [left | done |].
  apply IH; [done|]. intros a2 b2 Hb2. apply Hstep. by right.
Qed.

Section RelaxSome.
Variable config : SankeyConfig.

Lemma resolveCollisions_Some column ns :
  column ≠ [] →
  ∃ column' ns', resolveCollisions config column ns = Some (column', ns')
                 ∧ column' ≠ [].
Proof.
  intros Hne. unfold resolveCollisions.
  set (sorted := sort_by _ column).
  assert (Hlen : length sorted = length column) by apply sort_by_length.
  assert (Hne' : sorted ≠ []).
  { intros Heq. rewrite Heq in Hlen. by destruct column. }
  destruct (lookup_lt_is_Some_2 sorted (length sorted - 1)) as [lasti ->].
  { destruct sorted; [done | simpl; lia]. }
  case_decide; eauto.
Qed.

Definition columns_nonempty (acc : list (list nat) * list SankeyNode) : Prop :=
  Forall (λ column, column ≠ []) acc.1.

Lemma relaxColumn_Some ls dir damp columns ns c :
  (c < length columns)%nat → columns_nonempty (columns, ns) →
  ∃ acc', relaxColumn config ls dir damp (Some (columns, ns)) c = Some acc'
          ∧ columns_nonempty acc' ∧ length acc'.1 = length columns.
Proof.
  intros Hc Hall. unfold relaxColumn. simpl.
  assert (Hcol : columns !!! c ≠ []).
  { unfold columns_nonempty in Hall. rewrite Forall_forall in Hall.
    apply Hall, list_elem_of_lookup_total_2, Hc. }
  destruct (resolveCollisions_Some (columns !!! c)
              (fold_left (moveNode ls dir damp) (columns !!! c) ns) Hcol)
    as (column' & ns' & -> & Hne').
  simpl. eexists. split; [done|]. split; [|simpl; apply length_insert].
  unfold columns_nonempty in *. simpl. rewrite Forall_forall in *.
  intros column [j Hj]%list_elem_of_lookup_1 Hnil.
  apply list_lookup_insert_Some in Hj as [(-> & <- & _)|(_ & Hj)]; [done|].
  apply (Hall column); [|done]. by eapply list_elem_of_lookup_2.
Qed.

Lemma relaxPass_Some ls dir damp cs columns ns :
  (∀ c, c ∈ cs → (c < length columns)%nat) → columns_nonempty (columns, ns) →
  ∃ acc', fold_left (relaxColumn config ls dir damp) cs (Some (columns, ns))
          = Some acc'
          ∧ columns_nonempty acc' ∧ length acc'.1 = length columns.
Proof.
  intros Hcs Hall.
  apply (fold_option_Some
           (λ acc, columns_nonempty acc ∧ length acc.1 = length columns));
    [done|].
  intros [cols1 ns1] c Hc [H1 H2]. simpl in H2.
  destruct (relaxColumn_Some ls dir damp cols1 ns1 c) as (acc' & -> & H3 & H4);
    [rewrite H2; by apply Hcs | done |].
  eexists. split; [done|]. split; [done | congruence].
Qed.

Lemma relaxNodePositions_Some ls ns :
  columns_inhabited ns → ∃ ns', relaxNodePositions config ls ns = Some ns'.
Proof.
  intros Hin. unfold relaxNodePositions.
  destruct (fold_option_Some columns_nonempty (relaxIteration config ls)
              (seq 0 (Config.iterations config)) (getColumns ns, ns))
    as (acc' & -> & _); [| |by eexists].
  - unfold columns_nonempty. simpl. apply Forall_forall.
    intros column [d [Hd ->]%getColumns_lookup]%list_elem_of_lookup.
    destruct (Hin d Hd) as (i & Hi & Hdi). intros Hnil.
    assert (Hmem : i ∈ columnOf ns d) by by apply elem_of_columnOf.
    rewrite Hnil in Hmem. by apply elem_of_nil in Hmem.
  - intros [cols1 ns1] i _ H1. unfold relaxIteration. simpl.
    destruct (relaxPass_Some ls DirTarget (damping config i)
                (seq 1 (length cols1 - 1)) cols1 ns1)
      as ([cols2 ns2] & -> & H2 & H3); [|done|].
    { intros c Hc%elem_of_seq. lia. }
    simpl in *.
    destruct (relaxPass_Some ls DirSource (damping config i)
                (rev (seq 0 (length cols2 - 1))) cols2 ns2)
      as (acc3 & -> & H4 & _); [|done|].
    { intros c Hc%elem_of_rev%elem_of_seq. lia. }
    eauto.
Qed.
End RelaxSome.

(** ** No exception on graphs with unique ids (C7) *)

(** Every outgoing link of every node ends at a node of the collection. *)
Definition endpoints_valid (g : SankeyGraph) : Prop :=
  Forall
    (λ n, Forall (λ t, (t < length (nodes g))%nat) (targetsOf (links g) n))
    (nodes g).

(** Two nodes share the id "X"; the second one carries depth 1 from an
    earlier layout. *)
Definition duplicateIdGraph : SankeyGraph :=
  mkGraph
    [Node.mk "X" "X" 0 0 0 0 0 0 [] []; Node.mk "X" "X" 0 1 0 0 0 0 [] []] [].

(** A zero-value link A -0-> B and an isolated node C. *)
Definition degenerateGraph : SankeyGraph :=
  mkGraph
    [makeNode "A" [0%nat] []; makeNode "B" [] [0%nat]; makeNode "C" [] []]
    [makeLink 0 1 0].

Lemma columns_inhabited_ext ns ns' :
  Node.depth <$> ns = Node.depth <$> ns' →
  columns_inhabited ns' → columns_inhabited ns.
Proof.
  intros Heq Hin d Hd. unfold maxDepthOf in Hd. rewrite Heq in Hd.
  destruct (Hin d Hd) as (i & Hi & Hdi). exists i.
  rewrite (fmap_eq_length _ _ _ Heq). split; [done|].
  by rewrite (lookup_total_fmap_pres Node.depth ns ns' i Heq).
Qed.

(** C7, as stated, fails on a malformed graph: with two nodes of the same id
    the traversal marks the id visited at the first node and never assigns a
    depth to the second; its stale depth 1 opens a column that the justify
    step empties, and [resolveCollisions] reads [last.y] of an empty column. *)
Lemma C7_no_exception_counterexample :
  compute DEFAULT_CONFIG duplicateIdGraph = None.
Proof. vm_compute. reflexivity. Qed.

(** C7, amended: [compute] raises no exception on any graph whose node ids
    are unique and whose links end at nodes of the collection, whatever the
    configuration (this covers the empty graph, a single node, cycles,
    disconnected components and zero-value links); the traversal of
    [computeDepths] terminates; and the empty graph is returned unchanged. *)
Theorem C7_no_exception_amended (config : SankeyConfig) (g : SankeyGraph) :
  NoDup (Node.id <$> nodes g) →
  endpoints_valid g →
  (∃ g', compute config g = Some g')
  ∧ (nodes g ≠ [] →
     ∃ r, bfsLoop (bfsFuel (nodes g)) (links g) (sourcesOf (nodes g)) 0 ∅ (nodes g)
          = Some r)
  ∧ (nodes g = [] → compute config g = Some g).
Proof.
  intros Hids Hends.
  assert (Htargets : ∀ i t, (i < length (nodes g))%nat →
            t ∈ targetsOf (links g) (nodes g !!! i) → (t < length (nodes g))%nat).
  { intros i t Hi Ht. unfold endpoints_valid in Hends.
    rewrite Forall_forall in Hends.
    specialize (Hends (nodes g !!! i) (list_elem_of_lookup_total_2 _ _ Hi)).
    rewrite Forall_forall in Hends. by apply Hends. }
  split; [|split].
  - destruct (nodes g) as [|n0 ns0] eqn:Hns.
    { exists g. unfold compute. by rewrite Hns. }
    assert (Hne : nodes g ≠ []) by by rewrite Hns.
    rewrite <- Hns in *. clear Hns.
    destruct (relaxNodePositions_Some config (links g) (placed config g))
      as [ns1 Hrelax].
    { apply (columns_inhabited_ext _ _ (placed_depth config g)).
      by apply computeDepths_columns_inhabited. }
    eexists. apply compute_stages; [done|]. eauto.
  - intros Hne. by apply computeDepths_bfs_terminates.
  - intros Hnil. unfold compute. by rewrite Hnil.
Qed.

Lemma C7_no_exception_amended_witness :
  (∃ g', compute DEFAULT_CONFIG degenerateGraph = Some g')
  ∧ (∃ r, bfsLoop (bfsFuel (nodes degenerateGraph)) (links degenerateGraph)
            (sourcesOf (nodes degenerateGraph)) 0 ∅ (nodes degenerateGraph)
          = Some r).
Proof.
  destruct (C7_no_exception_amended DEFAULT_CONFIG degenerateGraph)
    as (H1 & H2 & _).
  - apply (bool_decide_unpack _). vm_compute. exact I.
  - apply (bool_decide_unpack _). vm_compute. exact I.
  - split; [exact H1 | by apply H2].
Defined.

(** The empty graph comes back as it went in. *)
Lemma compute_empty_graph config ls :
  compute config (mkGraph [] ls) = Some (mkGraph [] ls).
Proof. done. Qed.

(** * Further properties of the layout (layout/sankey.ts) *)

(** ** Fields that [compute] hands on from an earlier stage *)

Lemma compute_proj_placed {B} (p : SankeyNode → B) config g g' :
  (∀ n, p (erase_y n) = p n) → (∀ n, p (erase_links n) = p n) →
  nodes g ≠ [] → compute config g = Some g' →
  p <$> nodes g' = p <$> placed config g.
Proof.
  intros Hy Hl Hne (ns1 & Hrelax & ->)%compute_stages; [|done].
  by apply (late_stages_proj config).
Qed.

Lemma compute_depth config g g' :
  nodes g ≠ [] → compute config g = Some g' →
  Node.depth <$> nodes g'
  = Node.depth <$> computeDepths config (links g) (nodes g).
Proof.
  intros Hne Hc.
  rewrite (compute_proj_placed Node.depth config g g') by done.
  apply placed_depth.
Qed.

Lemma compute_length config g g' :
  compute config g = Some g' → length (nodes g') = length (nodes g).
Proof.
  intros (Hid & _)%compute_same_structure.
  apply (fmap_eq_length _ _ _ Hid).
Qed.

Lemma maxDepthOf_ext ns ns' :
  Node.depth <$> ns = Node.depth <$> ns' → maxDepthOf ns = maxDepthOf ns'.
Proof. unfold maxDepthOf. by intros ->. Qed.

(** ** Justify alignment: the sinks end in the last column *)

Lemma justify_maxDepth config ns :
  ns ≠ [] → maxDepthOf (justify config ns) = maxDepthOf ns.
Proof.
  intros Hne. unfold justify. case_decide as Hal; [|done].
  set (L := maxDepthOf ns).
  set (f := λ n, if decide (Node.sourceLinks n = [] ∧ (Node.depth n < L)%nat)
                 then Node.set_depth L n else n).
  assert (Hlook : ∀ i, (i < length ns)%nat → (f <$> ns) !!! i = f (ns !!! i)).
  { intros i Hi. by apply lookup_total_fmap_lt. }
  apply Nat.le_antisymm.
  - apply maxDepthOf_le. intros i Hi. rewrite length_fmap in Hi.
    rewrite Hlook by done. unfold f. case_decide; simpl; [done|].
    by apply depth_le_maxDepthOf.
  - destruct (maxDepthOf_attained ns Hne) as (i & Hi & Hd). fold L in Hd.
    rewrite <- Hd at 1.
    replace (Node.depth (ns !!! i)) with (Node.depth ((f <$> ns) !!! i)).
    { apply depth_le_maxDepthOf. by rewrite length_fmap. }
    rewrite Hlook by done. unfold f. case_decide as Hc; [|done]. lia.
Qed.

Lemma justify_sinks config ns i :
  Config.nodeAlign config = AlignJustify → (i < length ns)%nat →
  Node.sourceLinks (justify config ns !!! i) = [] →
  Node.depth (justify config ns !!! i) = maxDepthOf (justify config ns).
Proof.
  intros Hal Hi. rewrite justify_maxDepth by (intros ->; simpl in Hi; lia).
  unfold justify. rewrite decide_True by done.
  rewrite lookup_total_fmap_lt by done.
  pose proof (depth_le_maxDepthOf ns i Hi) as Hle.
  case_decide as Hc; simpl; [done|]. intros Hs.
  apply Nat.le_antisymm; [done|]. apply Nat.nlt_ge. tauto.
Qed.

Lemma computeDepths_justify_sinks config ls ns i :
  Config.nodeAlign config = AlignJustify →
  NoDup (Node.id <$> ns) →
  (∀ i t, (i < length ns)%nat → t ∈ targetsOf ls (ns !!! i) →
          (t < length ns)%nat) →
  (i < length ns)%nat →
  Node.sourceLinks (computeDepths config ls ns !!! i) = [] →
  Node.depth (computeDepths config ls ns !!! i)
  = maxDepthOf (computeDepths config ls ns).
Proof.
  intros Hal Hids Hvalid Hi.
  assert (Hne : ns ≠ []) by (intros ->; simpl in Hi; lia).
  unfold computeDepths.
  destruct (sourcesOf ns) as [|s srcs] eqn:Hsrc.
  { intros _. rewrite lookup_total_fmap_lt by done. simpl.
    symmetry. apply maxDepthOf_zero.
    by intros n (m & -> & _)%list_elem_of_fmap. }
  destruct (computeDepths_bfs_terminates ls ns Hne Hids Hvalid)
    as [[Vf nsf] Hloop].
  rewrite Hsrc in Hloop. rewrite Hloop.
  apply justify_sinks; [done|].
  unfold markUnvisited. rewrite length_fmap.
  by rewrite (fmap_eq_length _ _ _ (bfsLoop_frame _ _ _ _ _ _ _ _ Hloop)).
Qed.

Lemma endpoints_valid_targets g i t :
  endpoints_valid g → (i < length (nodes g))%nat →
  t ∈ targetsOf (links g) (nodes g !!! i) → (t < length (nodes g))%nat.
Proof.
  intros Hends Hi Ht. unfold endpoints_valid in Hends.
  rewrite Forall_forall in Hends.
  specialize (Hends (nodes g !!! i) (list_elem_of_lookup_total_2 _ _ Hi)).
  rewrite Forall_forall in Hends. by apply Hends.
Qed.

(** With [nodeAlign = 'justify'], on a graph with unique ids and valid link
    targets, every node that has no outgoing link ends in the last column:
    its depth is the largest depth of the laid-out graph. *)
Theorem compute_justify_sinks_last_column (config : SankeyConfig)
    (g g' : SankeyGraph) :
  Config.nodeAlign config = AlignJustify →
  NoDup (Node.id <$> nodes g) →
  endpoints_valid g →
  compute config g = Some g' →
  Forall (λ n, Node.sourceLinks n = [] → Node.depth n = maxDepthOf (nodes g'))
    (nodes g').
Proof.
  intros Hal Hids Hends Hc.
  destruct (decide (nodes g = [])) as [Hnil|Hne].
  { unfold compute in Hc. rewrite Hnil in Hc. injection Hc as <-.
    rewrite Hnil. constructor. }
  pose proof (compute_depth config g g' Hne Hc) as Hd.
  pose proof (compute_same_structure config g g' Hc) as (_ & Hperm & _).
  pose proof (computeDepths_frame config (links g) (nodes g)) as Hfr.
  apply Forall_lookup. intros i n' Hi Hs.
  assert (Hlt : (i < length (nodes g))%nat).
  { rewrite <- (compute_length config g g' Hc). by eapply lookup_lt_Some. }
  rewrite (maxDepthOf_ext _ _ Hd).
  rewrite <- (list_lookup_total_correct _ _ _ Hi).
  rewrite (lookup_total_fmap_pres Node.depth _ _ i Hd).
  apply computeDepths_justify_sinks; try done.
  { intros j t. by apply endpoints_valid_targets. }
  rewrite (lookup_total_fmap_pres Node.sourceLinks _ (nodes g) i
             (erased_proj erase_depth Node.sourceLinks _ _ ltac:(done) Hfr)).
  destruct (Forall2_lookup_r _ _ _ _ _ Hperm Hi) as (n & Hn & Hp & _).
  rewrite (list_lookup_total_correct _ _ _ Hn).
  rewrite Hs in Hp. by apply Permutation_nil_l in Hp.
Qed.

(** A source A feeding B and the sink D; B feeds the sink C.  The traversal
    reaches D at depth 1. *)
Definition earlySinkGraph : SankeyGraph :=
  mkGraph
    [makeNode "A" [0%nat; 2%nat] []; makeNode "B" [1%nat] [0%nat];
     makeNode "C" [] [1%nat]; makeNode "D" [] [2%nat]]
    [makeLink 0 1 5; makeLink 1 2 5; makeLink 0 3 3].

Lemma compute_justify_sinks_last_column_witness :
  ∃ g', compute DEFAULT_CONFIG earlySinkGraph = Some g'
    ∧ Forall (λ n, Node.sourceLinks n = [] → Node.depth n = maxDepthOf (nodes g'))
        (nodes g').
Proof.
  destruct (compute DEFAULT_CONFIG earlySinkGraph) as [g'|] eqn:H.
  - exists g'. split; [reflexivity|].
    apply (compute_justify_sinks_last_column DEFAULT_CONFIG earlySinkGraph g');
      [reflexivity | | | done].
    + apply (bool_decide_unpack _). vm_compute. exact I.
    + apply (bool_decide_unpack _). vm_compute. exact I.
  - vm_compute in H. discriminate H.
Defined.

(** ** Horizontal positions *)

Definition innerWidth (config : SankeyConfig) : Qc :=
  Config.width config - Padding.left (Config.padding config)
  - Padding.right (Config.padding config) - Config.nodeWidth config.






(** ** Node values *)





(** ** The link arrays are sorted by the position of the far end *)

Fixpoint ascending {A} (key : A → Qc) (l : list A) : Prop :=
  match l with
  | a :: l' =>
      match l' with
      | b :: _ => key a ≤ key b
      | [] => True
      end ∧ ascending key l'
  | [] => True
  end.

Lemma ascending_ext {A} (key key' : A → Qc) (l : list A) :
  (∀ a, a ∈ l → key a = key' a) → ascending key l → ascending key' l.
Proof.
  induction l as [|a l IH]; [done|]. intros Hk [Hh Ht]. split.
  - destruct l as [|b l]; [done|].
    rewrite <- (Hk a), <- (Hk b); [done|right; left|left].
  - apply IH; [|done]. intros b Hb. apply Hk. by right.
Qed.

Lemma insert_by_ascending {A} (key : A → Qc) (a : A) (l : list A) :
  ascending key l → ascending key (insert_by (λ a b, key a - key b) a l).
Proof.
  induction l as [|b l IH]; [done|]. intros [Hh Ht].
  cbn [insert_by]. destruct (decide (0 < key a - key b)) as [Hlt|Hge].
  - split; [|by apply IH].
    destruct l as [|c l]; cbn [insert_by].
    + qc_lra.
    + destruct (decide (0 < key a - key c)); [done|]. qc_lra.
  - split; [|by split]. apply Qcnot_lt_le in Hge. qc_lra.
Qed.

Lemma sort_by_ascending {A} (key : A → Qc) (l : list A) :
  ascending key (sort_by (λ a b, key a - key b) l).
Proof.
  induction l as [|a l IH]; [done|].
  unfold sort_by in *. cbn [foldr]. by apply insert_by_ascending.
Qed.

(** After [compute], the outgoing links of every node are in ascending order
    of the [y] of their target node, and the incoming links in ascending
    order of the [y] of their source node. *)
Theorem compute_links_sorted (config : SankeyConfig) (g g' : SankeyGraph) :
  compute config g = Some g' →
  nodes g ≠ [] →
  Forall
    (λ n, ascending (λ l, Node.y (nodes g' !!! Link.target (links g' !!! l)))
            (Node.sourceLinks n)
          ∧ ascending (λ l, Node.y (nodes g' !!! Link.source (links g' !!! l)))
              (Node.targetLinks n))
    (nodes g').
Proof.
  intros Hc Hne.
  apply compute_stages in Hc as (ns1 & _ & ->); [|done].
  set (g1 := mkGraph ns1 (links g)).
  pose proof (computeLinkOffsets_frame_links g1) as Hl.
  assert (Hy : Node.y <$> nodes (computeLinkOffsets g1) = Node.y <$> ns1).
  { apply (erased_proj erase_links Node.y); [done|].
    apply (computeLinkOffsets_frame_nodes g1). }
  assert (Ht : ∀ l, Link.target (links (computeLinkOffsets g1) !!! l)
                    = Link.target (links g !!! l)).
  { intros l. apply (lookup_total_fmap_pres Link.target).
    by apply (erased_proj erase_offsets Link.target). }
  assert (Hs : ∀ l, Link.source (links (computeLinkOffsets g1) !!! l)
                    = Link.source (links g !!! l)).
  { intros l. apply (lookup_total_fmap_pres Link.source).
    by apply (erased_proj erase_offsets Link.source). }
  rewrite computeLinkOffsets_nodes in *. cbn [nodes links g1] in *.
  apply Forall_fmap, Forall_forall. intros n _. split.
  - eapply ascending_ext; [|apply sort_by_ascending].
    intros l _. cbn beta. rewrite Ht.
    symmetry. apply (lookup_total_fmap_pres Node.y _ _ _ Hy).
  - eapply ascending_ext; [|apply sort_by_ascending].
    intros l _. cbn beta. rewrite Hs.
    symmetry. apply (lookup_total_fmap_pres Node.y _ _ _ Hy).
Qed.

Lemma compute_links_sorted_witness :
  ∃ g', compute DEFAULT_CONFIG earlySinkGraph = Some g'
    ∧ Forall
        (λ n, ascending (λ l, Node.y (nodes g' !!! Link.target (links g' !!! l)))
                (Node.sourceLinks n)
              ∧ ascending
                  (λ l, Node.y (nodes g' !!! Link.source (links g' !!! l)))
                  (Node.targetLinks n))
        (nodes g').
Proof.
  destruct (compute DEFAULT_CONFIG earlySinkGraph) as [g'|] eqn:H.
  - exists g'. split; [reflexivity|].
    apply (compute_links_sorted DEFAULT_CONFIG earlySinkGraph g'); done.
  - vm_compute in H. discriminate H.
Defined.

(** ** Ribbons stay inside their source node *)








(** ** What [compute] never touches *)

(** [compute] changes no id and no label of a node, no endpoint and no value
    of a link, and at most reorders the link arrays of each node; a
    well-formed graph is well formed after the layout. *)
Theorem compute_keeps_graph (config : SankeyConfig) (g g' : SankeyGraph) :
  compute config g = Some g' →
  same_structure g g'
  ∧ Node.label <$> nodes g' = Node.label <$> nodes g
  ∧ (wf_graph g → wf_graph g').
Proof.
  intros Hc. split; [by eapply compute_same_structure|]. split.
  - destruct (decide (nodes g = [])) as [Hnil|Hne].
    { unfold compute in Hc. rewrite Hnil in Hc. by injection Hc as <-. }
    rewrite (compute_proj_placed Node.label config g g') by done.
    by apply placed_structure.
  - intros Hwf. by eapply wf_graph_compute.
Qed.

Lemma compute_keeps_graph_witness :
  ∃ g', same_structure earlySinkGraph g'
    ∧ Node.label <$> nodes g' = Node.label <$> nodes earlySinkGraph
    ∧ wf_graph g'.
Proof.
  destruct (compute DEFAULT_CONFIG earlySinkGraph) as [g'|] eqn:H.
  - exists g'.
    destruct (compute_keeps_graph DEFAULT_CONFIG earlySinkGraph g' H)
      as (H1 & H2 & H3).
    split; [done|]. split; [done|]. apply H3.
    apply (bool_decide_unpack _). vm_compute. exact I.
  - vm_compute in H. discriminate H.
Defined.

(** ** The layering is a breadth-first layering *)

Section BFSTree.
Variable ls : list SankeyLink.
Variable ns0 : list SankeyNode.
Hypothesis ids_unique : NoDup (Node.id <$> ns0).
Hypothesis targets_valid :
  ∀ i t, (i < length ns0)%nat → t ∈ targetsOf ls (ns0 !!! i) →
         (t < length ns0)%nat.

Notation idOf := (idOf ns0).
Notation same_graph := (same_graph ns0).

(** A visited node keeps the depth it has; a node of the frontier that is
    not visited yet gets the depth of the frontier. *)
Lemma bfsLoop_depths fuel current d V nsA Vf nsf :
  same_graph nsA → (∀ i, i ∈ current → (i < length ns0)%nat) →
  bfsLoop fuel ls current d V nsA = Some (Vf, nsf) →
  V ⊆ Vf
  ∧ (∀ i, (i < length ns0)%nat → idOf i ∈ V →
          Node.depth (nsf !!! i) = Node.depth (nsA !!! i))
  ∧ (∀ i, i ∈ current → idOf i ∉ V →
          idOf i ∈ Vf ∧ Node.depth (nsf !!! i) = d).
Proof.
  revert current d V nsA.
  induction fuel as [|fuel IH]; intros current d V nsA HA Hcur; [done|].
  simpl. destruct current as [|c current].
  { intros [= <- <-]. split; [done|]. split; [done|].
    by intros i ?%elem_of_nil. }
  pose proof (level_spec ls ns0 ids_unique targets_valid d V nsA (c :: current)
                HA Hcur) as [Hlevel HV'].
  destruct (fold_left _ (c :: current) _) as [[V' ns'] next] eqn:Hfold.
  destruct Hlevel as (H1 & H2 & H3 & H4 & H5).
  simpl in H1, H2, H3, H4, H5. cbn [fst snd] in HV'.
  intros Hloop.
  destruct (IH next (S d) V' ns' H2 (λ t Ht, proj1 (H4 t Ht)) Hloop)
    as (Hsub & Hkeep & _).
  split; [by etrans|]. split.
  - intros i Hi Hv. rewrite Hkeep by (try done; by apply H1).
    rewrite H3 by done. rewrite decide_False; [done|].
    intros [_ Hn]%elem_of_difference. done.
  - intros i Hi Hv.
    assert (Hnew : idOf i ∈ V').
    { rewrite HV'. apply elem_of_union_r, elem_of_list_to_set, list_elem_of_fmap.
      eauto. }
    split; [by apply Hsub|].
    rewrite Hkeep by (try done; by apply Hcur).
    rewrite H3 by (by apply Hcur). rewrite decide_True; [done|].
    by apply elem_of_difference.
Qed.

(** Every visited node of depth [k + 1] is the target of a link of a visited
    node of depth [k]. *)
Definition parent_ok (V : gset string) (ns : list SankeyNode) : Prop :=
  ∀ i k, (i < length ns0)%nat → idOf i ∈ V → Node.depth (ns !!! i) = S k →
    ∃ j, (j < length ns0)%nat ∧ idOf j ∈ V ∧ Node.depth (ns !!! j) = k
         ∧ i ∈ targetsOf ls (ns0 !!! j).

Definition tree_inv (d : nat) (V : gset string) (ns : list SankeyNode)
    (current : list nat) : Prop :=
  same_graph ns
  ∧ (∀ i, i ∈ current → (i < length ns0)%nat)
  ∧ (∀ i, (i < length ns0)%nat → idOf i ∈ V → (Node.depth (ns !!! i) < d)%nat)
  ∧ parent_ok V ns
  ∧ (∀ t k, t ∈ current → d = S k →
       ∃ j, (j < length ns0)%nat ∧ idOf j ∈ V ∧ Node.depth (ns !!! j) = k
            ∧ t ∈ targetsOf ls (ns0 !!! j)).

Lemma bfsLoop_tree fuel current d V nsA Vf nsf :
  tree_inv d V nsA current →
  bfsLoop fuel ls current d V nsA = Some (Vf, nsf) →
  parent_ok Vf nsf.
Proof.
  revert current d V nsA.
  induction fuel as [|fuel IH]; intros current d V nsA Hinv; [done|].
  destruct Hinv as (HA & Hcur & I1 & I2 & I3).
  simpl. destruct current as [|c current].
  { by intros [= <- <-]. }
  pose proof (level_spec ls ns0 ids_unique targets_valid d V nsA (c :: current)
                HA Hcur) as [Hlevel HV'].
  destruct (fold_left _ (c :: current) _) as [[V' ns'] next] eqn:Hfold.
  destruct Hlevel as (H1 & H2 & H3 & H4 & H5).
  simpl in H1, H2, H3, H4, H5. cbn [fst snd] in HV'.
  apply IH. clear IH.
  assert (Hold : ∀ j, (j < length ns0)%nat → idOf j ∈ V →
            Node.depth (ns' !!! j) = Node.depth (nsA !!! j)).
  { intros j Hj Hv. rewrite H3 by done. rewrite decide_False; [done|].
    intros [_ Hn]%elem_of_difference. done. }
  split; [done|]. split; [intros t Ht; by apply H4|]. split; [|split].
  - intros i Hi Hv. rewrite H3 by done. case_decide as Hnew; [lia|].
    assert (Hv0 : idOf i ∈ V).
    { destruct (decide (idOf i ∈ V)) as [|Hn]; [done|].
      exfalso. apply Hnew. by apply elem_of_difference. }
    specialize (I1 i Hi Hv0). lia.
  - intros i k Hi Hv. rewrite H3 by done.
    destruct (decide (idOf i ∈ V' ∖ V)) as [Hnew|Hnot].
    + intros ->.
      assert (Hin : idOf i ∈ (list_to_set (idOf <$> c :: current) : gset string)).
      { apply elem_of_difference in Hnew as [Hnew Hn]. rewrite HV' in Hnew.
        by apply elem_of_union in Hnew as [|]. }
      apply elem_of_list_to_set, list_elem_of_fmap in Hin as (t & Heq & Ht).
      pose proof (idOf_inj ns0 ids_unique i t Hi (Hcur t Ht) Heq) as <-.
      destruct (I3 i k Ht eq_refl) as (j & Hj & Hjv & Hjd & Hjt).
      exists j. split; [done|]. split; [by apply H1|].
      split; [|done]. by rewrite Hold.
    + intros Hd.
      assert (Hv0 : idOf i ∈ V).
      { destruct (decide (idOf i ∈ V)) as [|Hn]; [done|].
        exfalso. apply Hnot. by apply elem_of_difference. }
      destruct (I2 i k Hi Hv0 Hd) as (j & Hj & Hjv & Hjd & Hjt).
      exists j. split; [done|]. split; [by apply H1|].
      split; [|done]. by rewrite Hold.
  - intros t k Ht [= <-].
    destruct (H4 t Ht) as (_ & j & Hj & Hjv & Hjt).
    exists j. split; [done|].
    split; [by apply elem_of_difference in Hjv as [? _]|].
    split; [|done]. rewrite H3 by done. by rewrite decide_True.
Qed.
End BFSTree.

Lemma justify_lookup config ns i :
  (i < length ns)%nat →
  justify config ns !!! i
  = if decide (Config.nodeAlign config = AlignJustify
               ∧ Node.sourceLinks (ns !!! i) = []
               ∧ (Node.depth (ns !!! i) < maxDepthOf ns)%nat)
    then Node.set_depth (maxDepthOf ns) (ns !!! i) else ns !!! i.
Proof.
  intros Hi. unfold justify. case_decide as Hal.
  - rewrite lookup_total_fmap_lt by done.
    repeat case_decide; try done; tauto.
  - rewrite decide_False; [done | tauto].
Qed.

Section DepthsBFS.
Variable config : SankeyConfig.
Variable ls : list SankeyLink.
Variable ns0 : list SankeyNode.
Hypothesis ids_unique : NoDup (Node.id <$> ns0).
Hypothesis targets_valid :
  ∀ i t, (i < length ns0)%nat → t ∈ targetsOf ls (ns0 !!! i) →
         (t < length ns0)%nat.

(** What [computeDepths] returns when the graph has a source: the traversal
    result, the unvisited nodes reset, the sinks justified. *)
Lemma computeDepths_bfs_result :
  sourcesOf ns0 ≠ [] →
  ∃ Vf nsf,
    bfsLoop (bfsFuel ns0) ls (sourcesOf ns0) 0 ∅ ns0 = Some (Vf, nsf)
    ∧ computeDepths config ls ns0 = justify config (markUnvisited Vf nsf)
    ∧ length nsf = length ns0.
Proof.
  intros Hsrc.
  assert (Hne : ns0 ≠ []).
  { intros ->. by apply Hsrc. }
  destruct (computeDepths_bfs_terminates ls ns0 Hne ids_unique targets_valid)
    as [[Vf nsf] Hloop].
  exists Vf, nsf. split; [done|]. split.
  - unfold computeDepths. rewrite Hloop. by destruct (sourcesOf ns0).
  - apply (fmap_eq_length _ _ _ (bfsLoop_frame _ _ _ _ _ _ _ _ Hloop)).
Qed.

Lemma computeDepths_unjustified Vf nsf i :
  length nsf = length ns0 → erase_depth <$> nsf = erase_depth <$> ns0 →
  (i < length ns0)%nat →
  Config.nodeAlign config ≠ AlignJustify ∨ Node.sourceLinks (ns0 !!! i) ≠ [] →
  justify config (markUnvisited Vf nsf) !!! i
  = if decide (idOf ns0 i ∈ Vf) then nsf !!! i else Node.set_depth 0 (nsf !!! i).
Proof.
  intros Hlen Hsame Hi Hor.
  assert (Hm : markUnvisited Vf nsf !!! i
               = if decide (idOf ns0 i ∈ Vf) then nsf !!! i
                 else Node.set_depth 0 (nsf !!! i)).
  { rewrite markUnvisited_lookup by lia.
    by rewrite (same_graph_id ns0 nsf i Hsame). }
  rewrite justify_lookup by (unfold markUnvisited; rewrite length_fmap; lia).
  rewrite decide_False; [done|]. intros (Hal & Hs & _).
  destruct Hor as [Hor|Hor]; [done|]. apply Hor.
  rewrite Hm in Hs. rewrite <- (same_graph_sourceLinks ns0 nsf i Hsame).
  by case_decide.
Qed.

(** A node without incoming links is put at depth 0, unless it is a sink
    that the justify step moves. *)
Lemma computeDepths_sources i :
  (i < length ns0)%nat → Node.targetLinks (ns0 !!! i) = [] →
  Config.nodeAlign config ≠ AlignJustify ∨ Node.sourceLinks (ns0 !!! i) ≠ [] →
  Node.depth (computeDepths config ls ns0 !!! i) = 0%nat.
Proof.
  intros Hi Ht Hor.
  assert (Hin : i ∈ sourcesOf ns0).
  { unfold sourcesOf. apply list_elem_of_filter. split; [done|].
    apply elem_of_seq. lia. }
  destruct computeDepths_bfs_result as (Vf & nsf & Hloop & -> & Hlen).
  { intros Heq. rewrite Heq in Hin. by apply elem_of_nil in Hin. }
  pose proof (bfsLoop_frame _ _ _ _ _ _ _ _ Hloop) as Hsame.
  rewrite computeDepths_unjustified by done.
  destruct (bfsLoop_depths ls ns0 ids_unique targets_valid _ _ _ _ _ _ _
              (eq_refl : same_graph ns0 ns0)
              (sourcesOf_valid ns0) Hloop) as (_ & _ & Hfront).
  destruct (Hfront i Hin) as [Hv Hd]; [by apply not_elem_of_empty|].
  by rewrite decide_True.
Qed.

(** A node of depth [k + 1] is the target of a link that leaves a node of
    depth [k], unless it is a sink that the justify step moved. *)
Lemma computeDepths_parent i k :
  (i < length ns0)%nat →
  Node.depth (computeDepths config ls ns0 !!! i) = S k →
  Config.nodeAlign config ≠ AlignJustify ∨ Node.sourceLinks (ns0 !!! i) ≠ [] →
  ∃ j, (j < length ns0)%nat
       ∧ Node.depth (computeDepths config ls ns0 !!! j) = k
       ∧ i ∈ targetsOf ls (ns0 !!! j).
Proof.
  intros Hi Hd Hor.
  destruct (decide (sourcesOf ns0 = [])) as [Hnil|Hsrc].
  { unfold computeDepths in Hd. rewrite Hnil in Hd.
    by rewrite lookup_total_fmap_lt in Hd. }
  destruct (computeDepths_bfs_result Hsrc) as (Vf & nsf & Hloop & Hcd & Hlen).
  rewrite Hcd in *.
  pose proof (bfsLoop_frame _ _ _ _ _ _ _ _ Hloop) as Hsame.
  rewrite computeDepths_unjustified in Hd by done.
  destruct (decide (idOf ns0 i ∈ Vf)) as [Hv|Hv]; [|done].
  assert (Htree : parent_ok ls ns0 Vf nsf).
  { eapply (bfsLoop_tree ls ns0 ids_unique targets_valid); [|exact Hloop].
    split; [done|]. split; [apply sourcesOf_valid|].
    split; [by intros j _ ?%not_elem_of_empty|].
    split; [by intros j m _ ?%not_elem_of_empty | done]. }
  destruct (Htree i k Hi Hv Hd) as (j & Hj & Hjv & Hjd & Hjt).
  exists j. split; [done|]. split; [|done].
  rewrite computeDepths_unjustified; [by rewrite decide_True|done..|].
  right. intros Hnil. unfold targetsOf in Hjt. rewrite Hnil in Hjt.
  by apply elem_of_nil in Hjt.
Qed.
End DepthsBFS.

(** The nodes before and after [compute], position by position. *)
Lemma compute_node_pair config g g' i n' :
  compute config g = Some g' → nodes g' !! i = Some n' →
  ∃ n, nodes g !! i = Some n
       ∧ Node.sourceLinks n' ≡ₚ Node.sourceLinks n
       ∧ Node.targetLinks n' ≡ₚ Node.targetLinks n.
Proof.
  intros (_ & Hperm & _)%compute_same_structure Hn'.
  destruct (Forall2_lookup_r _ _ _ _ _ Hperm Hn') as (n & Hn & Hp).
  by exists n.
Qed.

Lemma perm_nil_eq {A} (l l' : list A) : l' ≡ₚ l → l' = [] ↔ l = [].
Proof.
  intros Hp. split; intros ->.
  - by apply Permutation_nil_l in Hp.
  - by apply Permutation_nil_r in Hp.
Qed.

(** On a graph with unique ids and valid link targets, after [compute] a
    node without incoming links is in the first column (depth 0) whenever it
    has an outgoing link or the alignment is not 'justify'. *)
Theorem compute_sources_first_column (config : SankeyConfig)
    (g g' : SankeyGraph) :
  NoDup (Node.id <$> nodes g) →
  endpoints_valid g →
  compute config g = Some g' →
  Forall
    (λ n, Node.targetLinks n = [] →
          Config.nodeAlign config ≠ AlignJustify ∨ Node.sourceLinks n ≠ [] →
          Node.depth n = 0%nat)
    (nodes g').
Proof.
  intros Hids Hends Hc.
  destruct (decide (nodes g = [])) as [Hnil|Hne].
  { unfold compute in Hc. rewrite Hnil in Hc. injection Hc as <-.
    rewrite Hnil. constructor. }
  pose proof (compute_depth config g g' Hne Hc) as Hd.
  apply Forall_lookup. intros i n' Hn' Ht Hor.
  destruct (compute_node_pair config g g' i n' Hc Hn') as (n & Hn & Hps & Hpt).
  pose proof (lookup_lt_Some _ _ _ Hn) as Hlt.
  rewrite <- (list_lookup_total_correct _ _ _ Hn').
  rewrite (lookup_total_fmap_pres Node.depth _ _ i Hd).
  apply computeDepths_sources; [done | | done | |].
  - intros j t. by apply endpoints_valid_targets.
  - rewrite (list_lookup_total_correct _ _ _ Hn). by apply (perm_nil_eq _ _ Hpt).
  - rewrite (list_lookup_total_correct _ _ _ Hn).
    destruct Hor as [|Hs]; [by left|]. right.
    by rewrite <- (perm_nil_eq _ _ Hps).
Qed.

Lemma compute_sources_first_column_witness :
  ∃ g', compute DEFAULT_CONFIG earlySinkGraph = Some g'
    ∧ Forall
        (λ n, Node.targetLinks n = [] →
              Config.nodeAlign DEFAULT_CONFIG ≠ AlignJustify
              ∨ Node.sourceLinks n ≠ [] →
              Node.depth n = 0%nat)
        (nodes g').
Proof.
  destruct (compute DEFAULT_CONFIG earlySinkGraph) as [g'|] eqn:H.
  - exists g'. split; [reflexivity|].
    apply (compute_sources_first_column DEFAULT_CONFIG earlySinkGraph g');
      [| |done].
    + apply (bool_decide_unpack _). vm_compute. exact I.
    + apply (bool_decide_unpack _). vm_compute. exact I.
  - vm_compute in H. discriminate H.
Defined.

(** On a graph with unique ids and valid link targets, after [compute] a
    node of depth [k + 1] is the target of a link that leaves a node of depth
    [k], whenever it has an outgoing link or the alignment is not 'justify':
    no column is skipped on the way to it. *)
Theorem compute_fed_from_previous_column (config : SankeyConfig)
    (g g' : SankeyGraph) :
  NoDup (Node.id <$> nodes g) →
  endpoints_valid g →
  compute config g = Some g' →
  ∀ i n k,
    nodes g' !! i = Some n →
    Node.depth n = S k →
    Config.nodeAlign config ≠ AlignJustify ∨ Node.sourceLinks n ≠ [] →
    ∃ j m, nodes g' !! j = Some m ∧ Node.depth m = k
           ∧ i ∈ targetsOf (links g') m.
Proof.
  intros Hids Hends Hc i n' k Hn' Hdn Hor.
  assert (Hne : nodes g ≠ []).
  { intros Hnil. unfold compute in Hc. rewrite Hnil in Hc. injection Hc as <-.
    by rewrite Hnil in Hn'. }
  pose proof (compute_depth config g g' Hne Hc) as Hd.
  pose proof (compute_same_structure config g g' Hc) as (_ & _ & _ & Htgt & _).
  destruct (compute_node_pair config g g' i n' Hc Hn') as (n & Hn & Hps & Hpt).
  pose proof (lookup_lt_Some _ _ _ Hn) as Hlt.
  destruct (computeDepths_parent config (links g) (nodes g) Hids
              (λ j t, endpoints_valid_targets g j t Hends) i k Hlt)
    as (j & Hj & Hjd & Hjt).
  - rewrite <- (lookup_total_fmap_pres Node.depth _ _ i Hd).
    by rewrite (list_lookup_total_correct _ _ _ Hn').
  - rewrite (list_lookup_total_correct _ _ _ Hn).
    destruct Hor as [|Hs]; [by left|]. right.
    by rewrite <- (perm_nil_eq _ _ Hps).
  - assert (Hj' : (j < length (nodes g'))%nat).
    { by rewrite (compute_length config g g' Hc). }
    destruct (lookup_lt_is_Some_2 _ _ Hj') as [m' Hm'].
    destruct (compute_node_pair config g g' j m' Hc Hm') as (m & Hm & Hqs & _).
    exists j, m'. split; [done|]. split.
    + rewrite <- Hjd, <- (lookup_total_fmap_pres Node.depth _ _ j Hd).
      by rewrite (list_lookup_total_correct _ _ _ Hm').
    + rewrite (list_lookup_total_correct _ _ _ Hm) in Hjt.
      unfold targetsOf in *.
      apply list_elem_of_fmap in Hjt as (l & -> & Hl).
      apply list_elem_of_fmap. exists l. split.
      * symmetry. by apply (lookup_total_fmap_pres Link.target).
      * by rewrite Hqs.
Qed.

Lemma compute_fed_from_previous_column_witness :
  ∃ g', compute DEFAULT_CONFIG earlySinkGraph = Some g'
    ∧ ∀ i n k,
        nodes g' !! i = Some n →
        Node.depth n = S k →
        Config.nodeAlign DEFAULT_CONFIG ≠ AlignJustify
        ∨ Node.sourceLinks n ≠ [] →
        ∃ j m, nodes g' !! j = Some m ∧ Node.depth m = k
               ∧ i ∈ targetsOf (links g') m.
Proof.
  destruct (compute DEFAULT_CONFIG earlySinkGraph) as [g'|] eqn:H.
  - exists g'. split; [reflexivity|].
    apply (compute_fed_from_previous_column DEFAULT_CONFIG earlySinkGraph g');
      [| |done].
    + apply (bool_decide_unpack _). vm_compute. exact I.
    + apply (bool_decide_unpack _). vm_compute. exact I.
  - vm_compute in H. discriminate H.
Defined.

(** * Further properties of the journey analyzer (transforms/journey.ts) *)



(** ** Rates *)


(** ** Flow totals *)






(** * TabularTransform (transforms/tabular.ts)

    Modelling choices.
    - A row is taken after the coercions of the source: [source] and [target]
      are [String(row[field] ?? '')] and [value] is
      [Number(row[field]) || 0].
    - A string is the sequence of its UTF-8 bytes; the separator of the link
      keys is the three bytes of U+2192.
    - A [Map] is the list of its entries in insertion order; [set] on a key
      that is present replaces the value in place.
    - The node objects are created in an arena in the order of [nodeIds];
      [nodeMap] maps an id to the index of its node.  [nodeIds] holds no id
      twice, so [nodeMap] has one entry per node, in that order, and the
      arena is the array [Array.from(nodeMap.values())].
    - The [color] of a node is not part of the node model.
    - [nodeMap.get(...)!] yielding [undefined] makes the following property
      access raise a [TypeError]; the model returns [None]. *)

Module Row.
Record t := mk { source : string; target : string; value : Qc }.
End Row.

Section StringMap.
Context {V : Type}.

Fixpoint map_get (m : list (string * V)) (k : string) : option V :=
  match m with
  | [] => None
  | (k', v) :: m' => if decide (k' = k) then Some v else map_get m' k
  end.

Fixpoint map_set (m : list (string * V)) (k : string) (v : V)
    : list (string * V) :=
  match m with
  | [] => [(k, v)]
  | (k', v') :: m' =>
      if decide (k' = k) then (k', v) :: m' else (k', v') :: map_set m' k v
  end.
End StringMap.

Definition arrow : string := "→".

Fixpoint startsWith (p s : string) : bool :=
  match p, s with
  | EmptyString, _ => true
  | String a p', String b s' =>
      if decide (a = b) then startsWith p' s' else false
  | String _ _, EmptyString => false
  end.

(** [s.split(sep)] for a separator that is not empty: [skip] counts the
    bytes of a separator still to pass over, [cur] is the piece under
    construction. *)
Fixpoint splitAux (sep s : string) (skip : nat) (cur : string) : list string :=
  match s with
  | EmptyString => [cur]
  | String a s' =>
      match skip with
      | S k => splitAux sep s' k cur
      | O =>
          if startsWith sep s
          then cur :: splitAux sep s' (String.length sep - 1) EmptyString
          else splitAux sep s' 0 (cur +:+ String a EmptyString)
      end
  end.

Definition split (s sep : string) : list string := splitAux sep s 0 EmptyString.

Definition aggregate (linkAgg : list (string * Qc)) (row : Row.t)
    : list (string * Qc) :=
  if decide (Row.source row = EmptyString ∨ Row.target row = EmptyString
             ∨ Row.value row ≤ 0)
  then linkAgg
  else
    let key := Row.source row +:+ arrow +:+ Row.target row in
    map_set linkAgg key (default 0 (map_get linkAgg key) + Row.value row).

Definition collectId (acc : list string * gset string) (s : string)
    : list string * gset string :=
  let '(nodeIds, nodeIdSet) := acc in
  if decide (s ≠ EmptyString ∧ s ∉ nodeIdSet)
  then (nodeIds ++ [s], {[ s ]} ∪ nodeIdSet) else acc.

Definition collectRow (acc : list string * gset string) (row : Row.t)
    : list string * gset string :=
  collectId (collectId acc (Row.source row)) (Row.target row).

Definition newNode (id : string) : SankeyNode :=
  Node.mk id id 0 0 0 0 0 0 [] [].

Definition createNode (acc : list (string * nat) * list SankeyNode)
    (id : string) : list (string * nat) * list SankeyNode :=
  let '(nodeMap, arena) := acc in
  (map_set nodeMap id (length arena), arena ++ [newNode id]).

Definition addLink (nodeMap : list (string * nat))
    (acc : option (list SankeyNode * list SankeyLink)) (entry : string * Qc)
    : option (list SankeyNode * list SankeyLink) :=
  '(ns, ls) ← acc;
  let parts := split entry.1 arrow in
  s ← parts !! 0%nat ≫= map_get nodeMap;
  t ← parts !! 1%nat ≫= map_get nodeMap;
  let l := length ls in
  Some (alter (λ n, Node.set_targetLinks (Node.targetLinks n ++ [l]) n) t
          (alter (λ n, Node.set_sourceLinks (Node.sourceLinks n ++ [l]) n) s ns),
        ls ++ [Link.mk s t entry.2 0 0 0]).

Definition transform (rows : list Row.t) : option SankeyGraph :=
  let linkAgg := fold_left aggregate rows [] in
  let nodeIds := (fold_left collectRow rows ([], ∅)).1 in
  let '(nodeMap, arena) := fold_left createNode nodeIds ([], []) in
  '(ns, ls) ← fold_left (addLink nodeMap) linkAgg (Some (arena, []));
  Some (mkGraph ns ls).

(** The rows of a small funnel: a repeated pair, a row without source and a
    row of value 0. *)
Definition funnelRows : list Row.t :=
  [Row.mk "visit" "signup" (Qc_of_Z 60); Row.mk "visit" "leave" (Qc_of_Z 40);
   Row.mk "signup" "buy" (Qc_of_Z 25); Row.mk "visit" "signup" (Qc_of_Z 15);
   Row.mk "" "buy" (Qc_of_Z 5); Row.mk "buy" "refund" (Qc_of_Z 0)].

(** [s.includes(sep)]. *)
Fixpoint contains (sep s : string) : bool :=
  startsWith sep s
  || match s with
     | EmptyString => false
     | String _ s' => contains sep s'
     end.

(** ** Strings and the key separator *)

Lemma string_app_cons (a : Ascii.ascii) (s t : string) :
  String a s +:+ t = String a (s +:+ t).
Proof. done. Qed.

Lemma string_app_nil_l (s : string) : EmptyString +:+ s = s.
Proof. done. Qed.

Lemma string_app_nil_r (s : string) : s +:+ EmptyString = s.
Proof.
  induction s as [|a s IH]; [done|]. by rewrite string_app_cons, IH.
Qed.

Lemma string_app_assoc (s t u : string) : (s +:+ t) +:+ u = s +:+ (t +:+ u).
Proof.
  induction s as [|a s IH]; [done|]. by rewrite !string_app_cons, IH.
Qed.

Lemma splitAux_no_arrow (t cur : string) :
  contains arrow t = false → splitAux arrow t 0 cur = [cur +:+ t].
Proof.
  revert cur. induction t as [|a t IH]; intros cur Hc.
  - simpl. by rewrite string_app_nil_r.
  - cbn [contains] in Hc. apply orb_false_iff in Hc as [Hs Hc].
    cbn [splitAux]. rewrite Hs. rewrite IH by done.
    by rewrite string_app_assoc.
Qed.

Lemma startsWith_arrow_app (s t : string) :
  s ≠ EmptyString → startsWith arrow s = false →
  startsWith arrow (s +:+ arrow +:+ t) = false.
Proof.
  intros Hne Hs. unfold arrow in *.
  destruct s as [|x [|y [|z s]]]; [done|..];
    rewrite ?string_app_cons, ?string_app_nil_l; cbn [startsWith] in *;
    repeat case_decide; try done; by subst.
Qed.

Lemma splitAux_key (s t cur : string) :
  contains arrow s = false → contains arrow t = false →
  splitAux arrow (s +:+ arrow +:+ t) 0 cur = [cur +:+ s; t].
Proof.
  revert cur. induction s as [|a s IH]; intros cur Hs Ht.
  - rewrite string_app_nil_l, string_app_nil_r. unfold arrow.
    rewrite !string_app_cons, string_app_nil_l.
    cbn [splitAux startsWith String.length Nat.sub].
    rewrite !decide_True by done. fold arrow. f_equal.
    by rewrite (splitAux_no_arrow t EmptyString).
  - cbn [contains] in Hs. apply orb_false_iff in Hs as [Hs0 Hs].
    pose proof (startsWith_arrow_app (String a s) t ltac:(done) Hs0) as Hno.
    rewrite string_app_cons in *.
    cbn [splitAux]. rewrite Hno. rewrite IH by done.
    by rewrite string_app_assoc.
Qed.

(** A key built from two names without the separator splits back into
    them. *)
Lemma split_key (s t : string) :
  contains arrow s = false → contains arrow t = false →
  split (s +:+ arrow +:+ t) arrow = [s; t].
Proof. intros Hs Ht. unfold split. by rewrite splitAux_key. Qed.

(** ** Maps as entry lists *)

Section StringMapFacts.
Context {V : Type}.
Implicit Types m : list (string * V).

Lemma map_get_set m k v k' :
  map_get (map_set m k v) k' = if decide (k = k') then Some v else map_get m k'.
Proof.
  induction m as [|[k0 v0] m IH]; cbn [map_set map_get].
  - repeat case_decide; done.
  - destruct (decide (k0 = k)) as [->|Hne]; cbn [map_get].
    + repeat case_decide; congruence.
    + rewrite IH. repeat case_decide; congruence.
Qed.

Lemma map_get_None m k : map_get m k = None ↔ k ∉ m.*1.
Proof.
  induction m as [|[k0 v0] m IH]; cbn [map_get].
  - split; [intros _ ?%elem_of_nil; done | done].
  - rewrite fmap_cons. cbn [fst]. rewrite not_elem_of_cons.
    case_decide as Hk; [split; [done | intros [? _]; congruence]|].
    rewrite IH. split; [intros ?; split; [congruence | done] | by intros [_ ?]].
Qed.

Lemma map_set_new m k v : map_get m k = None → map_set m k v = m ++ [(k, v)].
Proof.
  induction m as [|[k0 v0] m IH]; cbn [map_set map_get]; [done|].
  case_decide; [done|]. intros Hg. by rewrite IH.
Qed.

Lemma map_set_keys_old m k v :
  is_Some (map_get m k) → (map_set m k v).*1 = m.*1.
Proof.
  induction m as [|[k0 v0] m IH]; cbn [map_set map_get].
  - by intros [? ?].
  - case_decide; [done|]. intros Hg. rewrite !fmap_cons. by rewrite IH.
Qed.

Lemma map_set_length m k v :
  length (map_set m k v)
  = if decide (is_Some (map_get m k)) then length m else S (length m).
Proof.
  case_decide as Hs.
  - rewrite <- (length_fmap fst), map_set_keys_old by done.
    by rewrite length_fmap.
  - rewrite map_set_new by (by apply eq_None_not_Some).
    rewrite length_app. simpl. lia.
Qed.

Lemma map_get_lookup m k v :
  map_get m k = Some v → ∃ i, m !! i = Some (k, v).
Proof.
  induction m as [|[k0 v0] m IH]; cbn [map_get]; [done|].
  case_decide as Hk.
  - intros [= ->]. subst. by exists 0%nat.
  - intros [i Hi]%IH. by exists (S i).
Qed.

Lemma map_get_NoDup m i k v :
  NoDup m.*1 → m !! i = Some (k, v) → map_get m k = Some v.
Proof.
  revert i. induction m as [|[k0 v0] m IH]; intros i Hnd Hi; [done|].
  rewrite fmap_cons in Hnd. apply NoDup_cons in Hnd as [Hk0 Hnd].
  cbn [map_get]. destruct i as [|i]; simpl in Hi.
  - injection Hi as -> ->. by rewrite decide_True.
  - rewrite decide_False; [by eapply IH|].
    intros ->. apply Hk0. apply list_elem_of_fmap. exists (k, v).
    split; [done|]. by eapply list_elem_of_lookup_2.
Qed.
End StringMapFacts.

Lemma map_set_sum (m : list (string * Qc)) k v :
  Qc_sum (map_set m k v).*2 = Qc_sum m.*2 - default 0 (map_get m k) + v.
Proof.
  induction m as [|[k0 v0] m IH]; cbn [map_set map_get].
  - simpl. ring.
  - case_decide.
    + rewrite !fmap_cons. cbn [snd Qc_sum foldr default from_option id]. ring.
    + rewrite !fmap_cons. cbn [snd Qc_sum foldr].
      fold (Qc_sum (map_set m k v).*2). fold (Qc_sum m.*2). rewrite IH. ring.
Qed.

(** ** Wiring one more link into a well-formed graph *)

Definition wire (s t : nat) (v : Qc) (ns : list SankeyNode)
    (ls : list SankeyLink) : list SankeyNode * list SankeyLink :=
  (alter (λ n, Node.set_targetLinks (Node.targetLinks n ++ [length ls]) n) t
     (alter (λ n, Node.set_sourceLinks (Node.sourceLinks n ++ [length ls]) n)
        s ns),
   ls ++ [Link.mk s t v 0 0 0]).

Lemma wire_lookup s t v ns ls i n' :
  (wire s t v ns ls).1 !! i = Some n' →
  ∃ n, ns !! i = Some n
       ∧ Node.id n' = Node.id n
       ∧ Node.sourceLinks n'
         = Node.sourceLinks n ++ (if decide (i = s) then [length ls] else [])
       ∧ Node.targetLinks n'
         = Node.targetLinks n ++ (if decide (i = t) then [length ls] else []).
Proof.
  unfold wire. cbn [fst]. intros Hn'.
  destruct (decide (i = s)) as [Hs|Hs], (decide (i = t)) as [Ht|Ht]; subst.
  - rewrite !list_lookup_alter_eq in Hn'.
    destruct (ns !! t) as [n|]; [|done]. injection Hn' as <-. by exists n.
  - rewrite list_lookup_alter_ne, list_lookup_alter_eq in Hn' by done.
    destruct (ns !! s) as [n|]; [|done]. injection Hn' as <-.
    exists n. by rewrite app_nil_r.
  - rewrite list_lookup_alter_eq, list_lookup_alter_ne in Hn' by done.
    destruct (ns !! t) as [n|]; [|done]. injection Hn' as <-.
    exists n. by rewrite app_nil_r.
  - rewrite !list_lookup_alter_ne in Hn' by done.
    exists n'. by rewrite !app_nil_r.
Qed.

Lemma wire_lookup_inv s t v ns ls i n :
  ns !! i = Some n →
  ∃ n', (wire s t v ns ls).1 !! i = Some n'
        ∧ Node.sourceLinks n'
          = Node.sourceLinks n ++ (if decide (i = s) then [length ls] else [])
        ∧ Node.targetLinks n'
          = Node.targetLinks n ++ (if decide (i = t) then [length ls] else []).
Proof.
  intros Hn.
  assert (Hlt : (i < length (wire s t v ns ls).1)%nat).
  { unfold wire. cbn [fst]. rewrite !length_alter. by eapply lookup_lt_Some. }
  destruct (lookup_lt_is_Some_2 _ _ Hlt) as [n' Hn'].
  destruct (wire_lookup s t v ns ls i n' Hn') as (m & Hm & _ & Hs & Ht).
  exists n'. split; [done|]. by assert (m = n) as -> by congruence.
Qed.

Lemma wire_ids s t v ns ls :
  Node.id <$> (wire s t v ns ls).1 = Node.id <$> ns.
Proof.
  unfold wire. cbn [fst]. by rewrite !fmap_alter_pres.
Qed.

Lemma wf_node_link_lt ls i n l :
  wf_node ls i n → l ∈ Node.sourceLinks n ∨ l ∈ Node.targetLinks n →
  (l < length ls)%nat.
Proof.
  intros (_ & _ & Hs & Ht) [Hl|Hl].
  - rewrite Forall_forall in Hs. specialize (Hs l Hl).
    destruct (ls !! l) eqn:Hk; [by eapply lookup_lt_Some | done].
  - rewrite Forall_forall in Ht. specialize (Ht l Hl).
    destruct (ls !! l) eqn:Hk; [by eapply lookup_lt_Some | done].
Qed.

Lemma wf_graph_wire s t v ns ls :
  (s < length ns)%nat → (t < length ns)%nat →
  wf_graph (mkGraph ns ls) →
  wf_graph (mkGraph (wire s t v ns ls).1 (wire s t v ns ls).2).
Proof.
  intros Hs Ht. rewrite !wf_graph_alt. cbn [nodes links].
  intros (Hid & Hn & Hl). split; [by rewrite wire_ids|]. split.
  - intros i n' Hn'.
    destruct (wire_lookup s t v ns ls i n' Hn') as (n & Hni & _ & Hsl & Htl).
    pose proof (Hn i n Hni) as Hwf.
    pose proof Hwf as (Hnd1 & Hnd2 & Hf1 & Hf2).
    assert (Hfresh : length ls ∉ Node.sourceLinks n
                     ∧ length ls ∉ Node.targetLinks n).
    { split; intros Hin.
      - pose proof (wf_node_link_lt ls i n _ Hwf (or_introl Hin)). lia.
      - pose proof (wf_node_link_lt ls i n _ Hwf (or_intror Hin)). lia. }
    destruct Hfresh as [Hfr1 Hfr2].
    assert (Hold : ∀ l, (l < length ls)%nat →
              (wire s t v ns ls).2 !! l = ls !! l).
    { intros l Hlt. unfold wire. cbn [snd]. by rewrite lookup_app_l. }
    assert (Hnew : (wire s t v ns ls).2 !! length ls
                   = Some (Link.mk s t v 0 0 0)).
    { unfold wire. cbn [snd]. rewrite lookup_app_r by lia.
      by rewrite Nat.sub_diag. }
    unfold wf_node. rewrite Hsl, Htl. split; [|split; [|split]].
    + destruct (decide (i = s)); [|by rewrite app_nil_r].
      apply NoDup_app. split; [done|]. split; [|apply NoDup_singleton].
      intros l Hin ->%list_elem_of_singleton. done.
    + destruct (decide (i = t)); [|by rewrite app_nil_r].
      apply NoDup_app. split; [done|]. split; [|apply NoDup_singleton].
      intros l Hin ->%list_elem_of_singleton. done.
    + apply Forall_app. split.
      * rewrite Forall_forall in Hf1 |- *. intros l Hin.
        rewrite Hold; [by apply Hf1|].
        by apply (wf_node_link_lt ls i n l Hwf), or_introl.
      * destruct (decide (i = s)) as [Hi|Hi]; [|constructor]. subst i.
        constructor; [|constructor]. by rewrite Hnew.
    + apply Forall_app. split.
      * rewrite Forall_forall in Hf2 |- *. intros l Hin.
        rewrite Hold; [by apply Hf2|].
        by apply (wf_node_link_lt ls i n l Hwf), or_intror.
      * destruct (decide (i = t)) as [Hi|Hi]; [|constructor]. subst i.
        constructor; [|constructor]. by rewrite Hnew.
  - intros l k Hk. unfold wire in Hk. cbn [snd] in Hk.
    apply lookup_app_Some in Hk as [Hk|[Hge Hk]].
    + destruct (Hl l k Hk) as [H1 H2]. split.
      * destruct (ns !! Link.source k) as [n|] eqn:Hn1;
          [|by apply elem_of_nil in H1].
        destruct (wire_lookup_inv s t v ns ls _ n Hn1) as (n' & -> & E & _).
        simpl. rewrite E. apply elem_of_app. by left.
      * destruct (ns !! Link.target k) as [n|] eqn:Hn1;
          [|by apply elem_of_nil in H2].
        destruct (wire_lookup_inv s t v ns ls _ n Hn1) as (n' & -> & _ & E).
        simpl. rewrite E. apply elem_of_app. by left.
    + destruct (l - length ls)%nat as [|?] eqn:Hd; [|done].
      injection Hk as <-. assert (l = length ls) as -> by lia.
      unfold wf_link. cbn [Link.source Link.target].
      destruct (lookup_lt_is_Some_2 _ _ Hs) as [n1 Hn1].
      destruct (lookup_lt_is_Some_2 _ _ Ht) as [n2 Hn2].
      destruct (wire_lookup_inv s t v ns ls _ n1 Hn1) as (n1' & -> & E1 & _).
      destruct (wire_lookup_inv s t v ns ls _ n2 Hn2) as (n2' & -> & _ & E2).
      simpl. rewrite E1, E2, !decide_True by done.
      split; apply elem_of_app; right; by apply list_elem_of_singleton.
Qed.

(** ** The first loop: aggregation *)

(** The rows that the first loop does not skip. *)
Definition kept (row : Row.t) : Prop :=
  ¬ (Row.source row = EmptyString ∨ Row.target row = EmptyString
     ∨ Row.value row ≤ 0).

Definition keyOf (row : Row.t) : string :=
  Row.source row +:+ arrow +:+ Row.target row.

Global Instance kept_dec row : Decision (kept row).
Proof. unfold kept. apply _. Defined.

Lemma aggregate_unfold linkAgg row :
  aggregate linkAgg row
  = if decide (kept row)
    then map_set linkAgg (keyOf row)
           (default 0 (map_get linkAgg (keyOf row)) + Row.value row)
    else linkAgg.
Proof. unfold aggregate, kept. repeat case_decide; tauto. Qed.

Lemma kept_value_pos row : kept row → 0 < Row.value row.
Proof. unfold kept. intros Hk. apply Qcnot_le_lt. tauto. Qed.

Lemma map_get_elem_of {V} (m : list (string * V)) k v :
  map_get m k = Some v → k ∈ m.*1 ∧ v ∈ m.*2.
Proof.
  intros [i Hi]%map_get_lookup. split.
  - apply list_elem_of_fmap. exists (k, v). split; [done|].
    by eapply list_elem_of_lookup_2.
  - apply list_elem_of_fmap. exists (k, v). split; [done|].
    by eapply list_elem_of_lookup_2.
Qed.

Lemma map_set_elem_of {V} (m : list (string * V)) k v e :
  e ∈ map_set m k v → e = (k, v) ∨ e ∈ m.
Proof.
  induction m as [|[k0 v0] m IH]; cbn [map_set].
  - intros ->%list_elem_of_singleton. by left.
  - case_decide as Hk.
    + intros [->|He]%elem_of_cons; [left; by subst | right; by right].
    + intros [->|He]%elem_of_cons; [right; left|].
      destruct (IH He) as [->|?]; [by left | right; by right].
Qed.

Lemma map_set_NoDup {V} (m : list (string * V)) k v :
  NoDup m.*1 → NoDup (map_set m k v).*1.
Proof.
  intros Hnd. destruct (map_get m k) as [v0|] eqn:Hg.
  - by rewrite map_set_keys_old by (by rewrite Hg).
  - rewrite map_set_new by done. rewrite fmap_app. apply NoDup_app.
    split; [done|]. split; [|apply NoDup_singleton].
    intros k' Hk' ->%list_elem_of_singleton. by apply map_get_None in Hg.
Qed.

(** The total that the rows give for one key. *)
Definition keyTotal (rows : list Row.t) (k : string) : Qc :=
  Qc_sum (Row.value <$> filter (λ row, kept row ∧ keyOf row = k) rows).

Lemma filter_sum_snoc (P : Row.t → Prop) `{∀ r, Decision (P r)} rows row :
  Qc_sum (Row.value <$> filter P (rows ++ [row]))
  = Qc_sum (Row.value <$> filter P rows)
    + (if decide (P row) then Row.value row else 0).
Proof.
  rewrite filter_app, fmap_app, Qc_sum_app, filter_cons, filter_nil.
  case_decide; simpl; ring.
Qed.

Lemma aggregate_spec rows :
  let linkAgg := fold_left aggregate rows [] in
  NoDup linkAgg.*1
  ∧ (∀ k, k ∈ linkAgg.*1 ↔ ∃ row, row ∈ rows ∧ kept row ∧ k = keyOf row)
  ∧ (∀ k, default 0 (map_get linkAgg k) = keyTotal rows k)
  ∧ Forall (λ v, 0 < v) linkAgg.*2
  ∧ Qc_sum linkAgg.*2 = Qc_sum (Row.value <$> filter kept rows).
Proof.
  induction rows as [|row rows IH] using rev_ind.
  { simpl. split; [constructor|]. split.
    - intros k. split; [by intros ?%elem_of_nil|].
      by intros (row & ?%elem_of_nil & _).
    - done. }
  cbv zeta in *. rewrite fold_left_app. cbn [fold_left].
  destruct IH as (Hnd & Hkeys & Htot & Hpos & Hsum).
  set (m := fold_left aggregate rows []) in *.
  rewrite aggregate_unfold.
  assert (Htot' : ∀ k, keyTotal (rows ++ [row]) k
            = keyTotal rows k
              + (if decide (kept row ∧ keyOf row = k) then Row.value row else 0)).
  { intros k. unfold keyTotal. by rewrite filter_sum_snoc. }
  rewrite (filter_sum_snoc kept).
  destruct (decide (kept row)) as [Hk|Hk].
  - split; [by apply map_set_NoDup|]. split; [|split; [|split]].
    + intros k. split.
      * intros (e & -> & He)%list_elem_of_fmap.
        apply map_set_elem_of in He as [->|He].
        -- exists row. split; [apply elem_of_app; right; left | done].
        -- destruct (proj1 (Hkeys e.1)) as (r & Hr & Hkr & Heq).
           { apply list_elem_of_fmap. eauto. }
           exists r. split; [apply elem_of_app; by left | done].
      * intros (r & [Hr|Hr%list_elem_of_singleton]%elem_of_app & Hkr & ->).
        -- destruct (map_get m (keyOf row)) as [v0|] eqn:Hg.
           ++ rewrite map_set_keys_old by (by rewrite Hg).
              apply Hkeys. eauto.
           ++ rewrite map_set_new, fmap_app by done.
              apply elem_of_app. left. apply Hkeys. eauto.
        -- subst r. destruct (map_get m (keyOf row)) as [v0|] eqn:Hg.
           ++ rewrite map_set_keys_old by (by rewrite Hg).
              by apply (map_get_elem_of m _ v0).
           ++ rewrite map_set_new, fmap_app by done.
              apply elem_of_app. right. by left.
    + intros k. rewrite map_get_set, Htot'.
      destruct (decide (keyOf row = k)) as [<-|Hne].
      * rewrite decide_True by done. cbn [default from_option id].
        by rewrite Htot.
      * rewrite decide_False by tauto. rewrite Htot. ring.
    + apply Forall_forall. intros v (e & -> & He)%list_elem_of_fmap.
      apply map_set_elem_of in He as [->|He].
      * cbn [snd]. pose proof (kept_value_pos row Hk) as Hv.
        assert (0 ≤ default 0 (map_get m (keyOf row))) as H0.
        { destruct (map_get m (keyOf row)) as [v0|] eqn:Hg; [|apply Qcle_refl].
          apply Qclt_le_weak. rewrite Forall_forall in Hpos.
          by apply Hpos, (map_get_elem_of m (keyOf row)). }
        qc_lra.
      * rewrite Forall_forall in Hpos. apply Hpos, list_elem_of_fmap. eauto.
    + rewrite map_set_sum, Hsum. ring.
  - split; [done|]. split; [|split; [|split; [done|]]].
    + intros k. rewrite Hkeys. split.
      * intros (r & Hr & ?). exists r. split; [apply elem_of_app; by left|done].
      * intros (r & [Hr|Hr%list_elem_of_singleton]%elem_of_app & Hkr & ->);
          [eauto | by subst].
    + intros k. rewrite Htot', Htot. rewrite decide_False by tauto. ring.
    + rewrite Hsum. ring.
Qed.

(** ** The second loop: the node ids in first-seen order *)

Definition collect_inv (acc : list string * gset string) : Prop :=
  NoDup acc.1 ∧ (∀ s, s ∈ acc.2 ↔ s ∈ acc.1).

Lemma collectId_spec acc s :
  collect_inv acc →
  collect_inv (collectId acc s)
  ∧ ∀ x, x ∈ (collectId acc s).1 ↔ x ∈ acc.1 ∨ (x = s ∧ s ≠ EmptyString).
Proof.
  destruct acc as [ids seen]. intros [Hnd Hset]. cbn [fst snd] in *.
  unfold collectId, collect_inv. case_decide as Hc; cbn [fst snd].
  - destruct Hc as [Hs Hnew]. split; [split|].
    + apply NoDup_app. split; [done|]. split; [|apply NoDup_singleton].
      intros x Hx ->%list_elem_of_singleton. by apply Hnew, Hset.
    + intros x. rewrite elem_of_union, elem_of_singleton, elem_of_app,
        list_elem_of_singleton, Hset. tauto.
    + intros x. rewrite elem_of_app, list_elem_of_singleton. tauto.
  - split; [done|]. intros x. split; [by left|].
    intros [Hx|[-> Hs]]; [done|].
    destruct (decide (s ∈ seen)) as [Hin|Hn]; [by apply Hset | tauto].
Qed.

Lemma collect_spec rows :
  let r := fold_left collectRow rows ([], ∅) in
  collect_inv r
  ∧ ∀ s, s ∈ r.1 ↔
      s ≠ EmptyString
      ∧ ∃ row, row ∈ rows ∧ (s = Row.source row ∨ s = Row.target row).
Proof.
  induction rows as [|row rows IH] using rev_ind.
  { simpl. split.
    { split; [apply NoDup_nil_2|]. intros s. cbn [fst snd].
      split; [by intros ?%not_elem_of_empty | by intros ?%elem_of_nil]. }
    intros s. split; [by intros ?%elem_of_nil|].
    by intros (_ & row & ?%elem_of_nil & _). }
  cbv zeta in *. rewrite fold_left_app. cbn [fold_left].
  destruct IH as (Hinv & Hmem).
  set (acc := fold_left collectRow rows ([], ∅)) in *.
  unfold collectRow.
  destruct (collectId_spec acc (Row.source row) Hinv) as [Hinv1 Hmem1].
  destruct (collectId_spec _ (Row.target row) Hinv1) as [Hinv2 Hmem2].
  split; [done|]. intros s. rewrite Hmem2, Hmem1, Hmem. split.
  - intros [[(Hs & r & Hr & Hor)|[-> Hs]]|[-> Hs]].
    + split; [done|]. exists r. split; [apply elem_of_app; by left | done].
    + split; [done|]. exists row.
      split; [apply elem_of_app; right; left | by left].
    + split; [done|]. exists row.
      split; [apply elem_of_app; right; left | by right].
  - intros (Hs & r & [Hr|Hr%list_elem_of_singleton]%elem_of_app & Hor).
    + left. left. eauto.
    + subst r. destruct Hor as [->| ->]; [left; right | right]; done.
Qed.

(** ** The third loop: the node objects and [nodeMap] *)

Lemma createNodes_spec ids :
  NoDup ids →
  let r := fold_left createNode ids ([], []) in
  r.2 = newNode <$> ids
  ∧ ∀ id i, map_get r.1 id = Some i ↔ ids !! i = Some id.
Proof.
  induction ids as [|x ids IH] using rev_ind; intros Hnd.
  { simpl. split; [done|]. intros id i. split; [done|].
    by rewrite lookup_nil. }
  apply NoDup_app in Hnd as (Hnd & Hx & _).
  cbv zeta in *. rewrite fold_left_app. cbn [fold_left].
  destruct (IH Hnd) as [Ha Hm].
  destruct (fold_left createNode ids ([], [])) as [m a]. cbn [fst snd] in *.
  subst a. unfold createNode. cbn [fst snd]. split.
  - by rewrite fmap_app.
  - intros id i. rewrite map_get_set, length_fmap.
    destruct (decide (x = id)) as [->|Hne].
    + split.
      * intros [= <-]. rewrite lookup_app_r by lia.
        by rewrite Nat.sub_diag.
      * intros Hi. f_equal.
        apply lookup_app_Some in Hi as [Hi|[Hge Hi]].
        -- exfalso. apply (Hx id); [by eapply list_elem_of_lookup_2 | by left].
        -- apply list_lookup_singleton_Some in Hi as [? _]. lia.
    + rewrite Hm. split.
      * intros Hi. by apply lookup_app_l_Some.
      * intros Hi. apply lookup_app_Some in Hi as [Hi|[Hge Hi]]; [done|].
        apply list_lookup_singleton_Some in Hi as [_ ?]. done.
Qed.

(** ** The fourth loop: the links *)

(** The link object that an entry of [linkAgg] becomes. *)
Definition link_of (ids : list string) (e : string * Qc) (k : SankeyLink)
    : Prop :=
  ∃ s t, e.1 = s +:+ arrow +:+ t
         ∧ ids !! Link.source k = Some s ∧ ids !! Link.target k = Some t
         ∧ k = Link.mk (Link.source k) (Link.target k) e.2 0 0 0.

Definition good_entry (ids : list string) (e : string * Qc) : Prop :=
  ∃ s t, e.1 = s +:+ arrow +:+ t
         ∧ contains arrow s = false ∧ contains arrow t = false
         ∧ s ∈ ids ∧ t ∈ ids.

Section AddLinks.
Variable ids : list string.
Variable nodeMap : list (string * nat).
Hypothesis nodeMap_spec :
  ∀ id i, map_get nodeMap id = Some i ↔ ids !! i = Some id.

Definition links_inv (entries : list (string * Qc))
    (acc : list SankeyNode * list SankeyLink) : Prop :=
  wf_graph (mkGraph acc.1 acc.2)
  ∧ Node.id <$> acc.1 = ids
  ∧ Node.label <$> acc.1 = ids
  ∧ Forall2 (link_of ids) entries acc.2.

Lemma addLink_spec entries acc e :
  links_inv entries acc → good_entry ids e →
  ∃ acc', addLink nodeMap (Some acc) e = Some acc'
          ∧ links_inv (entries ++ [e]) acc'.
Proof.
  destruct acc as [ns ls].
  intros (Hwf & Hid & Hlab & Hlinks) (s & t & Hkey & Hs & Ht & Hsin & Htin).
  cbn [fst snd] in *.
  apply list_elem_of_lookup in Hsin as [i Hi], Htin as [j Hj].
  assert (Hlen : length ns = length ids) by (by rewrite <- Hid, length_fmap).
  pose proof (lookup_lt_Some _ _ _ Hi) as Hilt.
  pose proof (lookup_lt_Some _ _ _ Hj) as Hjlt.
  exists (wire i j e.2 ns ls). split.
  - unfold addLink. cbn [mbind option_bind].
    rewrite Hkey, split_key by done. cbn [lookup list_lookup mbind option_bind].
    rewrite (proj2 (nodeMap_spec s i) Hi), (proj2 (nodeMap_spec t j) Hj).
    done.
  - split; [apply wf_graph_wire; [lia..|done]|].
    split; [by rewrite wire_ids|]. split.
    + unfold wire. cbn [fst]. by rewrite !fmap_alter_pres.
    + unfold wire. cbn [snd]. apply Forall2_app; [done|].
      constructor; [|constructor]. by exists s, t.
Qed.

Lemma addLinks_spec todo :
  ∀ entries acc,
    links_inv entries acc → Forall (good_entry ids) todo →
    ∃ acc', fold_left (addLink nodeMap) todo (Some acc) = Some acc'
            ∧ links_inv (entries ++ todo) acc'.
Proof.
  induction todo as [|e todo IH]; intros entries acc Hinv Hgood.
  { exists acc. by rewrite app_nil_r. }
  apply Forall_cons in Hgood as [He Hgood].
  destruct (addLink_spec entries acc e Hinv He) as (acc1 & Hstep & Hinv1).
  destruct (IH _ _ Hinv1 Hgood) as (acc' & Hfold & Hinv').
  exists acc'. cbn [fold_left]. rewrite Hstep.
  split; [done|]. by rewrite <- app_assoc in Hinv'.
Qed.
End AddLinks.

Lemma wf_graph_arena ids :
  NoDup ids → wf_graph (mkGraph (newNode <$> ids) []).
Proof.
  intros Hnd. apply wf_graph_alt. cbn [nodes links]. split; [|split].
  - rewrite <- list_fmap_compose. by rewrite list_fmap_id.
  - intros i n (id & -> & _)%list_lookup_fmap_Some.
    unfold wf_node. cbn. repeat split; constructor.
  - by intros l k ?.
Qed.

(** The names of the rows hold no separator. *)
Definition arrow_free (rows : list Row.t) : Prop :=
  Forall
    (λ row, contains arrow (Row.source row) = false
            ∧ contains arrow (Row.target row) = false)
    rows.

Global Instance arrow_free_dec rows : Decision (arrow_free rows).
Proof. unfold arrow_free. apply _. Defined.

Definition nodeIdsOf (rows : list Row.t) : list string :=
  (fold_left collectRow rows ([], ∅)).1.

Definition linkAggOf (rows : list Row.t) : list (string * Qc) :=
  fold_left aggregate rows [].

Lemma transform_spec rows :
  arrow_free rows →
  ∃ g, transform rows = Some g
       ∧ wf_graph g
       ∧ Node.id <$> nodes g = nodeIdsOf rows
       ∧ Node.label <$> nodes g = nodeIdsOf rows
       ∧ Forall2 (link_of (nodeIdsOf rows)) (linkAggOf rows) (links g).
Proof.
  intros Hfree. unfold transform. fold (nodeIdsOf rows) (linkAggOf rows).
  destruct (collect_spec rows) as [[Hnd _] Hmem]. fold (nodeIdsOf rows) in *.
  destruct (createNodes_spec (nodeIdsOf rows) Hnd) as [Harena Hmap].
  destruct (fold_left createNode (nodeIdsOf rows) ([], [])) as [nodeMap arena].
  cbn [fst snd] in *. subst arena.
  destruct (aggregate_spec rows) as (_ & Hkeys & _). fold (linkAggOf rows) in *.
  destruct (addLinks_spec (nodeIdsOf rows) nodeMap Hmap (linkAggOf rows) []
              (newNode <$> nodeIdsOf rows, []))
    as ([ns ls] & Hfold & Hwf & Hid & Hlab & Hlinks).
  - split; [by apply wf_graph_arena|]. cbn [fst snd]. split; [|split].
    + rewrite <- list_fmap_compose. by rewrite list_fmap_id.
    + rewrite <- list_fmap_compose. by rewrite list_fmap_id.
    + constructor.
  - apply Forall_forall. intros e He.
    destruct (proj1 (Hkeys e.1)) as (row & Hrow & Hk & Heq).
    { apply list_elem_of_fmap. eauto. }
    unfold arrow_free in Hfree. rewrite Forall_forall in Hfree.
    destruct (Hfree row Hrow) as [Hs Ht].
    exists (Row.source row), (Row.target row).
    split; [done|]. split; [done|]. split; [done|].
    unfold kept in Hk. split; apply Hmem; (split; [tauto|]); eauto.
  - exists (mkGraph ns ls). rewrite Hfold. cbn [mbind option_bind].
    done.
Qed.

(** ** What [transform] returns *)

Lemma key_inj s t s' t' :
  contains arrow s = false → contains arrow t = false →
  contains arrow s' = false → contains arrow t' = false →
  s +:+ arrow +:+ t = s' +:+ arrow +:+ t' → s = s' ∧ t = t'.
Proof.
  intros Hs Ht Hs' Ht' Heq.
  assert (Hsplit : split (s +:+ arrow +:+ t) arrow
                   = split (s' +:+ arrow +:+ t') arrow) by by rewrite Heq.
  rewrite !split_key in Hsplit by done. by injection Hsplit.
Qed.

Lemma nodeIdsOf_arrow_free rows s :
  arrow_free rows → s ∈ nodeIdsOf rows → contains arrow s = false.
Proof.
  intros Hfree Hs. destruct (collect_spec rows) as [_ Hmem].
  apply Hmem in Hs as (_ & row & Hrow & Hor).
  unfold arrow_free in Hfree. rewrite Forall_forall in Hfree.
  destruct (Hfree row Hrow) as [H1 H2]. by destruct Hor as [->| ->].
Qed.

(** For rows whose names hold no separator, [transform] raises no exception
    and returns a well-formed graph: the node ids are unique, every link sits
    once in the [sourceLinks] of its source and once in the [targetLinks] of
    its target, and nowhere else. *)
Theorem transform_well_formed (rows : list Row.t) :
  arrow_free rows →
  ∃ g, transform rows = Some g ∧ wf_graph g.
Proof.
  intros Hfree. destruct (transform_spec rows Hfree) as (g & Hg & Hwf & _).
  by exists g.
Qed.

Lemma transform_well_formed_witness :
  ∃ g, transform funnelRows = Some g ∧ wf_graph g.
Proof.
  apply (transform_well_formed funnelRows).
  apply (bool_decide_unpack _). vm_compute. exact I.
Defined.

(** The nodes that [transform] returns are the names that occur as the
    source or the target of some row and are not empty, each once, also
    those that occur only in rows the aggregation skips; the label of a node
    is its id. *)
Theorem transform_node_ids (rows : list Row.t) (g : SankeyGraph) :
  arrow_free rows →
  transform rows = Some g →
  NoDup (Node.id <$> nodes g)
  ∧ Node.label <$> nodes g = Node.id <$> nodes g
  ∧ ∀ s, s ∈ Node.id <$> nodes g ↔
      s ≠ EmptyString
      ∧ ∃ row, row ∈ rows ∧ (s = Row.source row ∨ s = Row.target row).
Proof.
  intros Hfree Hg.
  destruct (transform_spec rows Hfree) as (g0 & Hg0 & Hwf & Hid & Hlab & _).
  assert (g0 = g) as -> by congruence.
  destruct (collect_spec rows) as [[Hnd _] Hmem]. fold (nodeIdsOf rows) in *.
  rewrite Hid, Hlab. done.
Qed.

Lemma transform_node_ids_witness :
  ∃ g, transform funnelRows = Some g
    ∧ NoDup (Node.id <$> nodes g)
    ∧ Node.label <$> nodes g = Node.id <$> nodes g
    ∧ ∀ s, s ∈ Node.id <$> nodes g ↔
        s ≠ EmptyString
        ∧ ∃ row, row ∈ funnelRows ∧ (s = Row.source row ∨ s = Row.target row).
Proof.
  destruct (transform funnelRows) as [g|] eqn:H.
  - exists g. split; [reflexivity|].
    apply (transform_node_ids funnelRows g); [|done].
    apply (bool_decide_unpack _). vm_compute. exact I.
  - vm_compute in H. discriminate H.
Defined.

(** The total of the rows from [s] to [t] that the aggregation keeps. *)
Definition pairTotal (rows : list Row.t) (s t : string) : Qc :=
  Qc_sum
    (Row.value
       <$> filter (λ row, kept row ∧ Row.source row = s ∧ Row.target row = t)
             rows).

Lemma keyTotal_pairTotal rows s t :
  arrow_free rows → contains arrow s = false → contains arrow t = false →
  keyTotal rows (s +:+ arrow +:+ t) = pairTotal rows s t.
Proof.
  intros Hfree Hs Ht. unfold keyTotal, pairTotal. f_equal. f_equal.
  apply filter_ext_in. intros row Hrow.
  unfold arrow_free in Hfree. rewrite Forall_forall in Hfree.
  destruct (Hfree row Hrow) as [H1 H2]. unfold keyOf. split.
  - intros [Hk Heq]. split; [done|]. by apply key_inj.
  - intros (Hk & -> & ->). done.
Qed.

(** The link at position [l] of the result, read against the entry at
    position [l] of [linkAgg]. *)
Lemma transform_link rows g l k :
  arrow_free rows → transform rows = Some g → links g !! l = Some k →
  ∃ s t v,
    linkAggOf rows !! l = Some (s +:+ arrow +:+ t, v)
    ∧ contains arrow s = false ∧ contains arrow t = false
    ∧ nodes g !! Link.source k ≫= (λ n, Some (Node.id n)) = Some s
    ∧ nodes g !! Link.target k ≫= (λ n, Some (Node.id n)) = Some t
    ∧ Link.value k = v.
Proof.
  intros Hfree Hg Hk.
  destruct (transform_spec rows Hfree) as (g0 & Hg0 & _ & Hid & _ & Hlinks).
  assert (g0 = g) as -> by congruence.
  destruct (Forall2_lookup_r _ _ _ _ _ Hlinks Hk)
    as ([key v] & He & s & t & Hkey & Hs & Ht & Hv).
  cbn [fst snd] in *. subst key. exists s, t, v. split; [done|].
  split; [by eapply nodeIdsOf_arrow_free, list_elem_of_lookup_2|].
  split; [by eapply nodeIdsOf_arrow_free, list_elem_of_lookup_2|].
  rewrite <- Hid, !list_lookup_fmap in Hs, Ht.
  split; [|split]; [| |by rewrite Hv].
  - by destruct (nodes g !! Link.source k).
  - by destruct (nodes g !! Link.target k).
Qed.

Lemma lookup_id_total (ns : list SankeyNode) i s :
  ns !! i ≫= (λ n, Some (Node.id n)) = Some s → Node.id (ns !!! i) = s.
Proof.
  destruct (ns !! i) as [n|] eqn:Hn; [|done]. intros [= <-].
  by rewrite (list_lookup_total_correct _ _ _ Hn).
Qed.

(** For rows whose names hold no separator: every link of the result has a
    positive value, the sum of the values of the kept rows that run from the
    id of its source to the id of its target; every kept row is covered by a
    link between its two names; and no two links join the same source to the
    same target. *)
Theorem transform_links_aggregate (rows : list Row.t) (g : SankeyGraph) :
  arrow_free rows →
  transform rows = Some g →
  Forall
    (λ k, 0 < Link.value k
          ∧ Link.value k
            = pairTotal rows (Node.id (nodes g !!! Link.source k))
                (Node.id (nodes g !!! Link.target k)))
    (links g)
  ∧ (∀ row, row ∈ rows → kept row →
       ∃ k, k ∈ links g
            ∧ Node.id (nodes g !!! Link.source k) = Row.source row
            ∧ Node.id (nodes g !!! Link.target k) = Row.target row)
  ∧ (∀ l l' k k',
       links g !! l = Some k → links g !! l' = Some k' →
       Link.source k = Link.source k' → Link.target k = Link.target k' →
       l = l').
Proof.
  intros Hfree Hg.
  destruct (aggregate_spec rows) as (Hnd & Hkeys & Htot & Hpos & _).
  fold (linkAggOf rows) in *.
  split; [|split].
  - apply Forall_lookup. intros l k Hk.
    destruct (transform_link rows g l k Hfree Hg Hk)
      as (s & t & v & He & Hs & Ht & Hsid & Htid & Hv).
    rewrite (lookup_id_total _ _ _ Hsid), (lookup_id_total _ _ _ Htid), Hv.
    split.
    + rewrite Forall_forall in Hpos. apply Hpos.
      apply list_elem_of_fmap. exists (s +:+ arrow +:+ t, v).
      split; [done|]. by eapply list_elem_of_lookup_2.
    + rewrite <- keyTotal_pairTotal, <- Htot by done.
      by rewrite (map_get_NoDup _ _ _ _ Hnd He).
  - intros row Hrow Hk.
    assert (Hin : keyOf row ∈ (linkAggOf rows).*1).
    { apply Hkeys. eauto. }
    apply list_elem_of_fmap in Hin as ([key v] & Hkey & He).
    cbn [fst] in Hkey. subst key.
    apply list_elem_of_lookup in He as [l He].
    destruct (transform_spec rows Hfree) as (g0 & Hg0 & _ & _ & _ & Hlinks).
    assert (g0 = g) as -> by congruence.
    destruct (Forall2_lookup_l _ _ _ _ _ Hlinks He) as (k & Hlk & _).
    destruct (transform_link rows g l k Hfree Hg Hlk)
      as (s & t & v' & He' & Hs & Ht & Hsid & Htid & Hv).
    rewrite He in He'. injection He' as Heq _.
    unfold arrow_free in Hfree. rewrite Forall_forall in Hfree.
    destruct (Hfree row Hrow) as [H1 H2].
    apply key_inj in Heq as [-> ->]; [|done..].
    exists k. split; [by eapply list_elem_of_lookup_2|].
    by rewrite (lookup_id_total _ _ _ Hsid), (lookup_id_total _ _ _ Htid).
  - intros l l' k k' Hk Hk' Hsrc Htgt.
    destruct (transform_link rows g l k Hfree Hg Hk)
      as (s & t & v & He & _ & _ & Hsid & Htid & _).
    destruct (transform_link rows g l' k' Hfree Hg Hk')
      as (s' & t' & v' & He' & _ & _ & Hsid' & Htid' & _).
    rewrite Hsrc, Hsid' in Hsid. rewrite Htgt, Htid' in Htid.
    injection Hsid as ->. injection Htid as ->.
    apply (NoDup_lookup _ l l' (s +:+ arrow +:+ t) Hnd);
      rewrite list_lookup_fmap; [by rewrite He | by rewrite He'].
Qed.

Lemma transform_links_aggregate_witness :
  ∃ g, transform funnelRows = Some g
    ∧ Forall
        (λ k, 0 < Link.value k
              ∧ Link.value k
                = pairTotal funnelRows (Node.id (nodes g !!! Link.source k))
                    (Node.id (nodes g !!! Link.target k)))
        (links g).
Proof.
  destruct (transform funnelRows) as [g|] eqn:H.
  - exists g. split; [reflexivity|].
    apply (transform_links_aggregate funnelRows g); [|done].
    apply (bool_decide_unpack _). vm_compute. exact I.
  - vm_compute in H. discriminate H.
Defined.

(** The names hold the separator: the key [a→b→c] splits into [a], [b] and
    [c]; no node has the id [a], and [source.sourceLinks] raises. *)
Lemma transform_separator_in_name :
  transform [Row.mk "a→b" "c" 1] = None.
Proof. vm_compute. reflexivity. Qed.

(** * SankeyChart.setData (chart.ts): transform, then layout *)

Lemma wf_graph_endpoints_valid g : wf_graph g → endpoints_valid g.
Proof.
  intros Hwf. apply wf_graph_alt in Hwf as (_ & Hn & Hl).
  unfold endpoints_valid. apply Forall_lookup. intros i n Hi.
  unfold targetsOf. apply Forall_fmap, Forall_forall. intros l Hin.
  pose proof (wf_node_link_lt _ _ _ l (Hn i n Hi) (or_introl Hin)) as Hlt.
  destruct (lookup_lt_is_Some_2 _ _ Hlt) as [k Hk].
  unfold compose. rewrite (list_lookup_total_correct _ _ _ Hk).
  destruct (Hl l k Hk) as [_ Ht].
  destruct (nodes g !! Link.target k) as [m|] eqn:Hm;
    [by eapply lookup_lt_Some | by apply elem_of_nil in Ht].
Qed.

Lemma compute_no_exception config g :
  NoDup (Node.id <$> nodes g) → endpoints_valid g →
  ∃ g', compute config g = Some g'.
Proof.
  intros Hids Hends.
  destruct (decide (nodes g = [])) as [Hnil|Hne].
  { exists g. unfold compute. by rewrite Hnil. }
  destruct (relaxNodePositions_Some config (links g) (placed config g))
    as [ns1 Hrelax].
  { apply (columns_inhabited_ext _ _ (placed_depth config g)).
    apply computeDepths_columns_inhabited; [done..|].
    intros i t. by apply endpoints_valid_targets. }
  eexists. apply compute_stages; [done|]. eauto.
Qed.

(** For rows whose names hold no separator, and whatever the configuration,
    neither [TabularTransform.transform] nor [SankeyLayout.compute] raises
    an exception in [setData], and the graph that is laid out is well
    formed and has links of positive value only. *)
Theorem setData_lays_out (config : SankeyConfig) (rows : list Row.t) :
  arrow_free rows →
  ∃ g g', transform rows = Some g
          ∧ compute config g = Some g'
          ∧ wf_graph g'
          ∧ Forall (λ k, 0 < Link.value k) (links g').
Proof.
  intros Hfree.
  destruct (transform_spec rows Hfree) as (g & Hg & Hwf & _).
  destruct (compute_no_exception config g) as [g' Hc].
  { by destruct Hwf. }
  { by apply wf_graph_endpoints_valid. }
  exists g, g'. split; [done|]. split; [done|].
  split; [by eapply wf_graph_compute|].
  destruct (aggregate_spec rows) as (_ & _ & _ & Hpos & _).
  fold (linkAggOf rows) in Hpos. rewrite Forall_forall in Hpos.
  pose proof (compute_same_structure config g g' Hc) as (_&_&_&_&Hv).
  apply (Forall_fmap Link.value (λ v, 0 < v)). rewrite Hv.
  apply Forall_fmap, Forall_lookup. intros l k Hk. unfold compose.
  destruct (transform_link rows g l k Hfree Hg Hk)
    as (s & t & v & He & _ & _ & _ & _ & Hv').
  rewrite Hv'. apply Hpos. apply list_elem_of_fmap.
  exists (s +:+ arrow +:+ t, v). split; [done|].
  by eapply list_elem_of_lookup_2.
Qed.

Lemma setData_lays_out_witness :
  ∃ g g', transform funnelRows = Some g
          ∧ compute DEFAULT_CONFIG g = Some g'
          ∧ wf_graph g'
          ∧ Forall (λ k, 0 < Link.value k) (links g').
Proof.
  apply (setData_lays_out DEFAULT_CONFIG funnelRows).
  apply (bool_decide_unpack _). vm_compute. exact I.
Defined.

(** * The bottom edge of the drawing area

    [resolveCollisions] ends with the last node of the column at or above
    [height - padding.bottom]; every column that the relaxation visits is
    left that way. *)

Definition innerBottom (config : SankeyConfig) : Qc :=
  Config.height config - Padding.bottom (Config.padding config).


Section Bottom.
Variable config : SankeyConfig.
Hypothesis pad_nonneg : 0 ≤ Config.nodePadding config.








End Bottom.





(** * A second run of the layout

    [compute] run on its own result.  The traversal, the values and the
    relaxation read the link arrays only through sums and membership, so
    the order that the first run left them in does not matter; and the
    final sort finds the arrays sorted. *)

(** ** The layering does not depend on the order of the link arrays *)







Section BFSNoFresh.
Variable ls : list SankeyLink.
Variable ns0 : list SankeyNode.
Hypothesis ids_unique : NoDup (Node.id <$> ns0).
Hypothesis targets_valid :
  ∀ i t, (i < length ns0)%nat → t ∈ targetsOf ls (ns0 !!! i) →
         (t < length ns0)%nat.

End BFSNoFresh.

Section BFSSim.
Variables lsA lsB : list SankeyLink.
Variables nsA0 nsB0 : list SankeyNode.
Hypothesis ids_unique : NoDup (Node.id <$> nsA0).
Hypothesis targets_valid :
  ∀ i t, (i < length nsA0)%nat → t ∈ targetsOf lsA (nsA0 !!! i) →
         (t < length nsA0)%nat.
Hypothesis same_ids : Node.id <$> nsB0 = Node.id <$> nsA0.
Hypothesis same_targets :
  ∀ i t, t ∈ targetsOf lsB (nsB0 !!! i) ↔ t ∈ targetsOf lsA (nsA0 !!! i).





Lemma sim_idSet : idSet nsB0 = idSet nsA0.
Proof. unfold idSet. by rewrite same_ids. Qed.



End BFSSim.

(** The link arrays of [ns'] are those of [ns], reordered. *)
Definition same_links_up_to_order (ns ns' : list SankeyNode) : Prop :=
  Forall2 (λ n n', Node.sourceLinks n' ≡ₚ Node.sourceLinks n
                   ∧ Node.targetLinks n' ≡ₚ Node.targetLinks n) ns ns'.




(** ** The stages up to the initial placement do not depend on the order of
    the link arrays, nor on the fields they overwrite *)




Section PlaceSim.
Variable config : SankeyConfig.
Variable gs : Qc.
Variables nsA nsB : list SankeyNode.
Hypothesis same_values : Node.value <$> nsB = Node.value <$> nsA.



End PlaceSim.


(** ** The relaxation does not depend on the order of the link arrays *)

(** Two nodes that differ at most in the order of their link arrays. *)
Definition sim_node (n n' : SankeyNode) : Prop :=
  erase_links n = erase_links n'
  ∧ Node.sourceLinks n' ≡ₚ Node.sourceLinks n
  ∧ Node.targetLinks n' ≡ₚ Node.targetLinks n.


(** Two link stores that differ at most in [width], [sy] and [ty]. *)
Definition sim_links (ls ls' : list SankeyLink) : Prop :=
  erase_offsets <$> ls = erase_offsets <$> ls'.


Lemma sim_node_refl n : sim_node n n.
Proof. done. Qed.









Section RelaxSim.
Variable config : SankeyConfig.
Variables ls ls' : list SankeyLink.
Hypothesis links_agree : sim_links ls ls'.












End RelaxSim.

(** ** The stages up to the initial placement, on two graphs that differ in
    the order of the link arrays and in the fields these stages overwrite *)




Section PlacedSim.
Variable config : SankeyConfig.
Variables gA gB : SankeyGraph.
Hypothesis ids_unique : NoDup (Node.id <$> nodes gA).
Hypothesis ends_valid : endpoints_valid gA.
Hypothesis same_ids : Node.id <$> nodes gB = Node.id <$> nodes gA.
Hypothesis same_labels : Node.label <$> nodes gB = Node.label <$> nodes gA.
Hypothesis same_arrays : same_links_up_to_order (nodes gA) (nodes gB).
Hypothesis links_agree : sim_links (links gA) (links gB).







End PlacedSim.

(** ** Sorting a sorted array; offsets are determined by the widths *)









(** ** The node geometry does not depend on the order of the link arrays *)

Global Instance same_links_up_to_order_dec ns ns' :
  Decision (same_links_up_to_order ns ns').
Proof. unfold same_links_up_to_order. apply _. Defined.

Global Instance SankeyLink_eq_dec : EqDecision SankeyLink.
Proof. solve_decision. Defined.

Global Instance sim_links_dec ls ls' : Decision (sim_links ls ls').
Proof. unfold sim_links. apply _. Defined.

Global Instance endpoints_valid_dec g : Decision (endpoints_valid g).
Proof. unfold endpoints_valid. apply _. Defined.




(** * Highlighter (interactions/highlighter.ts): what a hover highlights

    [collectForward] and [collectBackward] fill two sets, the ids of the
    connected links and the ids of the connected nodes; [applyHighlight]
    then restyles the DOM elements by membership in these sets and is not
    modelled.  The two traversals have one shape and differ in the link
    array they follow ([sourceLinks] or [targetLinks]) and in the end of the
    link they move to ([target] or [source]); the model states that shape
    once.  The recursion of the source is bounded by fuel: [None] when the
    fuel runs out. *)

(** The id of a link: [`${link.source.id}→${link.target.id}`]. *)
Definition linkId (g : SankeyGraph) (l : nat) : string :=
  Node.id (nodes g !!! Link.source (links g !!! l)) +:+ arrow
  +:+ Node.id (nodes g !!! Link.target (links g !!! l)).

(** One turn of the loop over the links of a node; [visit] is the recursive
    call. *)
Definition collectStep (far : SankeyLink → nat) (g : SankeyGraph)
    (visit : nat → gset string * gset string → option (gset string * gset string))
    (acc : option (gset string * gset string)) (l : nat)
    : option (gset string * gset string) :=
  '(lks, nds) ← acc;
  let id := linkId g l in
  if decide (id ∈ lks) then Some (lks, nds)
  else
    let other := far (links g !!! l) in
    visit other ({[ id ]} ∪ lks, {[ Node.id (nodes g !!! other) ]} ∪ nds).

Fixpoint collect (arr : SankeyNode → list nat) (far : SankeyLink → nat)
    (fuel : nat) (g : SankeyGraph) (node : nat)
    (acc : gset string * gset string) : option (gset string * gset string) :=
  match fuel with
  | O => None
  | S fuel' =>
      fold_left (collectStep far g (collect arr far fuel' g))
        (arr (nodes g !!! node)) (Some acc)
  end.

Definition collectForward := collect Node.sourceLinks Link.target.
Definition collectBackward := collect Node.targetLinks Link.source.

Inductive HighlightMode := HlForward | HlBackward | HlBoth | HlNone.

(** The fuel that suffices: one more than the number of entries of the link
    arrays. *)
Definition collectFuel (g : SankeyGraph) : nat :=
  S (length (mjoin (Node.sourceLinks <$> nodes g))
     + length (mjoin (Node.targetLinks <$> nodes g))).

(** The sets that [highlightNode] hands to [applyHighlight]; the inner
    [None] is the early return of mode 'none'. *)
Definition highlightNode (mode : HighlightMode) (g : SankeyGraph) (node : nat)
    : option (option (gset string * gset string)) :=
  match mode with
  | HlNone => Some None
  | _ =>
      let acc := Some (∅, {[ Node.id (nodes g !!! node) ]}) in
      let acc :=
        match mode with
        | HlForward | HlBoth =>
            acc ≫= collectForward (collectFuel g) g node
        | _ => acc
        end in
      let acc :=
        match mode with
        | HlBackward | HlBoth =>
            acc ≫= collectBackward (collectFuel g) g node
        | _ => acc
        end in
      Some <$> acc
  end.

(** A cycle N -> P -> N with a feeder Q -> P. *)
Definition feederCycleGraph : SankeyGraph :=
  mkGraph
    [makeNode "N" [0%nat] [1%nat]; makeNode "P" [1%nat] [0%nat; 2%nat];
     makeNode "Q" [2%nat] []]
    [makeLink 0 1 5; makeLink 1 0 5; makeLink 2 1 3].


(** The links met by following [arr] from a node, moving to the [far] end
    of each link. *)
Inductive reach (arr : SankeyNode → list nat) (far : SankeyLink → nat)
    (g : SankeyGraph) (n : nat) : nat → Prop :=
  | reach_first l :
      l ∈ arr (nodes g !!! n) → reach arr far g n l
  | reach_next l l' :
      reach arr far g n l →
      l' ∈ arr (nodes g !!! far (links g !!! l)) →
      reach arr far g n l'.

Definition downstream := reach Node.sourceLinks Link.target.
Definition upstream := reach Node.targetLinks Link.source.

Definition allLinkIds (g : SankeyGraph) : gset string :=
  list_to_set
    (linkId g <$> (mjoin (Node.sourceLinks <$> nodes g)
                   ++ mjoin (Node.targetLinks <$> nodes g))).

Definition ids_arrow_free (g : SankeyGraph) : Prop :=
  Forall (λ n, contains arrow (Node.id n) = false) (nodes g).

Global Instance ids_arrow_free_dec g : Decision (ids_arrow_free g).
Proof. unfold ids_arrow_free. apply _. Defined.

Lemma size_insert_le (x : string) (X : gset string) :
  (size ({[ x ]} ∪ X) ≤ S (size X))%nat.
Proof.
  destruct (decide (x ∈ X)) as [Hx|Hx].
  - assert ({[ x ]} ∪ X = X) as -> by set_solver. lia.
  - rewrite size_union by set_solver. rewrite size_singleton. lia.
Qed.

Lemma size_list_to_set_le (l : list string) :
  (size (list_to_set (C:=gset string) l) ≤ length l)%nat.
Proof.
  induction l as [|x l IH].
  - change (list_to_set (C:=gset string) []) with (∅ : gset string).
    rewrite size_empty. simpl. lia.
  - cbn [list_to_set length]. pose proof (size_insert_le x (list_to_set l)). lia.
Qed.

Lemma size_diff_insert (x : string) (U L : gset string) :
  x ∈ U → x ∉ L → (size (U ∖ ({[ x ]} ∪ L)) < size (U ∖ L))%nat.
Proof. intros HU HL. apply subset_size. set_solver. Qed.

Lemma size_diff_mono (U L L1 : gset string) :
  L ⊆ L1 → (size (U ∖ L1) ≤ size (U ∖ L))%nat.
Proof. intros HL. apply subseteq_size. set_solver. Qed.

Section CollectTotal.
Variables (arr : SankeyNode → list nat) (far : SankeyLink → nat).
Variable g : SankeyGraph.
Variable U : gset string.
Hypothesis arr_in_U : ∀ n l, l ∈ arr (nodes g !!! n) → linkId g l ∈ U.

Lemma collect_total fuel n L N :
  (size (U ∖ L) < fuel)%nat →
  ∃ L' N', collect arr far fuel g n (L, N) = Some (L', N') ∧ L ⊆ L'.
Proof.
  revert n L N. induction fuel as [|fuel IH]; intros n L N Hsz; [lia|].
  cbn [collect].
  pose proof (arr_in_U n) as Hin. revert Hin.
  generalize (arr (nodes g !!! n)) as sl. intros sl.
  revert L N Hsz. induction sl as [|l sl IHsl]; intros L N Hsz Hin.
  - exists L, N. by split.
  - cbn [fold_left]. unfold collectStep at 2. cbn [mbind option_bind].
    destruct (decide (linkId g l ∈ L)) as [Hl|Hl].
    + apply IHsl; [done|]. intros l' Hl'. apply Hin. by right.
    + assert (HlU : linkId g l ∈ U) by (apply Hin; by left).
      pose proof (size_diff_insert _ _ _ HlU Hl) as Hlt.
      destruct (IH (far (links g !!! l)) ({[ linkId g l ]} ∪ L)
                  ({[ Node.id (nodes g !!! far (links g !!! l)) ]} ∪ N))
        as (L1 & N1 & E & Hsub); [lia|].
      cbv zeta. rewrite E.
      assert (HL1 : L ⊆ L1).
      { intros x Hx. apply Hsub. apply elem_of_union. by right. }
      pose proof (size_diff_mono U L L1 HL1) as Hle.
      destruct (IHsl L1 N1) as (L' & N' & E' & Hsub'); [lia| |].
      { intros l' Hl'. apply Hin. by right. }
      exists L', N'. split; [done|]. by transitivity L1.
Qed.

End CollectTotal.

(** What the traversal has collected, provided that the links in the arrays
    exist and that the id of a link determines its far end. *)
Section CollectSpec.
Variables (arr : SankeyNode → list nat) (far : SankeyLink → nat).
Variable g : SankeyGraph.
Hypothesis arr_valid :
  ∀ n l, l ∈ arr (nodes g !!! n) → (l < length (links g))%nat.
Hypothesis far_by_id :
  ∀ l l', (l < length (links g))%nat → (l' < length (links g))%nat →
          linkId g l = linkId g l' →
          far (links g !!! l) = far (links g !!! l').

Definition farId (l : nat) : string :=
  Node.id (nodes g !!! far (links g !!! l)).

Lemma reach_valid n l : reach arr far g n l → (l < length (links g))%nat.
Proof. destruct 1; eauto. Qed.

Lemma reach_trans n l l' :
  l ∈ arr (nodes g !!! n) → reach arr far g (far (links g !!! l)) l' →
  reach arr far g n l'.
Proof.
  intros Hl. induction 1 as [k Hk | k k' Hr IH Hk].
  - eapply reach_next; [by apply reach_first | done].
  - eapply reach_next; [apply IH | done].
Qed.

(** The state of the loop of a call on [n], entered with the sets [L] and
    [N], after the links [seen]. *)
Definition traversal_inv (n : nat) (seen : list nat)
    (L N Lc Nc : gset string) : Prop :=
  L ⊆ Lc ∧ N ⊆ Nc
  ∧ (∀ l, l ∈ seen → linkId g l ∈ Lc)
  ∧ (∀ l l', (l < length (links g))%nat → linkId g l ∈ Lc → linkId g l ∉ L →
             l' ∈ arr (nodes g !!! far (links g !!! l)) → linkId g l' ∈ Lc)
  ∧ (∀ s, s ∈ Lc → s ∉ L → ∃ l, reach arr far g n l ∧ linkId g l = s)
  ∧ (∀ s, s ∈ Nc → s ∉ N →
          ∃ l, reach arr far g n l ∧ linkId g l ∉ L ∧ s = farId l)
  ∧ (∀ l, (l < length (links g))%nat → linkId g l ∈ Lc → linkId g l ∉ L →
          farId l ∈ Nc).

Lemma traversal_inv_init n L N : traversal_inv n [] L N L N.
Proof.
  repeat split; try done.
  - intros l Hl. by apply elem_of_nil in Hl.
Qed.

Lemma traversal_inv_skip n seen l L N Lc Nc :
  traversal_inv n seen L N Lc Nc → linkId g l ∈ Lc →
  traversal_inv n (seen ++ [l]) L N Lc Nc.
Proof.
  intros (HL & HN & Hseen & Hrest) Hl. split; [done|]. split; [done|].
  split; [|done].
  intros l0 Hl0. apply elem_of_app in Hl0 as [Hl0|Hl0]; [by apply Hseen|].
  apply list_elem_of_singleton in Hl0. by subst.
Qed.

Lemma traversal_inv_visit n seen l L N Lc Nc L1 N1 :
  l ∈ arr (nodes g !!! n) →
  traversal_inv n seen L N Lc Nc → linkId g l ∉ Lc →
  traversal_inv (far (links g !!! l)) (arr (nodes g !!! far (links g !!! l)))
    ({[ linkId g l ]} ∪ Lc) ({[ farId l ]} ∪ Nc) L1 N1 →
  traversal_inv n (seen ++ [l]) L N L1 N1.
Proof.
  intros Hl (HL & HN & Hseen & Hclos & Hsound & HNsound & HNcompl) Hfresh
    (HL1 & HN1 & Hseen1 & Hclos1 & Hsound1 & HNsound1 & HNcompl1).
  assert (HLc1 : Lc ⊆ L1).
  { intros x Hx. apply HL1, elem_of_union. by right. }
  assert (HNc1 : Nc ⊆ N1).
  { intros x Hx. apply HN1, elem_of_union. by right. }
  assert (Hl1 : linkId g l ∈ L1).
  { apply HL1, elem_of_union. left. by apply elem_of_singleton. }
  assert (Hlv : (l < length (links g))%nat) by by eapply arr_valid.
  split; [by transitivity Lc|]. split; [by transitivity Nc|].
  split; [|split; [|split; [|split]]].
  - intros l0 Hl0. apply elem_of_app in Hl0 as [Hl0|Hl0].
    + by apply HLc1, Hseen.
    + apply list_elem_of_singleton in Hl0. by subst.
  - intros l0 l' Hv Hin HnL Hl'.
    destruct (decide (linkId g l0 = linkId g l)) as [E|NE].
    { apply Hseen1. by rewrite <- (far_by_id l0 l Hv Hlv E). }
    destruct (decide (linkId g l0 ∈ Lc)) as [Hc|Hc].
    { by apply HLc1, (Hclos l0 l'). }
    apply (Hclos1 l0 l'); [done | done | | done].
    intros [Hx|Hx]%elem_of_union; [|done].
    by apply elem_of_singleton in Hx.
  - intros s Hs HnL.
    destruct (decide (s = linkId g l)) as [->|NE].
    { exists l. split; [by apply reach_first | done]. }
    destruct (decide (s ∈ Lc)) as [Hc|Hc]; [by apply Hsound|].
    destruct (Hsound1 s Hs) as (l0 & Hr & E).
    { intros [Hx|Hx]%elem_of_union; [|done].
      by apply elem_of_singleton in Hx. }
    exists l0. split; [by eapply reach_trans | done].
  - intros s Hs HnN.
    destruct (decide (s = farId l)) as [->|NE].
    { exists l. split; [by apply reach_first|]. split; [|done].
      intros Hx. by apply Hfresh, HL. }
    destruct (decide (s ∈ Nc)) as [Hc|Hc]; [by apply HNsound|].
    destruct (HNsound1 s Hs) as (l0 & Hr & Hn0 & E).
    { intros [Hx|Hx]%elem_of_union; [|done].
      by apply elem_of_singleton in Hx. }
    exists l0. split; [by eapply reach_trans|]. split; [|done].
    intros Hx. apply Hn0, elem_of_union. right. by apply HL.
  - intros l0 Hv Hin HnL.
    destruct (decide (linkId g l0 = linkId g l)) as [E|NE].
    { apply HN1, elem_of_union. left. apply elem_of_singleton.
      unfold farId. by rewrite (far_by_id l0 l Hv Hlv E). }
    destruct (decide (linkId g l0 ∈ Lc)) as [Hc|Hc].
    { by apply HNc1, HNcompl. }
    apply HNcompl1; [done | done |].
    intros [Hx|Hx]%elem_of_union; [|done].
    by apply elem_of_singleton in Hx.
Qed.

Lemma collectStep_None visit sl :
  fold_left (collectStep far g visit) sl None = None.
Proof. by induction sl. Qed.

Lemma traversal_spec fuel n L N L' N' :
  collect arr far fuel g n (L, N) = Some (L', N') →
  traversal_inv n (arr (nodes g !!! n)) L N L' N'.
Proof.
  revert n L N L' N'.
  induction fuel as [|fuel IH]; intros n L N L' N' Hc; [done|].
  cbn [collect] in Hc.
  assert (Hloop : ∀ sl seen Lc Nc,
    arr (nodes g !!! n) = seen ++ sl →
    traversal_inv n seen L N Lc Nc →
    fold_left (collectStep far g (collect arr far fuel g)) sl (Some (Lc, Nc))
    = Some (L', N') →
    traversal_inv n (seen ++ sl) L N L' N').
  { induction sl as [|l sl IHsl]; intros seen Lc Nc Harr Hinv Hf.
    - simpl in Hf. injection Hf as <- <-. by rewrite app_nil_r.
    - cbn [fold_left] in Hf. unfold collectStep at 2 in Hf.
      cbn [mbind option_bind] in Hf.
      assert (Hl : l ∈ arr (nodes g !!! n)).
      { rewrite Harr. apply elem_of_app. right. by left. }
      replace (seen ++ l :: sl) with ((seen ++ [l]) ++ sl)
        by (by rewrite <- app_assoc).
      destruct (decide (linkId g l ∈ Lc)) as [Hin|Hin].
      + apply (IHsl (seen ++ [l]) Lc Nc);
          [by rewrite <- app_assoc | by apply traversal_inv_skip | done].
      + cbv zeta in Hf.
        destruct (collect arr far fuel g (far (links g !!! l)) _)
          as [[L1 N1]|] eqn:E.
        * apply IH in E. apply (IHsl (seen ++ [l]) L1 N1);
            [by rewrite <- app_assoc | by eapply traversal_inv_visit | done].
        * by rewrite collectStep_None in Hf. }
  apply (Hloop _ [] L N); [done | apply traversal_inv_init | done].
Qed.

(** Entered with a set [L] that holds the id of no link within reach, the
    traversal adds exactly the ids of the links within reach, and the ids of
    their far ends. *)
Lemma collect_exact fuel n L N L' N' :
  collect arr far fuel g n (L, N) = Some (L', N') →
  (∀ l, reach arr far g n l → linkId g l ∉ L) →
  (∀ s, s ∈ L' ↔ s ∈ L ∨ ∃ l, reach arr far g n l ∧ linkId g l = s)
  ∧ (∀ s, s ∈ N' ↔ s ∈ N ∨ ∃ l, reach arr far g n l ∧ s = farId l).
Proof.
  intros Hc Hfresh.
  apply traversal_spec in Hc
    as (HL & HN & Hseen & Hclos & Hsound & HNsound & HNcompl).
  assert (Hall : ∀ l, reach arr far g n l → linkId g l ∈ L').
  { intros l Hr. induction Hr as [l Hl | l l' Hr IH Hl'].
    - by apply Hseen.
    - apply (Hclos l l'); [by eapply reach_valid | done | | done].
      by apply Hfresh. }
  split; intros s; split.
  - intros Hs. destruct (decide (s ∈ L)) as [?|Hn]; [by left|].
    right. by apply Hsound.
  - intros [Hs|(l & Hr & <-)]; [by apply HL | by apply Hall].
  - intros Hs. destruct (decide (s ∈ N)) as [?|Hn]; [by left|].
    right. destruct (HNsound s Hs Hn) as (l & Hr & _ & E). by exists l.
  - intros [Hs|(l & Hr & ->)]; [by apply HN|].
    apply HNcompl; [by eapply reach_valid | by apply Hall | by apply Hfresh].
Qed.

End CollectSpec.

Lemma lookup_total_elem_or_dummy (ns : list SankeyNode) n :
  ns !!! n ∈ ns ∨ ns !!! n = Node.dummy.
Proof.
  rewrite list_lookup_total_alt. destruct (ns !! n) eqn:E.
  - left. by eapply list_elem_of_lookup_2.
  - by right.
Qed.

Lemma sourceLinks_in_all g n l :
  l ∈ Node.sourceLinks (nodes g !!! n) → linkId g l ∈ allLinkIds g.
Proof.
  intros Hl. unfold allLinkIds.
  apply elem_of_list_to_set, list_elem_of_fmap_2, elem_of_app. left.
  destruct (lookup_total_elem_or_dummy (nodes g) n) as [Hn|Hn].
  - apply list_elem_of_join. exists (Node.sourceLinks (nodes g !!! n)).
    split; [done|]. by apply list_elem_of_fmap_2.
  - rewrite Hn in Hl. by apply elem_of_nil in Hl.
Qed.

Lemma targetLinks_in_all g n l :
  l ∈ Node.targetLinks (nodes g !!! n) → linkId g l ∈ allLinkIds g.
Proof.
  intros Hl. unfold allLinkIds.
  apply elem_of_list_to_set, list_elem_of_fmap_2, elem_of_app. right.
  destruct (lookup_total_elem_or_dummy (nodes g) n) as [Hn|Hn].
  - apply list_elem_of_join. exists (Node.targetLinks (nodes g !!! n)).
    split; [done|]. by apply list_elem_of_fmap_2.
  - rewrite Hn in Hl. by apply elem_of_nil in Hl.
Qed.

Lemma allLinkIds_size g (L : gset string) :
  (size (allLinkIds g ∖ L) < collectFuel g)%nat.
Proof.
  assert (size (allLinkIds g ∖ L) ≤ size (allLinkIds g))%nat as Hle.
  { apply subseteq_size. intros x Hx. by apply elem_of_difference in Hx as [? _]. }
  unfold allLinkIds, collectFuel in *.
  pose proof (size_list_to_set_le
    (linkId g <$> (mjoin (Node.sourceLinks <$> nodes g)
                   ++ mjoin (Node.targetLinks <$> nodes g)))) as Hsz.
  rewrite length_fmap, length_app in Hsz. lia.
Qed.

Lemma collectForward_total g n L N :
  ∃ L' N', collectForward (collectFuel g) g n (L, N) = Some (L', N').
Proof.
  destruct (collect_total Node.sourceLinks Link.target g (allLinkIds g)
              (sourceLinks_in_all g) (collectFuel g) n L N
              (allLinkIds_size g L)) as (L' & N' & E & _).
  by exists L', N'.
Qed.

Lemma collectBackward_total g n L N :
  ∃ L' N', collectBackward (collectFuel g) g n (L, N) = Some (L', N').
Proof.
  destruct (collect_total Node.targetLinks Link.source g (allLinkIds g)
              (targetLinks_in_all g) (collectFuel g) n L N
              (allLinkIds_size g L)) as (L' & N' & E & _).
  by exists L', N'.
Qed.

Lemma wf_sourceLinks_valid g :
  wf_graph g →
  ∀ n l, l ∈ Node.sourceLinks (nodes g !!! n) → (l < length (links g))%nat.
Proof.
  intros Hwf n l Hl. apply wf_graph_alt in Hwf as (_ & Hn & _).
  rewrite list_lookup_total_alt in Hl.
  destruct (nodes g !! n) as [x|] eqn:E; simpl in Hl.
  - eapply wf_node_link_lt; [by eapply Hn | by left].
  - by apply elem_of_nil in Hl.
Qed.

Lemma wf_targetLinks_valid g :
  wf_graph g →
  ∀ n l, l ∈ Node.targetLinks (nodes g !!! n) → (l < length (links g))%nat.
Proof.
  intros Hwf n l Hl. apply wf_graph_alt in Hwf as (_ & Hn & _).
  rewrite list_lookup_total_alt in Hl.
  destruct (nodes g !! n) as [x|] eqn:E; simpl in Hl.
  - eapply wf_node_link_lt; [by eapply Hn | by right].
  - by apply elem_of_nil in Hl.
Qed.

Lemma wf_link_ends g l :
  wf_graph g → (l < length (links g))%nat →
  (Link.source (links g !!! l) < length (nodes g))%nat
  ∧ (Link.target (links g !!! l) < length (nodes g))%nat.
Proof.
  intros Hwf Hl. apply wf_graph_alt in Hwf as (_ & _ & Hk).
  destruct (lookup_lt_is_Some_2 _ _ Hl) as [k E].
  rewrite (list_lookup_total_correct _ _ _ E).
  destruct (Hk l k E) as [Hs Ht]. split.
  - destruct (nodes g !! Link.source k) eqn:E1; [by eapply lookup_lt_Some|].
    simpl in Hs. by apply elem_of_nil in Hs.
  - destruct (nodes g !! Link.target k) eqn:E1; [by eapply lookup_lt_Some|].
    simpl in Ht. by apply elem_of_nil in Ht.
Qed.

(** On a well-formed graph whose node ids do not contain the arrow, the id
    of a link determines its two ends. *)
Lemma wf_linkId_inj g l l' :
  wf_graph g → ids_arrow_free g →
  (l < length (links g))%nat → (l' < length (links g))%nat →
  linkId g l = linkId g l' →
  Link.source (links g !!! l) = Link.source (links g !!! l')
  ∧ Link.target (links g !!! l) = Link.target (links g !!! l').
Proof.
  intros Hwf Haf Hl Hl' Heq.
  destruct (wf_link_ends g l Hwf Hl) as [Hs Ht].
  destruct (wf_link_ends g l' Hwf Hl') as [Hs' Ht'].
  assert (Hfree : ∀ i, (i < length (nodes g))%nat →
                       contains arrow (Node.id (nodes g !!! i)) = false).
  { intros i Hi. unfold ids_arrow_free in Haf. rewrite Forall_forall in Haf.
    apply Haf. by apply list_elem_of_lookup_total_2. }
  unfold linkId in Heq. apply key_inj in Heq as [E1 E2]; [|by apply Hfree..].
  destruct Hwf as (Hnd & _). split; by apply (idOf_inj (nodes g) Hnd).
Qed.

Lemma collectForward_exact g fuel n L N L' N' :
  wf_graph g → ids_arrow_free g →
  collectForward fuel g n (L, N) = Some (L', N') →
  (∀ l, downstream g n l → linkId g l ∉ L) →
  (∀ s, s ∈ L' ↔ s ∈ L ∨ ∃ l, downstream g n l ∧ linkId g l = s)
  ∧ (∀ s, s ∈ N' ↔
          s ∈ N ∨ ∃ l, downstream g n l
                       ∧ s = Node.id (nodes g !!! Link.target (links g !!! l))).
Proof.
  intros Hwf Haf. apply collect_exact; [by apply wf_sourceLinks_valid|].
  intros l l' Hl Hl' Heq. by destruct (wf_linkId_inj g l l' Hwf Haf Hl Hl' Heq).
Qed.

Lemma collectBackward_exact g fuel n L N L' N' :
  wf_graph g → ids_arrow_free g →
  collectBackward fuel g n (L, N) = Some (L', N') →
  (∀ l, upstream g n l → linkId g l ∉ L) →
  (∀ s, s ∈ L' ↔ s ∈ L ∨ ∃ l, upstream g n l ∧ linkId g l = s)
  ∧ (∀ s, s ∈ N' ↔
          s ∈ N ∨ ∃ l, upstream g n l
                       ∧ s = Node.id (nodes g !!! Link.source (links g !!! l))).
Proof.
  intros Hwf Haf. apply collect_exact; [by apply wf_targetLinks_valid|].
  intros l l' Hl Hl' Heq. by destruct (wf_linkId_inj g l l' Hwf Haf Hl Hl' Heq).
Qed.

(** The sets of a highlight that was applied; empty ones otherwise. *)
Definition setsOf (r : option (option (gset string * gset string)))
    : gset string * gset string :=
  default (∅, ∅) (default None r).

(** [highlightNode] returns on every graph, cyclic ones included, in every
    mode: a link id is added to the set before the recursive call, and no
    call is made for an id that the set holds.  (The call stack of the
    engine is taken to be deep enough for as many nested calls as there are
    link ids.) *)
Theorem highlightNode_terminates mode g n :
  is_Some (highlightNode mode g n).
Proof.
  destruct mode; unfold highlightNode; cbn [mbind option_bind].
  - destruct (collectForward_total g n ∅ {[ Node.id (nodes g !!! n) ]})
      as (L & N & ->). by eexists.
  - destruct (collectBackward_total g n ∅ {[ Node.id (nodes g !!! n) ]})
      as (L & N & ->). by eexists.
  - destruct (collectForward_total g n ∅ {[ Node.id (nodes g !!! n) ]})
      as (F & NF & ->).
    cbn [mbind option_bind].
    destruct (collectBackward_total g n F NF) as (L & N & ->). by eexists.
  - by eexists.
Qed.

(** In mode 'forward', on a well-formed graph whose node ids do not contain
    the arrow, the highlighted links are the links downstream of the node,
    and the highlighted nodes are the node and the targets of these links. *)
Theorem highlight_forward_downstream g n :
  wf_graph g → ids_arrow_free g →
  ∃ L N, highlightNode HlForward g n = Some (Some (L, N))
    ∧ (∀ s, s ∈ L ↔ ∃ l, downstream g n l ∧ linkId g l = s)
    ∧ (∀ s, s ∈ N ↔
            s = Node.id (nodes g !!! n)
            ∨ ∃ l, downstream g n l
                   ∧ s = Node.id (nodes g !!! Link.target (links g !!! l))).
Proof.
  intros Hwf Haf. unfold highlightNode. cbn [mbind option_bind].
  destruct (collectForward_total g n ∅ {[ Node.id (nodes g !!! n) ]})
    as (L & N & E).
  rewrite E. exists L, N. split; [done|].
  destruct (collectForward_exact g _ n _ _ L N Hwf Haf E) as [HL HN].
  { intros l _. apply not_elem_of_empty. }
  split; intros s.
  - rewrite HL. split; [|by right].
    intros [H|H]; [by apply elem_of_empty in H | done].
  - rewrite HN. by rewrite elem_of_singleton.
Qed.

Lemma highlight_forward_downstream_witness :
  ∃ L N, highlightNode HlForward earlySinkGraph 0 = Some (Some (L, N))
    ∧ (∀ s, s ∈ L ↔ ∃ l, downstream earlySinkGraph 0 l
                         ∧ linkId earlySinkGraph l = s)
    ∧ (∀ s, s ∈ N ↔
            s = Node.id (nodes earlySinkGraph !!! 0%nat)
            ∨ ∃ l, downstream earlySinkGraph 0 l
                   ∧ s = Node.id (nodes earlySinkGraph
                                  !!! Link.target (links earlySinkGraph !!! l))).
Proof.
  apply (highlight_forward_downstream earlySinkGraph 0);
    apply (bool_decide_unpack _); vm_compute; exact I.
Defined.

(** In mode 'backward', on a well-formed graph whose node ids do not contain
    the arrow, the highlighted links are the links upstream of the node, and
    the highlighted nodes are the node and the sources of these links. *)
Theorem highlight_backward_upstream g n :
  wf_graph g → ids_arrow_free g →
  ∃ L N, highlightNode HlBackward g n = Some (Some (L, N))
    ∧ (∀ s, s ∈ L ↔ ∃ l, upstream g n l ∧ linkId g l = s)
    ∧ (∀ s, s ∈ N ↔
            s = Node.id (nodes g !!! n)
            ∨ ∃ l, upstream g n l
                   ∧ s = Node.id (nodes g !!! Link.source (links g !!! l))).
Proof.
  intros Hwf Haf. unfold highlightNode. cbn [mbind option_bind].
  destruct (collectBackward_total g n ∅ {[ Node.id (nodes g !!! n) ]})
    as (L & N & E).
  rewrite E. exists L, N. split; [done|].
  destruct (collectBackward_exact g _ n _ _ L N Hwf Haf E) as [HL HN].
  { intros l _. apply not_elem_of_empty. }
  split; intros s.
  - rewrite HL. split; [|by right].
    intros [H|H]; [by apply elem_of_empty in H | done].
  - rewrite HN. by rewrite elem_of_singleton.
Qed.

Lemma highlight_backward_upstream_witness :
  ∃ L N, highlightNode HlBackward earlySinkGraph 2 = Some (Some (L, N))
    ∧ (∀ s, s ∈ L ↔ ∃ l, upstream earlySinkGraph 2 l
                         ∧ linkId earlySinkGraph l = s)
    ∧ (∀ s, s ∈ N ↔
            s = Node.id (nodes earlySinkGraph !!! 2%nat)
            ∨ ∃ l, upstream earlySinkGraph 2 l
                   ∧ s = Node.id (nodes earlySinkGraph
                                  !!! Link.source (links earlySinkGraph !!! l))).
Proof.
  apply (highlight_backward_upstream earlySinkGraph 2);
    apply (bool_decide_unpack _); vm_compute; exact I.
Defined.

(** In mode 'both' the backward traversal starts from the sets that the
    forward traversal has filled.  When the forward and the backward
    highlight of a node share no link id, as on every acyclic graph, mode
    'both' highlights the union of the two. *)
Theorem highlight_both_union g n F NF B NB :
  wf_graph g → ids_arrow_free g →
  highlightNode HlForward g n = Some (Some (F, NF)) →
  highlightNode HlBackward g n = Some (Some (B, NB)) →
  F ## B →
  highlightNode HlBoth g n = Some (Some (F ∪ B, NF ∪ NB)).
Proof.
  intros Hwf Haf HF HB Hdisj. unfold highlightNode in *.
  cbn [mbind option_bind] in *.
  destruct (collectForward (collectFuel g) g n _)
    as [[F' NF']|] eqn:EF; [|done].
  destruct (collectBackward (collectFuel g) g n (∅, _))
    as [[B' NB']|] eqn:EB; [|done].
  simpl in HF, HB. injection HF as -> ->. injection HB as -> ->.
  cbn [mbind option_bind].
  destruct (collectBackward_total g n F NF) as (L & N & E). rewrite E.
  simpl. do 3 f_equal.
  - destruct (collectBackward_exact g _ n _ _ B NB Hwf Haf EB) as [HB1 _].
    { intros l _. apply not_elem_of_empty. }
    destruct (collectBackward_exact g _ n _ _ L N Hwf Haf E) as [HL1 _].
    { intros l Hr Hin. apply elem_of_disjoint in Hdisj.
      apply (Hdisj _ Hin). apply HB1. right. by exists l. }
    apply set_eq. intros s. rewrite HL1, elem_of_union, HB1. split.
    + intros [?|?]; [by left | right; by right].
    + intros [?|[H|?]]; [by left | by apply elem_of_empty in H | by right].
  - destruct (collectForward_exact g _ n _ _ F NF Hwf Haf EF) as [_ HF2].
    { intros l _. apply not_elem_of_empty. }
    destruct (collectBackward_exact g _ n _ _ B NB Hwf Haf EB) as [HB1 HB2].
    { intros l _. apply not_elem_of_empty. }
    destruct (collectBackward_exact g _ n _ _ L N Hwf Haf E) as [_ HL2].
    { intros l Hr Hin. apply elem_of_disjoint in Hdisj.
      apply (Hdisj _ Hin). apply HB1. right. by exists l. }
    apply set_eq. intros s. rewrite HL2, elem_of_union, HB2. split.
    + intros [?|?]; [by left | right; by right].
    + intros [?|[H|?]]; [by left | | by right].
      left. apply HF2. by left.
Qed.

Lemma highlight_both_union_witness :
  let F := (setsOf (highlightNode HlForward earlySinkGraph 1)).1 in
  let NF := (setsOf (highlightNode HlForward earlySinkGraph 1)).2 in
  let B := (setsOf (highlightNode HlBackward earlySinkGraph 1)).1 in
  let NB := (setsOf (highlightNode HlBackward earlySinkGraph 1)).2 in
  F ## B
  ∧ highlightNode HlBoth earlySinkGraph 1 = Some (Some (F ∪ B, NF ∪ NB)).
Proof.
  intros F NF B NB.
  assert (Hdisj : F ## B) by (apply (bool_decide_unpack _); vm_compute; exact I).
  split; [exact Hdisj|].
  apply (highlight_both_union earlySinkGraph 1 F NF B NB);
    [apply (bool_decide_unpack _); vm_compute; exact I
    |apply (bool_decide_unpack _); vm_compute; exact I
    |vm_compute; reflexivity
    |vm_compute; reflexivity
    |exact Hdisj].
Defined.

(** On the cycle with a feeder the backward highlight of N holds the link
    from Q to P and the node Q, the highlight of mode 'both' does not: the
    forward traversal has put the id of the link from P to N into the set,
    and the backward traversal does not go past a link whose id the set
    holds. *)
Lemma highlight_both_misses_feeder :
  let B := setsOf (highlightNode HlBackward feederCycleGraph 0) in
  let L := setsOf (highlightNode HlBoth feederCycleGraph 0) in
  is_Some (default None (highlightNode HlBackward feederCycleGraph 0))
  ∧ is_Some (default None (highlightNode HlBoth feederCycleGraph 0))
  ∧ linkId feederCycleGraph 2 ∈ B.1 ∧ linkId feederCycleGraph 2 ∉ L.1
  ∧ "Q" ∈ B.2 ∧ "Q" ∉ L.2.
Proof.
  intros B L. split; [|split; [|split; [|split; [|split]]]].
  - vm_compute. by eexists.
  - vm_compute. by eexists.
  - apply (bool_decide_unpack _). vm_compute. exact I.
  - apply (bool_decide_unpack _). vm_compute. exact I.
  - apply (bool_decide_unpack _). vm_compute. exact I.
  - apply (bool_decide_unpack _). vm_compute. exact I.
Qed.

(** * TooltipManager.escapeHtml (interactions/tooltip.ts)

    The labels and colours that the default tooltips put into their HTML go
    through [escapeHtml]: four global replacements, one after the other.
    Strings are sequences of bytes here; the four characters are ASCII, and
    no byte of a longer UTF-8 sequence is an ASCII byte. *)

(** [str.replace(/c/g, r)] for a single character [c]. *)
Fixpoint replaceAll (c : Ascii.ascii) (r : string) (str : string) : string :=
  match str with
  | EmptyString => EmptyString
  | String a rest =>
      if decide (a = c) then r +:+ replaceAll c r rest
      else String a (replaceAll c r rest)
  end.

(** The ampersand, the two angle brackets and the double quote. *)
Definition ampChar : Ascii.ascii := Eval cbv in Ascii.ascii_of_nat 38.
Definition ltChar : Ascii.ascii := Eval cbv in Ascii.ascii_of_nat 60.
Definition gtChar : Ascii.ascii := Eval cbv in Ascii.ascii_of_nat 62.
Definition quotChar : Ascii.ascii := Eval cbv in Ascii.ascii_of_nat 34.

Definition escapeHtml (str : string) : string :=
  replaceAll quotChar "&quot;"
    (replaceAll gtChar "&gt;"
       (replaceAll ltChar "&lt;"
          (replaceAll ampChar "&amp;" str))).

(** The text that stands for one character after the four replacements. *)
Definition escapeChar (a : Ascii.ascii) : string :=
  if decide (a = ampChar) then "&amp;"
  else if decide (a = ltChar) then "&lt;"
  else if decide (a = gtChar) then "&gt;"
  else if decide (a = quotChar) then "&quot;"
  else String a EmptyString.

Fixpoint escapeEach (str : string) : string :=
  match str with
  | EmptyString => EmptyString
  | String a rest => escapeChar a +:+ escapeEach rest
  end.

Fixpoint charsOf (str : string) : list Ascii.ascii :=
  match str with
  | EmptyString => []
  | String a rest => a :: charsOf rest
  end.

Lemma replaceAll_app c r s t :
  replaceAll c r (s +:+ t) = replaceAll c r s +:+ replaceAll c r t.
Proof.
  induction s as [|a s IH]; [done|].
  rewrite string_app_cons. cbn [replaceAll].
  destruct (decide (a = c)); rewrite IH.
  - by rewrite string_app_assoc.
  - by rewrite string_app_cons.
Qed.

Lemma replaceAll_cons c r a s :
  replaceAll c r (String a s)
  = replaceAll c r (String a EmptyString) +:+ replaceAll c r s.
Proof.
  change (String a s) with (String a EmptyString +:+ s).
  apply replaceAll_app.
Qed.

Lemma escapeHtml_cons a s :
  escapeHtml (String a s) = escapeChar a +:+ escapeHtml s.
Proof.
  unfold escapeHtml.
  rewrite (replaceAll_cons ampChar), !replaceAll_app. f_equal.
  unfold escapeChar. cbn [replaceAll].
  destruct (decide (a = ampChar)) as [->|H1]; [by vm_compute|].
  rewrite string_app_nil_l || idtac. cbn [replaceAll].
  destruct (decide (a = ltChar)) as [->|H2]; [by vm_compute|].
  cbn [replaceAll].
  destruct (decide (a = gtChar)) as [->|H3]; [by vm_compute|].
  cbn [replaceAll].
  destruct (decide (a = quotChar)) as [->|H4]; [by vm_compute|].
  done.
Qed.

Lemma charsOf_app s t : charsOf (s +:+ t) = charsOf s ++ charsOf t.
Proof.
  induction s as [|a s IH]; [done|].
  rewrite string_app_cons. cbn [charsOf]. by rewrite IH.
Qed.

Lemma escapeChar_cases a :
  (a = ampChar ∧ escapeChar a = "&amp;")
  ∨ (a = ltChar ∧ escapeChar a = "&lt;")
  ∨ (a = gtChar ∧ escapeChar a = "&gt;")
  ∨ (a = quotChar ∧ escapeChar a = "&quot;")
  ∨ (a ≠ ampChar ∧ a ≠ ltChar ∧ a ≠ gtChar ∧ a ≠ quotChar
     ∧ escapeChar a = String a EmptyString).
Proof.
  unfold escapeChar.
  destruct (decide (a = ampChar)) as [->|H1]; [by left|].
  destruct (decide (a = ltChar)) as [->|H2]; [right; by left|].
  destruct (decide (a = gtChar)) as [->|H3]; [right; right; by left|].
  destruct (decide (a = quotChar)) as [->|H4]; [right; right; right; by left|].
  by repeat right.
Qed.

(** The four replacements in a row are one pass that replaces each of the
    four characters by its entity: no replacement text holds a character
    that a later replacement looks for. *)
Theorem escapeHtml_one_pass str : escapeHtml str = escapeEach str.
Proof.
  induction str as [|a s IH]; [done|].
  by rewrite escapeHtml_cons, IH.
Qed.

(** The escaped text holds no angle bracket and no double quote. *)
Theorem escapeHtml_no_markup str :
  Forall (λ c, c ≠ ltChar ∧ c ≠ gtChar ∧ c ≠ quotChar)
    (charsOf (escapeHtml str)).
Proof.
  apply Forall_forall. intros c.
  induction str as [|a s IH].
  - change (escapeHtml EmptyString) with EmptyString. cbn [charsOf].
    intros H. by apply elem_of_nil in H.
  - rewrite escapeHtml_cons, charsOf_app.
    intros [H|H]%elem_of_app; [|by apply IH].
    destruct (escapeChar_cases a)
      as [[_ E]|[[_ E]|[[_ E]|[[_ E]|(_ & H2 & H3 & H4 & E)]]]];
      rewrite E in H; cbn [charsOf] in H.
    + repeat (apply elem_of_cons in H as [->|H]; [by vm_compute|]).
      by apply elem_of_nil in H.
    + repeat (apply elem_of_cons in H as [->|H]; [by vm_compute|]).
      by apply elem_of_nil in H.
    + repeat (apply elem_of_cons in H as [->|H]; [by vm_compute|]).
      by apply elem_of_nil in H.
    + repeat (apply elem_of_cons in H as [->|H]; [by vm_compute|]).
      by apply elem_of_nil in H.
    + apply elem_of_cons in H as [->|H]; [done|]. by apply elem_of_nil in H.
Qed.

(** Escaping loses nothing: two strings with the same escaped text are the
    same string. *)
Theorem escapeHtml_injective s t : escapeHtml s = escapeHtml t → s = t.
Proof.
  revert t. induction s as [|a s IH]; intros [|b t] H;
    rewrite ?escapeHtml_cons in H;
    change (escapeHtml EmptyString) with EmptyString in H.
  - done.
  - exfalso.
    destruct (escapeChar_cases b)
      as [[_ E]|[[_ E]|[[_ E]|[[_ E]|(_ & _ & _ & _ & E)]]]];
      rewrite E, string_app_cons in H; discriminate H.
  - exfalso.
    destruct (escapeChar_cases a)
      as [[_ E]|[[_ E]|[[_ E]|[[_ E]|(_ & _ & _ & _ & E)]]]];
      rewrite E, string_app_cons in H; discriminate H.
  - unfold ampChar, ltChar, gtChar, quotChar in *.
    destruct (escapeChar_cases a)
      as [[-> Ea]|[[-> Ea]|[[-> Ea]|[[-> Ea]|(A1 & A2 & A3 & A4 & Ea)]]]];
    destruct (escapeChar_cases b)
      as [[-> Eb]|[[-> Eb]|[[-> Eb]|[[-> Eb]|(B1 & B2 & B3 & B4 & Eb)]]]];
      unfold ampChar, ltChar, gtChar, quotChar in *;
      rewrite Ea in H; rewrite ?Eb in H;
      rewrite !string_app_cons, ?string_app_nil_l in H;
      try discriminate H;
      injection H as H; subst;
      try (repeat match goal with
                  | H' : String _ _ = String _ _ |- _ => injection H' as H'
                  end);
      try congruence; f_equal; by apply IH.
Qed.

Lemma escapeHtml_injective_witness :
  escapeHtml "a<b" = escapeHtml "a<b" ∧ "a<b" = "a<b".
Proof.
  split; [reflexivity|].
  apply (escapeHtml_injective "a<b" "a<b"). reflexivity.
Defined.

(** ** No link out of a placed node skips a column *)

Section BFSEdges.
Variable ls : list SankeyLink.
Variable ns0 : list SankeyNode.
Hypothesis ids_unique : NoDup (Node.id <$> ns0).
Hypothesis targets_valid :
  ∀ i t, (i < length ns0)%nat → t ∈ targetsOf ls (ns0 !!! i) →
         (t < length ns0)%nat.

Notation idOf := (idOf ns0).
Notation same_graph := (same_graph ns0).

(** Every target of a visited node is visited, at most one level further. *)
Definition edges_ok (V : gset string) (ns : list SankeyNode) : Prop :=
  ∀ j t, (j < length ns0)%nat → idOf j ∈ V → t ∈ targetsOf ls (ns0 !!! j) →
    idOf t ∈ V ∧ (Node.depth (ns !!! t) ≤ S (Node.depth (ns !!! j)))%nat.

(** At the head of the loop a target of a visited node that does not
    satisfy this yet is in the frontier, and the node is in the level before
    the frontier. *)
Definition front_inv (d : nat) (V : gset string) (ns : list SankeyNode)
    (current : list nat) : Prop :=
  same_graph ns
  ∧ (∀ i, i ∈ current → (i < length ns0)%nat)
  ∧ (∀ i, (i < length ns0)%nat → idOf i ∈ V → (Node.depth (ns !!! i) < d)%nat)
  ∧ (∀ j t, (j < length ns0)%nat → idOf j ∈ V →
       t ∈ targetsOf ls (ns0 !!! j) →
       (idOf t ∈ V ∧ (Node.depth (ns !!! t) ≤ S (Node.depth (ns !!! j)))%nat)
       ∨ (t ∈ current ∧ S (Node.depth (ns !!! j)) = d)).

Lemma bfsLoop_edges fuel current d V nsA Vf nsf :
  front_inv d V nsA current →
  bfsLoop fuel ls current d V nsA = Some (Vf, nsf) →
  edges_ok Vf nsf.
Proof.
  revert current d V nsA.
  induction fuel as [|fuel IH]; intros current d V nsA Hinv; [done|].
  destruct Hinv as (HA & Hcur & I1 & I4).
  simpl. destruct current as [|c current].
  { intros [= <- <-]. intros j t Hj Hv Ht.
    destruct (I4 j t Hj Hv Ht) as [?|[Hin _]]; [done|].
    by apply elem_of_nil in Hin. }
  pose proof (level_spec ls ns0 ids_unique targets_valid d V nsA (c :: current)
                HA Hcur) as [Hlevel HV'].
  destruct (fold_left _ (c :: current) _) as [[V' ns'] next] eqn:Hfold.
  destruct Hlevel as (H1 & H2 & H3 & H4 & H5).
  simpl in H1, H2, H3, H4, H5. cbn [fst snd] in HV'.
  apply IH. clear IH.
  assert (Hold : ∀ j, (j < length ns0)%nat → idOf j ∈ V →
            Node.depth (ns' !!! j) = Node.depth (nsA !!! j)).
  { intros j Hj Hv. rewrite H3 by done. rewrite decide_False; [done|].
    intros [_ Hn]%elem_of_difference. done. }
  assert (Hsplit : ∀ i, idOf i ∈ V' → idOf i ∉ V' ∖ V → idOf i ∈ V).
  { intros i Hv Hnot. destruct (decide (idOf i ∈ V)) as [|Hn]; [done|].
    exfalso. apply Hnot. by apply elem_of_difference. }
  assert (I1' : ∀ i, (i < length ns0)%nat → idOf i ∈ V' →
            (Node.depth (ns' !!! i) < S d)%nat).
  { intros i Hi Hv. rewrite H3 by done. case_decide as Hnew; [lia|].
    specialize (I1 i Hi (Hsplit i Hv Hnew)). lia. }
  split; [done|]. split; [intros t Ht; by apply H4|]. split; [done|].
  intros j t Hj Hv Ht.
  pose proof (targets_valid j t Hj Ht) as Htl.
  destruct (decide (idOf j ∈ V' ∖ V)) as [Hnew|Hnot].
  - assert (Hdj : Node.depth (ns' !!! j) = d).
    { rewrite H3 by done. by rewrite decide_True. }
    destruct (decide (idOf t ∈ V')) as [Htv|Htv].
    + left. split; [done|]. specialize (I1' t Htl Htv). lia.
    + right. split; [exact (H5 j t Hj Hnew Ht Htv) | by rewrite Hdj].
  - pose proof (Hsplit j Hv Hnot) as Hv0.
    rewrite (Hold j Hj Hv0).
    destruct (I4 j t Hj Hv0 Ht) as [[Htv Hle]|[Htc Hd]].
    + left. split; [by apply H1|]. by rewrite (Hold t Htl Htv).
    + left.
      assert (Htv : idOf t ∈ V').
      { rewrite HV'. apply elem_of_union_r, elem_of_list_to_set.
        by apply list_elem_of_fmap_2. }
      split; [done|]. rewrite H3 by done. case_decide as Hnew; [lia|].
      specialize (I1 t Htl (Hsplit t Htv Hnew)). lia.
Qed.

End BFSEdges.

Section DepthsEdges.
Variable config : SankeyConfig.
Variable ls : list SankeyLink.
Variable ns0 : list SankeyNode.
Hypothesis ids_unique : NoDup (Node.id <$> ns0).
Hypothesis targets_valid :
  ∀ i t, (i < length ns0)%nat → t ∈ targetsOf ls (ns0 !!! i) →
         (t < length ns0)%nat.

(** A link out of a node that is not in the first column, or that has no
    incoming link, ends at most one column further, unless it ends at a sink
    that the justify step moved. *)
Lemma computeDepths_edge j t :
  (j < length ns0)%nat → t ∈ targetsOf ls (ns0 !!! j) →
  (0 < Node.depth (computeDepths config ls ns0 !!! j))%nat
  ∨ Node.targetLinks (ns0 !!! j) = [] →
  Config.nodeAlign config ≠ AlignJustify ∨ Node.sourceLinks (ns0 !!! t) ≠ [] →
  (Node.depth (computeDepths config ls ns0 !!! t)
   ≤ S (Node.depth (computeDepths config ls ns0 !!! j)))%nat.
Proof.
  intros Hj Ht Hplaced Hor.
  pose proof (targets_valid j t Hj Ht) as Htl.
  assert (Hjs : Node.sourceLinks (ns0 !!! j) ≠ []).
  { intros Hnil. unfold targetsOf in Ht. rewrite Hnil in Ht.
    by apply elem_of_nil in Ht. }
  destruct (decide (sourcesOf ns0 = [])) as [Hnil|Hsrc].
  { unfold computeDepths. rewrite Hnil.
    rewrite !lookup_total_fmap_lt by done. simpl. lia. }
  destruct (computeDepths_bfs_result config ls ns0 ids_unique targets_valid Hsrc)
    as (Vf & nsf & Hloop & Hcd & Hlen).
  rewrite Hcd in *.
  pose proof (bfsLoop_frame _ _ _ _ _ _ _ _ Hloop) as Hsame.
  rewrite (computeDepths_unjustified config ns0 Vf nsf j) in *
    by (try done; by right).
  rewrite (computeDepths_unjustified config ns0 Vf nsf t) by done.
  assert (Hv : idOf ns0 j ∈ Vf).
  { destruct (decide (idOf ns0 j ∈ Vf)) as [|Hn]; [done|].
    destruct Hplaced as [Hpos|Hin]; [simpl in Hpos; lia|].
    destruct (bfsLoop_depths ls ns0 ids_unique targets_valid _ _ _ _ _ _ _
                (eq_refl : same_graph ns0 ns0)
                (sourcesOf_valid ns0) Hloop) as (_ & _ & Hfront).
    destruct (Hfront j) as [Hv _]; [|by apply not_elem_of_empty|done].
    unfold sourcesOf. apply list_elem_of_filter. split; [done|].
    apply elem_of_seq. lia. }
  assert (Hedges : edges_ok ls ns0 Vf nsf).
  { eapply (bfsLoop_edges ls ns0 ids_unique targets_valid); [|exact Hloop].
    split; [done|]. split; [apply sourcesOf_valid|].
    split; [by intros i _ ?%not_elem_of_empty|].
    by intros i u _ ?%not_elem_of_empty. }
  destruct (Hedges j t Hj Hv Ht) as [Htv Hle].
  by rewrite !decide_True.
Qed.

End DepthsEdges.

(** On a graph with unique ids and valid link targets, after [compute] a
    link that leaves a node outside the first column, or a node without
    incoming links, ends at most one column further to the right, whenever
    its target has an outgoing link or the alignment is not 'justify'. *)
Theorem compute_links_skip_no_column (config : SankeyConfig)
    (g g' : SankeyGraph) :
  NoDup (Node.id <$> nodes g) →
  endpoints_valid g →
  compute config g = Some g' →
  ∀ j m t n,
    nodes g' !! j = Some m →
    t ∈ targetsOf (links g') m →
    nodes g' !! t = Some n →
    (0 < Node.depth m)%nat ∨ Node.targetLinks m = [] →
    Config.nodeAlign config ≠ AlignJustify ∨ Node.sourceLinks n ≠ [] →
    (Node.depth n ≤ S (Node.depth m))%nat.
Proof.
  intros Hids Hends Hc j m' t n' Hm' Ht Hn' Hplaced Hor.
  assert (Hne : nodes g ≠ []).
  { intros Hnil. unfold compute in Hc. rewrite Hnil in Hc. injection Hc as <-.
    by rewrite Hnil in Hm'. }
  pose proof (compute_depth config g g' Hne Hc) as Hd.
  destruct (compute_node_pair config g g' j m' Hc Hm') as (m & Hm & Hqs & Hqt).
  destruct (compute_node_pair config g g' t n' Hc Hn') as (n & Hn & Hps & Hpt).
  pose proof (lookup_lt_Some _ _ _ Hm) as Hj.
  assert (Hdm : Node.depth m'
                = Node.depth (computeDepths config (links g) (nodes g) !!! j)).
  { rewrite <- (lookup_total_fmap_pres Node.depth _ _ j Hd).
    by rewrite (list_lookup_total_correct _ _ _ Hm'). }
  assert (Hdn : Node.depth n'
                = Node.depth (computeDepths config (links g) (nodes g) !!! t)).
  { rewrite <- (lookup_total_fmap_pres Node.depth _ _ t Hd).
    by rewrite (list_lookup_total_correct _ _ _ Hn'). }
  rewrite Hdm, Hdn.
  apply (computeDepths_edge config (links g) (nodes g) Hids
           (λ i u, endpoints_valid_targets g i u Hends)); [done | | |].
  - rewrite (list_lookup_total_correct _ _ _ Hm).
    pose proof (compute_same_structure config g g' Hc) as (_ & _ & _ & Htgt & _).
    unfold targetsOf in *.
    apply list_elem_of_fmap in Ht as (l & -> & Hl).
    apply list_elem_of_fmap. exists l. split.
    + by apply (lookup_total_fmap_pres Link.target).
    + by rewrite <- Hqs.
  - rewrite <- Hdm. destruct Hplaced as [|Hnil]; [by left|]. right.
    rewrite (list_lookup_total_correct _ _ _ Hm). by apply (perm_nil_eq _ _ Hqt).
  - rewrite (list_lookup_total_correct _ _ _ Hn).
    destruct Hor as [|Hs]; [by left|]. right.
    by rewrite <- (perm_nil_eq _ _ Hps).
Qed.

Lemma compute_links_skip_no_column_witness :
  ∃ g', compute DEFAULT_CONFIG earlySinkGraph = Some g'
    ∧ ∀ j m t n,
        nodes g' !! j = Some m →
        t ∈ targetsOf (links g') m →
        nodes g' !! t = Some n →
        (0 < Node.depth m)%nat ∨ Node.targetLinks m = [] →
        Config.nodeAlign DEFAULT_CONFIG ≠ AlignJustify
        ∨ Node.sourceLinks n ≠ [] →
        (Node.depth n ≤ S (Node.depth m))%nat.
Proof.
  destruct (compute DEFAULT_CONFIG earlySinkGraph) as [g'|] eqn:H.
  - exists g'. split; [reflexivity|].
    apply (compute_links_skip_no_column DEFAULT_CONFIG earlySinkGraph g');
      [| |exact H].
    + apply (bool_decide_unpack _). vm_compute. exact I.
    + apply (bool_decide_unpack _). vm_compute. exact I.
  - vm_compute in H. discriminate H.
Defined.

(** * The top edge of the drawing area

    [initializeNodeY] stacks every column downwards from [padding.top].
    [resolveCollisions] pushes the nodes of a column down to that line, and
    pushes them up again only when the last one passes the bottom line: a
    column whose nodes and paddings fit between the two lines stays below
    the top line. *)


(** The height that the nodes of a column take, paddings included. *)
Definition columnSpan (config : SankeyConfig) (ns : list SankeyNode)
    (column : list nat) : Qc :=
  Qc_sum ((λ a, Node.height (ns !!! a) + Config.nodePadding config) <$> column)
  - Config.nodePadding config.

Definition column_fits (config : SankeyConfig) (ns : list SankeyNode)
    (column : list nat) : Prop :=
  columnSpan config ns column
  ≤ Config.height config - Padding.top (Config.padding config)
    - Padding.bottom (Config.padding config).

Definition columns_fit (config : SankeyConfig) (ns : list SankeyNode) : Prop :=
  Forall (column_fits config ns) (getColumns ns).

Global Instance column_fits_dec config ns column :
  Decision (column_fits config ns column).
Proof. unfold column_fits. apply _. Defined.

Global Instance columns_fit_dec config ns : Decision (columns_fit config ns).
Proof. unfold columns_fit. apply _. Defined.

Section Top.
Variable config : SankeyConfig.
Hypothesis pad_nonneg : 0 ≤ Config.nodePadding config.























End Top.



(** * SankeyChart.updateConfig and resize (chart.ts): a second layout

    [updateConfig] merges the new settings into the configuration and calls
    [compute] on the graph object that an earlier [compute] has laid out;
    [resize] is [updateConfig] with a new width and height. *)



